(** * Chladni plate simulation: field generation and particle advection

    A shallow embedding of the gradient worker ([GradientWorker], the
    background context that bakes the vibration and gradient fields) and of
    the foreground application ([ChladniApp], the particle update and raster
    loop), followed by the properties of the design document that can be
    settled on it.

    Conventions of the embedding.
    - A JavaScript number is [number]: [NaN] or a finite value [Num q] with
      [q : Q], the rational a double stands for.  Every arithmetic operator
      rounds its exact result to the nearest double, ties to even ([rnd]); a
      store into a [Float32Array] rounds to the nearest single
      ([Math_fround]); a decimal literal is the double nearest to it
      ([lit]).  The parameters of a bake, the intensities and the values of
      [Math.cos] are finite; no overflow to an infinity occurs, and the sign
      of a zero is not kept.  The one infinite literal of the program,
      [Number.POSITIVE_INFINITY], lives in its own type [extended].
    - Operations that are exact on the values they meet are written
      without rounding: integer index arithmetic, the halving of an
      intensity (exact unless the half is subnormal), the quotient of a
      window side by [CANVAS_SCALE] under [Math.ceil] (lemma
      [ceil_quotient]), and the stores of the integers -1, 0 and 1 into the
      gradients array.
    - Loop counters, array indices and grid dimensions are integers ([Z]).
    - [Math.cos], [Math.random] and the colour helper [Utils.rgbToVal] are
      parameters of the development: the first is implementation-defined, the
      second is an oracle indexed by the number of calls made so far, the
      third is defined in utils.js, outside the files modelled here. *)

From Stdlib Require Import Reals Qreals Lra.
From Stdlib Require Import ZArith QArith Qpower Qround Qabs Lia Lqa Bool List
  Morphisms String.
From stdpp Require Import base list.
Import ListNotations.

Local Open Scope Z_scope.

(** ** Numbers *)

Inductive number : Type :=
| NaN
| Num (q : Q).

(** [a < b] on rationals, as a boolean. *)
Definition Qlt_bool (a b : Q) : bool := negb (Qle_bool b a).

(** The relational operators of JavaScript: any comparison with [NaN] is
    false. *)
Definition num_lt (a b : number) : bool :=
  match a, b with
  | Num x, Num y => Qlt_bool x y
  | _, _ => false
  end.

(** *** Rounding

    Round to nearest, ties to even, in a binary format of precision [prec]
    whose least positive number is [2^emin]: binary64 is [prec = 53],
    [emin = -1074]; binary32 is [prec = 24], [emin = -149]. *)

(** [2^e] *)
Definition pow2 (e : Z) : Q := Qpower 2 e.

(** The exponent [e] with [2^e <= q < 2^(e+1)], for a positive [q]. *)
Definition binade (q : Q) : Z :=
  let e0 := Z.log2 (Qnum q) - Z.log2 (Z.pos (Qden q)) in
  if Qle_bool (pow2 e0) q then e0 else e0 - 1.

(** The nearest integer, a tie going to the even one. *)
Definition roundHalfEven (q : Q) : Z :=
  let f := Qfloor q in
  match (q - inject_Z f ?= 1 # 2)%Q with
  | Lt => f
  | Gt => f + 1
  | Eq => if Z.even f then f else f + 1
  end.

(** The unit in the last place of a positive [a]. *)
Definition ulp (prec emin : Z) (a : Q) : Q :=
  pow2 (Z.max (binade a - prec + 1) emin).

Definition roundPositive (prec emin : Z) (a : Q) : Q :=
  (inject_Z (roundHalfEven (a / ulp prec emin a)) * ulp prec emin a)%Q.

Definition roundTo (prec emin : Z) (q : Q) : Q :=
  if Qle_bool (Qabs q) 0 then 0%Q
  else
    let r := roundPositive prec emin (Qabs q) in
    Qred (if Qle_bool 0 q then r else - r).

(** The double nearest to [q]; [Math.fround]; a decimal literal. *)
Definition rnd (q : Q) : Q := roundTo 53 (-1074) q.
Definition Math_fround (q : Q) : Q := roundTo 24 (-149) q.
Definition lit (q : Q) : Q := rnd q.

Arguments rnd : simpl never.
Arguments Math_fround : simpl never.
Arguments lit : simpl never.

(** The operators [+], [-], [*] and [/] on finite values. *)
Definition fl_add (a b : Q) : Q := rnd (a + b).
Definition fl_sub (a b : Q) : Q := rnd (a - b).
Definition fl_mul (a b : Q) : Q := rnd (a * b).
Definition fl_div (a b : Q) : Q := rnd (a / b).

Definition num_add (a b : number) : number :=
  match a, b with
  | Num x, Num y => Num (fl_add x y)
  | _, _ => NaN
  end.

Definition num_mul (a b : number) : number :=
  match a, b with
  | Num x, Num y => Num (fl_mul x y)
  | _, _ => NaN
  end.

(** [Math.sign] on a finite value. *)
Definition Math_sign (v : Q) : Q :=
  if Qlt_bool 0 v then 1%Q else if Qlt_bool v 0 then (-1)%Q else v.

(** [Math.round]: the nearest integer, halves rounded up; [None] stands for
    the [NaN] that [Math.round(NaN)] returns. *)
Definition Math_round (a : number) : option Z :=
  match a with
  | NaN => None
  | Num q => Some (Qfloor (q + (1 # 2))%Q)
  end.

(** A value that is either finite or [Number.POSITIVE_INFINITY]. *)
Inductive extended : Type :=
| POSITIVE_INFINITY
| Finite (q : Q).

Definition ext_le (v : Q) (e : extended) : bool :=
  match e with
  | POSITIVE_INFINITY => true
  | Finite q => Qle_bool v q
  end.

Definition ext_lt (v : Q) (e : extended) : bool :=
  match e with
  | POSITIVE_INFINITY => true
  | Finite q => Qlt_bool v q
  end.

(** ** 32-bit integer operators *)

Definition ToInt32 (z : Z) : Z :=
  let r := z mod 2 ^ 32 in
  if r <? 2 ^ 31 then r else r - 2 ^ 32.

(** [a << b] *)
Definition shl (a b : Z) : Z := ToInt32 (Z.shiftl (ToInt32 a) (b mod 32)).

(** ** Typed arrays

    A typed array has a fixed length.  Reading outside it yields
    [undefined], which every numeric use below turns into [NaN]; writing
    outside it (or at a negative index) is silently ignored. *)

Abbreviation Float32Array := (list number).
Abbreviation Uint32Array := (list Z).

(** [new Float32Array(n)], for a length [0 <= n]: a negative length makes
    the constructor raise a [RangeError], which is not modelled (the
    properties about allocations assume dimensions that are not
    negative). *)
Definition newFloat32Array (n : Z) : Float32Array :=
  replicate (Z.to_nat n) (Num 0).

Definition ta_lookup {A : Type} (a : list A) (i : Z) : option A :=
  if 0 <=? i then a !! Z.to_nat i else None.

Definition ta_store {A : Type} (a : list A) (i : Z) (v : A) : list A :=
  if 0 <=? i then <[Z.to_nat i := v]> a else a.

Definition ta_read (a : Float32Array) (i : Z) : number :=
  default NaN (ta_lookup a i).

(** The number a [Float32Array] holds after [v] is stored into it. *)
Definition toFloat32 (v : number) : number :=
  match v with
  | Num q => Num (Math_fround q)
  | NaN => NaN
  end.

(** [a[i] = v] on a [Float32Array]. *)
Definition Float32Array_set (a : Float32Array) (i : Z) (v : number)
  : Float32Array :=
  ta_store a i (toFloat32 v).

(** The values [lo, lo+1, ..., hi-1] of a counting loop
    [for (let k = lo; k < hi; k++)]. *)
Definition zrange (lo hi : Z) : list Z :=
  map (fun k => lo + Z.of_nat k) (seq 0 (Z.to_nat (hi - lo))).

(** ** The gradient worker: shared numeric kernel *)

Definition MODERATE_RANDOM_VIBRATION_INTENSITY : Q := 3.
Definition AGGRESSIVE_RANDOM_VIBRATION_INTENSITY : Q :=
  MODERATE_RANDOM_VIBRATION_INTENSITY * (15 # 10).
Definition MIN_NODE_THRESHOLD : Q := lit (1 # 100).

Record ChladniParams : Type := mkChladniParams {
  m : Q;
  n : Q;
  l : Q
}.

(** A property [width] or [height] of the worker holds [null] or
    [undefined] ([None]) until a message sets it.  In every use below (array
    lengths, loop bounds) such a value behaves as [0]: the arrays come out
    empty and no loop body runs. *)
Definition dim (d : option Z) : Z := default 0 d.

(** State of the neighbour scan of one cell. *)
Record scan : Type := mkScan {
  minVibrationSoFar : extended;
  candidateGradients : list (Z * Z)
}.

Section Kernel.

Variable Math_cos : Q -> Q.
(** [random k] is the value returned by the [k]-th call of
    [Math.random()]. *)
Variable random : nat -> Q.

(** *** computeVibrationValues *)

Definition vibrationValue (p : ChladniParams) (TX TY : Q) (x y : Z) : Q :=
  let M := m p in
  let N := n p in
  let L := l p in
  let R := 0%Q in
  let scaledX := fl_add (fl_mul (inject_Z x) L) TX in
  let scaledY := fl_add (fl_mul (inject_Z y) L) TY in
  let MX := fl_add (fl_mul M scaledX) R in
  let NX := fl_add (fl_mul N scaledX) R in
  let MY := fl_add (fl_mul M scaledY) R in
  let NY := fl_add (fl_mul N scaledY) R in
  let value :=
    fl_sub (fl_mul (Math_cos NX) (Math_cos MY))
           (fl_mul (Math_cos MX) (Math_cos NY)) in
  let value := fl_div value 2 in
  let value := fl_mul value (Math_sign value) in
  value.

Definition computeVibrationValues
    (width height : Z) (chladniParams : ChladniParams) (rng : nat)
  : Float32Array * nat :=
  let TX := fl_mul (random rng) (inject_Z height) in
  let TY := fl_mul (random (S rng)) (inject_Z height) in
  let vibrationValues := newFloat32Array (width * height) in
  (fold_left (fun vib y =>
     fold_left (fun vib x =>
       let value := vibrationValue chladniParams TX TY x y in
       let index := y * width + x in
       Float32Array_set vib index (Num value))
     (zrange 0 width) vib)
   (zrange 0 height) vibrationValues,
   S (S rng)).

(** *** computeGradients *)

(** One pass of the body of the two neighbour loops. *)
Definition examine (vib : Float32Array) (width x y : Z)
    (st : scan) (nx ny : Z) : scan :=
  if (nx =? 0) && (ny =? 0) then st
  else
    let ni := (y + ny) * width + (x + nx) in
    match ta_read vib ni with
    | NaN => st
    | Num nv =>
        if ext_le nv (minVibrationSoFar st) then
          let st1 :=
            if ext_lt nv (minVibrationSoFar st)
            then mkScan (Finite nv) []
            else st in
          mkScan (minVibrationSoFar st1)
                 (candidateGradients st1 ++ [(nx, ny)])
        else st
    end.

Definition scanNeighbours (vib : Float32Array) (width x y : Z) : scan :=
  fold_left (fun st ny =>
    fold_left (fun st nx => examine vib width x y st nx ny)
              (zrange (-1) 2) st)
    (zrange (-1) 2)
    (mkScan POSITIVE_INFINITY [(0, 0)]).

(** The choice among the candidates.  A list of length one is used
    without a call of [Math.random()].  The lookup has a default only to
    make the function total: the list is never empty and, for a random
    value in [[0,1)], the index is within it (lemmas [scan_candidates] and
    [pick_index_range]). *)
Definition pick_index (len : nat) (r : Q) : Z :=
  Qfloor (fl_mul r (inject_Z (Z.of_nat len))).

Definition chooseGradient (cands : list (Z * Z)) (rng : nat)
  : (Z * Z) * nat :=
  if (Z.of_nat (length cands) =? 1)
  then (default (0, 0) (ta_lookup cands 0), rng)
  else (default (0, 0)
          (ta_lookup cands (pick_index (length cands) (random rng))),
        S rng).

(** The body of the two cell loops: the new gradients array and random
    counter after cell [(x, y)].  The numbers stored are -1, 0 and 1, which
    a [Float32Array] holds as they are. *)
Definition gradientCell (vib : Float32Array) (width : Z)
    (st : Float32Array * nat) (x y : Z) : Float32Array * nat :=
  let '(gradients, rng) := st in
  let myIndex := y * width + x in
  let gradientIndex := shl myIndex 1 in
  let myVibration := ta_read vib myIndex in
  if num_lt myVibration (Num MIN_NODE_THRESHOLD) then
    let gradients := ta_store gradients gradientIndex (Num 0) in
    let gradients := ta_store gradients (gradientIndex + 1) (Num 0) in
    (gradients, rng)
  else
    let sc := scanNeighbours vib width x y in
    let '(chosenGradient, rng) :=
      chooseGradient (candidateGradients sc) rng in
    let gradients :=
      ta_store gradients gradientIndex
               (Num (inject_Z (fst chosenGradient))) in
    let gradients :=
      ta_store gradients (gradientIndex + 1)
               (Num (inject_Z (snd chosenGradient))) in
    (gradients, rng).

Definition computeGradients
    (width height : Z) (vib : Float32Array) (rng : nat)
  : Float32Array * nat :=
  let gradients := newFloat32Array (width * height * 2) in
  fold_left (fun st y =>
    fold_left (fun st x => gradientCell vib width st x y)
              (zrange 1 (width - 1)) st)
    (zrange 1 (height - 1))
    (gradients, rng).

(** *** recalculateGradients *)

Definition recalculateGradients
    (width height : Z) (chladniParams : ChladniParams) (rng : nat)
  : Float32Array * Float32Array * nat :=
  let '(vib, rng) := computeVibrationValues width height chladniParams rng in
  let '(gradients, rng) := computeGradients width height vib rng in
  (vib, gradients, rng).

End Kernel.

(** ** Messages *)

(** A field message, worker to application.  Both buffers are transferred
    with the message. *)
Record FieldMessage : Type := mkFieldMessage {
  msg_vibrationIntensity : Q;
  msg_vibrationValues : option Float32Array;
  msg_gradients : option Float32Array
}.

(** Interval timers of the worker context: the handles that are armed, and
    the next handle [setInterval] returns (handles are positive, hence
    truthy). *)
Record timers : Type := mkTimers {
  armed : list nat;
  nextHandle : nat
}.

Definition setInterval (t : timers) : nat * timers :=
  (nextHandle t, mkTimers (armed t ++ [nextHandle t]) (S (nextHandle t))).

Definition clearInterval (t : timers) (h : nat) : timers :=
  mkTimers (filter (fun k => negb (Nat.eqb k h)) (armed t)) (nextHandle t).

Definition noTimers : timers := mkTimers [] 1%nat.

(** A typed array whose buffer has been transferred is detached: its
    length is zero. *)
Definition detached : Float32Array := [].

(** ** The gradient worker of index.js

    Reconfiguration messages carry [width], [height] and [chladniParams];
    rounds alternate on a timer. *)
Module Worker.

Record ConfigMessage : Type := mkConfigMessage {
  msg_width : option Z;
  msg_height : option Z;
  msg_chladniParams : option ChladniParams
}.

Record GradientWorker : Type := mkGradientWorker {
  vibrationValues : option Float32Array;
  gradients : option Float32Array;
  width : option Z;
  height : option Z;
  bakingTimer : option nat;
  isResonantRound : bool;
  currentParams : ChladniParams
}.

(** The worker object together with the rest of its execution context:
    the random source, the interval timers and the messages posted to the
    main thread so far, oldest first. *)
Record context : Type := mkContext {
  this : GradientWorker;
  rng : nat;
  intervals : timers;
  posted : list FieldMessage
}.

Definition constructor : context :=
  mkContext
    (mkGradientWorker None None None None None true
                      (mkChladniParams 1 2 (lit (4 # 100))))
    0%nat noTimers [].

Section Methods.

Variable Math_cos : Q -> Q.
Variable random : nat -> Q.

Definition bakeNextGradients (c : context) : context :=
  let w := this c in
  let c1 :=
    if isResonantRound w then
      let '(vib, grad, rng1) :=
        recalculateGradients Math_cos random
          (dim (width w)) (dim (height w)) (currentParams w) (rng c) in
      let message :=
        mkFieldMessage MODERATE_RANDOM_VIBRATION_INTENSITY
                       (Some vib) (Some grad) in
      mkContext
        (mkGradientWorker (Some detached) (Some detached)
           (width w) (height w) (bakingTimer w)
           (isResonantRound w) (currentParams w))
        rng1 (intervals c) (posted c ++ [message])
    else
      let message :=
        mkFieldMessage AGGRESSIVE_RANDOM_VIBRATION_INTENSITY None None in
      mkContext w (rng c) (intervals c) (posted c ++ [message]) in
  let w1 := this c1 in
  mkContext
    (mkGradientWorker (vibrationValues w1) (gradients w1)
       (width w1) (height w1) (bakingTimer w1)
       (negb (isResonantRound w1)) (currentParams w1))
    (rng c1) (intervals c1) (posted c1).

Definition receiveUpdateFromMainThread
    (c : context) (message : ConfigMessage) : context :=
  let w := this c in
  let width1 := msg_width message in
  let height1 := msg_height message in
  let params1 :=
    match msg_chladniParams message with
    | Some p => mkChladniParams (m p) (n p) (l p)
    | None => currentParams w
    end in
  let intervals1 :=
    match bakingTimer w with
    | Some h => clearInterval (intervals c) h
    | None => intervals c
    end in
  let c1 :=
    mkContext
      (mkGradientWorker (vibrationValues w) (gradients w)
         width1 height1 (bakingTimer w) true params1)
      (rng c) intervals1 (posted c) in
  let c2 := bakeNextGradients c1 in
  let '(h, intervals2) := setInterval (intervals c2) in
  let w2 := this c2 in
  mkContext
    (mkGradientWorker (vibrationValues w2) (gradients w2)
       (width w2) (height w2) (Some h)
       (isResonantRound w2) (currentParams w2))
    (rng c2) intervals2 (posted c2).

(** The interval timer with handle [h] fires: its callback runs if the
    timer is still armed. *)
Definition timerFires (c : context) (h : nat) : context :=
  if existsb (Nat.eqb h) (armed (intervals c))
  then bakeNextGradients c
  else c.

End Methods.

End Worker.

(** ** The gradient worker with a frequency control

    Reconfiguration messages carry [width], [height] and [frequency]; every
    bake takes the next record of the shared table [CHLADNI_PARAMS] and
    writes the current frequency into it. *)
Module FrequencyWorker.

Definition L1 : Q := lit (4 # 100).
Definition L2 : Q := lit (2 # 100).
Definition L3 : Q := lit (18 # 1000).

Definition CHLADNI_PARAMS : list ChladniParams :=
  [ mkChladniParams 1 2 L1;
    mkChladniParams 1 3 L3;
    mkChladniParams 1 4 L2;
    mkChladniParams 1 5 L2;
    mkChladniParams 2 3 L2;
    mkChladniParams 2 5 L2;
    mkChladniParams 3 4 L2;
    mkChladniParams 3 5 L2;
    mkChladniParams 3 7 L2 ].

Record ConfigMessage : Type := mkConfigMessage {
  msg_width : option Z;
  msg_height : option Z;
  msg_frequency : option Q
}.

Record GradientWorker : Type := mkGradientWorker {
  vibrationValues : option Float32Array;
  gradients : option Float32Array;
  width : option Z;
  height : option Z;
  gradientParametersIndex : Z;
  bakingTimer : option nat;
  isResonantRound : bool;
  currentFrequency : Q
}.

(** [table] is the content of the module-level array [CHLADNI_PARAMS]:
    its records are shared by all bakes. *)
Record context : Type := mkContext {
  this : GradientWorker;
  table : list ChladniParams;
  rng : nat;
  intervals : timers;
  posted : list FieldMessage
}.

Definition constructor : context :=
  mkContext
    (mkGradientWorker None None None None 0 None true L1)
    CHLADNI_PARAMS 0%nat noTimers [].

(** [record.l = v] *)
Definition set_l (p : ChladniParams) (v : Q) : ChladniParams :=
  mkChladniParams (m p) (n p) v.

Section Methods.

Variable Math_cos : Q -> Q.
Variable random : nat -> Q.

(** Within the resonant branch the index always lies inside the table
    (lemma [index_in_table]); a lookup that misses would be a
    [TypeError], shown here as a round that does nothing. *)
Definition bakeNextGradients (c : context) : context :=
  let w := this c in
  let c1 :=
    if isResonantRound w then
      match ta_lookup (table c) (gradientParametersIndex w) with
      | None => c
      | Some chladniParams0 =>
          let chladniParams := set_l chladniParams0 (currentFrequency w) in
          let table1 :=
            ta_store (table c) (gradientParametersIndex w) chladniParams in
          let '(vib, grad, rng1) :=
            recalculateGradients Math_cos random
              (dim (width w)) (dim (height w)) chladniParams (rng c) in
          let index1 :=
            Z.rem (gradientParametersIndex w + 1)
                  (Z.of_nat (length table1)) in
          let message :=
            mkFieldMessage MODERATE_RANDOM_VIBRATION_INTENSITY
                           (Some vib) (Some grad) in
          mkContext
            (mkGradientWorker (Some detached) (Some detached)
               (width w) (height w) index1 (bakingTimer w)
               (isResonantRound w) (currentFrequency w))
            table1 rng1 (intervals c) (posted c ++ [message])
      end
    else
      let message :=
        mkFieldMessage AGGRESSIVE_RANDOM_VIBRATION_INTENSITY None None in
      mkContext w (table c) (rng c) (intervals c)
                (posted c ++ [message]) in
  let w1 := this c1 in
  mkContext
    (mkGradientWorker (vibrationValues w1) (gradients w1)
       (width w1) (height w1) (gradientParametersIndex w1)
       (bakingTimer w1) (negb (isResonantRound w1))
       (currentFrequency w1))
    (table c1) (rng c1) (intervals c1) (posted c1).

Definition receiveUpdateFromMainThread
    (c : context) (message : ConfigMessage) : context :=
  let w := this c in
  let width1 :=
    match msg_width message with Some v => Some v | None => width w end in
  let height1 :=
    match msg_height message with
    | Some v => Some v
    | None => height w
    end in
  let frequency1 :=
    match msg_frequency message with
    | Some f => f
    | None => currentFrequency w
    end in
  let intervals1 :=
    match bakingTimer w with
    | Some h => clearInterval (intervals c) h
    | None => intervals c
    end in
  let c1 :=
    mkContext
      (mkGradientWorker (vibrationValues w) (gradients w)
         width1 height1 (gradientParametersIndex w) (bakingTimer w)
         true frequency1)
      (table c) (rng c) intervals1 (posted c) in
  let c2 := bakeNextGradients c1 in
  let '(h, intervals2) := setInterval (intervals c2) in
  let w2 := this c2 in
  mkContext
    (mkGradientWorker (vibrationValues w2) (gradients w2)
       (width w2) (height w2) (gradientParametersIndex w2) (Some h)
       (isResonantRound w2) (currentFrequency w2))
    (table c2) (rng c2) intervals2 (posted c2).

Definition timerFires (c : context) (h : nat) : context :=
  if existsb (Nat.eqb h) (armed (intervals c))
  then bakeNextGradients c
  else c.

End Methods.

End FrequencyWorker.

(** ** The foreground application *)
Module App.

Definition NUM_PARTICLES : Z := 30000.
Definition DEFAULT_RANDOM_VIBRATION_INTENSITY : Q := 2.
Definition MAX_GRADIENT_INTENSITY : Q := lit (4 # 10).
Definition DEBUG_VIBRATION_LEVELS : bool := false.

(** A store into a [Uint32Array] keeps the value modulo [2^32];
    [undefined] is stored as [0]. *)
Definition ToUint32 (c : option Z) : Z := default 0 c mod 2 ^ 32.

Record ChladniApp : Type := mkChladniApp {
  buffer : Uint32Array;
  vibrationValues : option Float32Array;
  gradients : option Float32Array;
  vibrationIntensity : Q;
  halfVibrationIntensity : Q;
  debugVibration : bool;
  isRunning : bool;
  width : Z;
  height : Z;
  particles : Float32Array;
  nonResonantColor : Z;
  colorIndex : Z;
  colors : list Z;
  selectedColor : option Z;
  backgroundColor : Z;
  fpsCount : Z
}.

(** [onMessageFromWorker].  The remainder [%] by the palette length is
    [Z.rem]; for an empty palette JavaScript yields [NaN], which this
    integer field does not represent.  Half of a double is a double
    unless it is subnormal, which no intensity of the program is: the
    division by two is written without rounding. *)
Definition onMessageFromWorker (a : ChladniApp) (message : FieldMessage)
  : ChladniApp :=
  let vibrationIntensity1 := msg_vibrationIntensity message in
  let halfVibrationIntensity1 := (vibrationIntensity1 / 2)%Q in
  let vibrationValues1 := msg_vibrationValues message in
  let gradients1 := msg_gradients message in
  let '(colorIndex1, selectedColor1) :=
    match gradients1 with
    | Some _ =>
        let ci := Z.rem (colorIndex a + 1) (Z.of_nat (length (colors a))) in
        (ci, ta_lookup (colors a) ci)
    | None => (colorIndex a, selectedColor a)
    end in
  mkChladniApp (buffer a) vibrationValues1 gradients1
    vibrationIntensity1 halfVibrationIntensity1
    (debugVibration a) (isRunning a) (width a) (height a) (particles a)
    (nonResonantColor a) colorIndex1 (colors a) selectedColor1
    (backgroundColor a) (fpsCount a).

(** [obtainGradientAt], for a non-null gradients array.  An index that is
    [NaN] or outside the array reads [undefined]. *)
Definition obtainGradientAt (gradients : Float32Array) (width : Z)
    (x y : number) : number * number :=
  match Math_round x, Math_round y with
  | Some x, Some y =>
      let index := (y * width + x) * 2 in
      (ta_read gradients index, ta_read gradients (index + 1))
  | _, _ => (NaN, NaN)
  end.

(** The index expression [Math.round(y) * this.width + Math.round(x)];
    [None] stands for [NaN]. *)
Definition rasterIndex (width : Z) (x y : number) : option Z :=
  match Math_round y, Math_round x with
  | Some ry, Some rx => Some (ry * width + rx)
  | _, _ => None
  end.

(** [buffer[index] = color] *)
Definition raster (buffer : Uint32Array) (index : option Z)
    (color : option Z) : Uint32Array :=
  match index with
  | Some i => ta_store buffer i (ToUint32 color)
  | None => buffer
  end.

(** The state of the particle loop of [update]: particles, frame buffer,
    random counter. *)
Abbreviation frame := (Float32Array * Uint32Array * nat)%type.

Section Methods.

Variable random : nat -> Q.
Variable rgbToVal : number -> number -> number -> Z.

(** The per-axis jitter [Math.random() * vibrationIntensity -
    halfVibrationIntensity]. *)
Definition jitter (a : ChladniApp) (r : Q) : Q :=
  fl_sub (fl_mul r (vibrationIntensity a)) (halfVibrationIntensity a).

(** The position of the particle at index [i] after the gradient pull
    and the jitter, and the random counter after it. *)
Definition advance (a : ChladniApp) (particles : Float32Array)
    (rng : nat) (i : Z) : number * number * nat :=
  let x := ta_read particles i in
  let y := ta_read particles (i + 1) in
  let '(x, y) :=
    match gradients a with
    | Some g =>
        let '(gradX, gradY) := obtainGradientAt g (width a) x y in
        (num_add x (num_mul (Num MAX_GRADIENT_INTENSITY) gradX),
         num_add y (num_mul (Num MAX_GRADIENT_INTENSITY) gradY))
    | None => (x, y)
    end in
  let x := num_add x (Num (jitter a (random rng))) in
  let y := num_add y (Num (jitter a (random (S rng)))) in
  (x, y, S (S rng)).

(** The body of the particle loop of [update]: the array takes the
    position rounded to single precision, the raster index is computed from
    the local variables [x] and [y], which are doubles. *)
Definition particleStep (a : ChladniApp) (color : option Z)
    (st : frame) (i : Z) : frame :=
  let '(particles, buffer, rng) := st in
  let '(x, y, rng) := advance a particles rng i in
  let particles := Float32Array_set particles i x in
  let particles := Float32Array_set particles (i + 1) y in
  let buffer := raster buffer (rasterIndex (width a) x y) color in
  (particles, buffer, rng).

(** The indices [0, 2, 4, ...] below [len]. *)
Definition particleIndices (len : Z) : list Z :=
  map (fun k => 2 * k) (zrange 0 ((len + 1) / 2)).

(** The frame buffer after the fill that starts a frame. *)
Definition fillBuffer (a : ChladniApp) : Uint32Array :=
  match debugVibration a, vibrationValues a with
  | true, Some vib =>
      let MAX_LUMINOSITY := 64%Q in
      fold_left (fun buffer i =>
        let intensity := num_mul (ta_read vib i) (Num MAX_LUMINOSITY) in
        ta_store buffer i
          (ToUint32 (Some (rgbToVal intensity intensity intensity))))
        (zrange 0 (Z.of_nat (length vib))) (buffer a)
  | _, _ =>
      replicate (length (buffer a)) (ToUint32 (Some (backgroundColor a)))
  end.

Definition update (a : ChladniApp) (rng : nat) : ChladniApp * nat :=
  if negb (isRunning a) then
    (mkChladniApp (buffer a) (vibrationValues a) (gradients a)
       (vibrationIntensity a) (halfVibrationIntensity a)
       (debugVibration a) (isRunning a) (width a) (height a)
       (particles a) (nonResonantColor a) (colorIndex a) (colors a)
       (selectedColor a) (backgroundColor a) (fpsCount a + 1),
     rng)
  else
    let buffer0 := fillBuffer a in
    let color :=
      match gradients a with
      | Some _ => selectedColor a
      | None => Some (nonResonantColor a)
      end in
    let '(particles1, buffer1, rng1) :=
      fold_left (particleStep a color)
        (particleIndices (Z.of_nat (length (particles a))))
        (particles a, buffer0, rng) in
    (mkChladniApp buffer1 (vibrationValues a) (gradients a)
       (vibrationIntensity a) (halfVibrationIntensity a)
       (debugVibration a) (isRunning a) (width a) (height a)
       particles1 (nonResonantColor a) (colorIndex a) (colors a)
       (selectedColor a) (backgroundColor a) (fpsCount a + 1),
     rng1).

End Methods.

End App.

(** * Further parts of the program *)

(** The result of a method that can raise an exception: the state it
    returns, or the state reached when the exception was raised. *)
Inductive outcome (A : Type) : Type :=
| Returned (a : A)
| Thrown (a : A).
Arguments Returned {A} a.
Arguments Thrown {A} a.

(** [a >= b] on numbers. *)
Definition num_ge (a b : number) : bool :=
  match a, b with
  | Num x, Num y => Qle_bool y x
  | _, _ => false
  end.

(** The quotient of a window side by [CANVAS_SCALE] is an integer or lies
    a third away from the integers, so for a side below [2^50] rounding the
    division to a double does not change its ceiling (lemma
    [ceil_quotient]): [resize] is written with the exact quotient. *)
Definition CANVAS_SCALE : Q := 15 # 10.

(** [Math.ceil] *)
Definition Math_ceil (q : Q) : Z := Qceiling q.

(** ** The unscheduled gradient worker

    The first worker of the sources: it answers every message with one
    bake and has no timer. *)
Module SimpleWorker.

Record ConfigMessage : Type := mkConfigMessage {
  msg_width : option Z;
  msg_height : option Z;
  msg_chladniParams : option ChladniParams
}.

Record GradientWorker : Type := mkGradientWorker {
  vibrationValues : option Float32Array;
  gradients : option Float32Array;
  width : option Z;
  height : option Z;
  currentParams : ChladniParams
}.

Record context : Type := mkContext {
  this : GradientWorker;
  rng : nat;
  posted : list FieldMessage
}.

Definition constructor : context :=
  mkContext
    (mkGradientWorker None None (Some 0) (Some 0)
                      (mkChladniParams 1 2 (lit (4 # 100))))
    0%nat [].

Section Methods.

Variable Math_cos : Q -> Q.
Variable random : nat -> Q.

Definition receiveUpdateFromMainThread
    (c : context) (message : ConfigMessage) : context :=
  let w := this c in
  let width1 := msg_width message in
  let height1 := msg_height message in
  let params1 :=
    match msg_chladniParams message with
    | Some p => mkChladniParams (m p) (n p) (l p)
    | None => currentParams w
    end in
  let '(vib, grad, rng1) :=
    recalculateGradients Math_cos random
      (dim width1) (dim height1) params1 (rng c) in
  let message1 :=
    mkFieldMessage MODERATE_RANDOM_VIBRATION_INTENSITY
                   (Some vib) (Some grad) in
  mkContext
    (mkGradientWorker (Some detached) (Some detached)
       width1 height1 params1)
    rng1 (posted c ++ [message1]).

End Methods.

End SimpleWorker.

(** ** Keyboard and sweep of the application *)
Module Controls.

(** [keypress], on the [key] of the event. *)
Definition keypress (a : App.ChladniApp) (key : string) : App.ChladniApp :=
  if String.eqb key "d" then
    App.mkChladniApp (App.buffer a) (App.vibrationValues a) (App.gradients a)
      (App.vibrationIntensity a) (App.halfVibrationIntensity a)
      (negb (App.debugVibration a)) (App.isRunning a)
      (App.width a) (App.height a) (App.particles a)
      (App.nonResonantColor a) (App.colorIndex a) (App.colors a)
      (App.selectedColor a) (App.backgroundColor a) (App.fpsCount a)
  else if String.eqb key " " then
    App.mkChladniApp (App.buffer a) (App.vibrationValues a) (App.gradients a)
      (App.vibrationIntensity a) (App.halfVibrationIntensity a)
      (App.debugVibration a) (negb (App.isRunning a))
      (App.width a) (App.height a) (App.particles a)
      (App.nonResonantColor a) (App.colorIndex a) (App.colors a)
      (App.selectedColor a) (App.backgroundColor a) (App.fpsCount a)
  else a.

(** [checkForFallenParticles] of the application with the frequency
    control (in index.js the method is empty). *)
Definition SLACK : Q := 100.

Definition didFall (a : App.ChladniApp) (x y : number) : bool :=
  num_lt x (Num (- SLACK))
  || num_ge x (Num (inject_Z (App.width a) + SLACK))
  || num_lt y (Num (- SLACK))
  || num_ge y (Num (inject_Z (App.height a) + SLACK)).

Section Methods.

Variable random : nat -> Q.

(** The body of the loop: particles and random counter after index [i]. *)
Definition sweepStep (a : App.ChladniApp)
    (st : Float32Array * nat) (i : Z) : Float32Array * nat :=
  let '(particles, rng) := st in
  let x := ta_read particles i in
  let y := ta_read particles (i + 1) in
  if didFall a x y then
    let particles :=
      Float32Array_set particles i
        (Num (fl_mul (random rng) (inject_Z (App.width a)))) in
    let particles :=
      Float32Array_set particles (i + 1)
        (Num (fl_mul (random (S rng)) (inject_Z (App.height a)))) in
    (particles, S (S rng))
  else (particles, rng).

Definition checkForFallenParticles (a : App.ChladniApp) (rng : nat)
  : App.ChladniApp * nat :=
  let '(particles1, rng1) :=
    fold_left (sweepStep a)
      (App.particleIndices (Z.of_nat (length (App.particles a))))
      (App.particles a, rng) in
  (App.mkChladniApp (App.buffer a) (App.vibrationValues a) (App.gradients a)
     (App.vibrationIntensity a) (App.halfVibrationIntensity a)
     (App.debugVibration a) (App.isRunning a) (App.width a) (App.height a)
     particles1 (App.nonResonantColor a) (App.colorIndex a) (App.colors a)
     (App.selectedColor a) (App.backgroundColor a) (App.fpsCount a),
   rng1).

(** The loop that ends [resize]: every particle gets a fresh random
    position. *)
Definition scatterStep (width height : Z)
    (st : Float32Array * nat) (i : Z) : Float32Array * nat :=
  let '(particles, rng) := st in
  let particles :=
    Float32Array_set particles i (Num (fl_mul (random rng) (inject_Z width))) in
  let particles :=
    Float32Array_set particles (i + 1)
      (Num (fl_mul (random (S rng)) (inject_Z height))) in
  (particles, S (S rng)).

Definition scatter (width height : Z) (particles : Float32Array) (rng : nat)
  : Float32Array * nat :=
  fold_left (scatterStep width height)
    (App.particleIndices (Z.of_nat (length particles)))
    (particles, rng).

(** The part of [resize] that both applications share once the message to
    the worker is posted: [getImageData] raises an [IndexSizeError] for an
    empty canvas; otherwise the buffer is a fresh view of the cleared
    canvas and the particles are scattered. *)
Definition rebuild (a : App.ChladniApp) (width height : Z) (rng : nat)
  : outcome (App.ChladniApp * nat) :=
  let a1 :=
    App.mkChladniApp (App.buffer a) (App.vibrationValues a) (App.gradients a)
      (App.vibrationIntensity a) (App.halfVibrationIntensity a)
      (App.debugVibration a) (App.isRunning a) width height
      (App.particles a) (App.nonResonantColor a) (App.colorIndex a)
      (App.colors a) (App.selectedColor a) (App.backgroundColor a)
      (App.fpsCount a) in
  if (width =? 0) || (height =? 0) then Thrown (a1, rng)
  else
    let buffer := replicate (Z.to_nat (width * height)) 0 in
    let '(particles1, rng1) := scatter width height (App.particles a) rng in
    Returned
      (App.mkChladniApp buffer (App.vibrationValues a) (App.gradients a)
         (App.vibrationIntensity a) (App.halfVibrationIntensity a)
         (App.debugVibration a) (App.isRunning a) width height
         particles1 (App.nonResonantColor a) (App.colorIndex a)
         (App.colors a) (App.selectedColor a) (App.backgroundColor a)
         (App.fpsCount a),
       rng1).

End Methods.

End Controls.

(** ** The application with the frequency control *)
Module FrequencyPage.

Record ChladniPage : Type := mkChladniPage {
  app : App.ChladniApp;
  currentFrequency : Q;
  sent : list FrequencyWorker.ConfigMessage
}.

Section Methods.

Variable random : nat -> Q.
Variable rgbToVal : number -> number -> number -> Z.

(** [resize], for the [window.innerWidth] and [window.innerHeight] of the
    moment. *)
Definition resize (innerWidth innerHeight : nat) (p : ChladniPage)
    (rng : nat) : outcome (ChladniPage * nat) :=
  let width := Math_ceil (inject_Z (Z.of_nat innerWidth) / CANVAS_SCALE) in
  let height := Math_ceil (inject_Z (Z.of_nat innerHeight) / CANVAS_SCALE) in
  let sent1 :=
    sent p ++ [FrequencyWorker.mkConfigMessage
                 (Some width) (Some height) (Some (currentFrequency p))] in
  match Controls.rebuild random (app p) width height rng with
  | Returned (a1, rng1) =>
      Returned (mkChladniPage a1 (currentFrequency p) sent1, rng1)
  | Thrown (a1, rng1) =>
      Thrown (mkChladniPage a1 (currentFrequency p) sent1, rng1)
  end.

(** The [input] listener of the slider, on the parsed value. *)
Definition onFrequencyInput (p : ChladniPage) (value : Q) : ChladniPage :=
  mkChladniPage (app p) value
    (sent p ++ [FrequencyWorker.mkConfigMessage
                  (Some (App.width (app p))) (Some (App.height (app p)))
                  (Some value)]).

(** [constructor], for the colours read from the style sheet.  The
    buffer is [null] until [resize] creates it, shown as the empty array;
    [width] and [height] first hold the unrounded quotients, which the
    first two statements of [resize] replace before anything reads them, so
    the record starts from the rounded values.  The constructor draws the
    first frame itself; the timers, the listeners and the slider elements it
    creates afterwards do not change the state. *)
Definition constructor (innerWidth innerHeight : nat)
    (nonResonantColor : Z) (colors : list Z) (backgroundColor : Z)
    (rng : nat) : outcome (ChladniPage * nat) :=
  let a0 :=
    App.mkChladniApp [] None None
      App.DEFAULT_RANDOM_VIBRATION_INTENSITY
      (App.DEFAULT_RANDOM_VIBRATION_INTENSITY / 2)%Q
      App.DEBUG_VIBRATION_LEVELS true
      (Math_ceil (inject_Z (Z.of_nat innerWidth) / CANVAS_SCALE))
      (Math_ceil (inject_Z (Z.of_nat innerHeight) / CANVAS_SCALE))
      (newFloat32Array (App.NUM_PARTICLES * 2))
      nonResonantColor 0 colors (ta_lookup colors 0) backgroundColor 0 in
  let p0 := mkChladniPage a0 (lit (4 # 100)) [] in
  match resize innerWidth innerHeight p0 rng with
  | Thrown s => Thrown s
  | Returned (p1, rng1) =>
      let '(a2, rng2) := App.update random rgbToVal (app p1) rng1 in
      Returned (mkChladniPage a2 (currentFrequency p1) (sent p1), rng2)
  end.

End Methods.

End FrequencyPage.

(** ** The application of index.js around its slider *)
Module ParamsPage.

Definition CHLADNI_PARAMS : list ChladniParams :=
  [ mkChladniParams 1 2 (lit (4 # 100));
    mkChladniParams 1 3 (lit (18 # 1000));
    mkChladniParams 1 4 (lit (2 # 100));
    mkChladniParams 1 5 (lit (2 # 100));
    mkChladniParams 2 3 (lit (2 # 100));
    mkChladniParams 2 5 (lit (2 # 100));
    mkChladniParams 3 4 (lit (2 # 100));
    mkChladniParams 3 5 (lit (2 # 100));
    mkChladniParams 3 7 (lit (2 # 100)) ].

(** [freqSlider] is [None] while the property is still undefined, and the
    integer its value parses to afterwards. *)
Record ChladniPage : Type := mkChladniPage {
  app : App.ChladniApp;
  freqSlider : option Z;
  sent : list Worker.ConfigMessage
}.

(** [sendParamsToWorker]: reading [params.m] of a missing table entry
    raises a [TypeError]. *)
Definition sendParamsToWorker (p : ChladniPage) (index : Z)
  : outcome ChladniPage :=
  match ta_lookup CHLADNI_PARAMS index with
  | None => Thrown p
  | Some params =>
      Returned
        (mkChladniPage (app p) (freqSlider p)
           (sent p ++ [Worker.mkConfigMessage
                         (Some (App.width (app p)))
                         (Some (App.height (app p)))
                         (Some (mkChladniParams (m params) (n params)
                                                (l params)))]))
  end.

Definition withDimensions (a : App.ChladniApp) (width height : Z)
  : App.ChladniApp :=
  App.mkChladniApp (App.buffer a) (App.vibrationValues a) (App.gradients a)
    (App.vibrationIntensity a) (App.halfVibrationIntensity a)
    (App.debugVibration a) (App.isRunning a) width height
    (App.particles a) (App.nonResonantColor a) (App.colorIndex a)
    (App.colors a) (App.selectedColor a) (App.backgroundColor a)
    (App.fpsCount a).

Section Methods.

Variable random : nat -> Q.
Variable rgbToVal : number -> number -> number -> Z.

(** [resize]: reading [this.freqSlider.value] raises a [TypeError] while
    [freqSlider] is undefined. *)
Definition resize (innerWidth innerHeight : nat) (p : ChladniPage)
    (rng : nat) : outcome (ChladniPage * nat) :=
  let width := Math_ceil (inject_Z (Z.of_nat innerWidth) / CANVAS_SCALE) in
  let height := Math_ceil (inject_Z (Z.of_nat innerHeight) / CANVAS_SCALE) in
  let p1 :=
    mkChladniPage (withDimensions (app p) width height)
                  (freqSlider p) (sent p) in
  match freqSlider p1 with
  | None => Thrown (p1, rng)
  | Some currentIndex =>
      match sendParamsToWorker p1 currentIndex with
      | Thrown p2 => Thrown (p2, rng)
      | Returned p2 =>
          match Controls.rebuild random (app p2) width height rng with
          | Returned (a1, rng1) =>
              Returned (mkChladniPage a1 (freqSlider p2) (sent p2), rng1)
          | Thrown (a1, rng1) =>
              Thrown (mkChladniPage a1 (freqSlider p2) (sent p2), rng1)
          end
      end
  end.

(** [constructor], for the colours read from the style sheet; the record
    starts as in the application with the frequency control.  [resize] is
    called before [freqSlider] is assigned; after it come the first frame,
    the slider with value [0] and the first parameters for the worker. *)
Definition constructor (innerWidth innerHeight : nat)
    (nonResonantColor : Z) (colors : list Z) (backgroundColor : Z)
    (rng : nat) : outcome (ChladniPage * nat) :=
  let a0 :=
    App.mkChladniApp [] None None
      App.DEFAULT_RANDOM_VIBRATION_INTENSITY
      (App.DEFAULT_RANDOM_VIBRATION_INTENSITY / 2)%Q
      App.DEBUG_VIBRATION_LEVELS true
      (Math_ceil (inject_Z (Z.of_nat innerWidth) / CANVAS_SCALE))
      (Math_ceil (inject_Z (Z.of_nat innerHeight) / CANVAS_SCALE))
      (newFloat32Array (App.NUM_PARTICLES * 2))
      nonResonantColor 0 colors (ta_lookup colors 0) backgroundColor 0 in
  let p0 := mkChladniPage a0 None [] in
  match resize innerWidth innerHeight p0 rng with
  | Thrown s => Thrown s
  | Returned (p1, rng1) =>
      let '(a2, rng2) := App.update random rgbToVal (app p1) rng1 in
      let p2 := mkChladniPage a2 (Some 0) (sent p1) in
      match sendParamsToWorker p2 0 with
      | Returned p3 => Returned (p3, rng2)
      | Thrown p3 => Thrown (p3, rng2)
      end
  end.

End Methods.

End ParamsPage.

(** * Vocabulary of the properties *)

(** ** Fields and cells *)

(** The greatest double below [1], and the range of [Math.random()],
    whose values are doubles of [[0, 1)]. *)
Definition belowOne : Q := 1 - pow2 (-53).

Definition randomValue (r : Q) : Prop := (0 <= r <= belowOne)%Q.

(** The coordinate a scattered particle gets along a side of [side]
    pixels: [Math.random() * side], stored in single precision. *)
Definition freshCoordinate (r : Q) (side : Z) : Q :=
  Math_fround (fl_mul r (inject_Z side)).

(** The values a JavaScript number can hold. *)
Definition isDouble (q : Q) : Prop := (rnd q == q)%Q.

Definition num_le (a b : number) : bool :=
  match a, b with
  | Num x, Num y => Qle_bool x y
  | _, _ => false
  end.

Definition finiteValue (a : number) : Q :=
  match a with
  | Num q => q
  | NaN => 0%Q
  end.

(** [VibrationField[x,y]] and [GradientField[x,y]] as they are laid out in
    the two buffers. *)
Definition vibrationAt (vib : Float32Array) (width x y : Z) : number :=
  ta_read vib (y * width + x).

Definition gradientAt (g : Float32Array) (width x y : Z) : number * number :=
  (ta_read g ((y * width + x) * 2), ta_read g ((y * width + x) * 2 + 1)).

(** An offset as the pair of numbers stored for it. *)
Definition offsetOf (c : Z * Z) : number * number :=
  (Num (inject_Z (fst c)), Num (inject_Z (snd c))).

(** The eight neighbour offsets, in the order the scan visits them. *)
Definition neighbours : list (Z * Z) :=
  [(-1, -1); (0, -1); (1, -1); (-1, 0); (1, 0); (-1, 1); (0, 1); (1, 1)].

Definition neighbourValue (vib : Float32Array) (width x y : Z) (o : Z * Z)
  : number :=
  vibrationAt vib width (x + fst o) (y + snd o).

Definition neighbourFinite (vib : Float32Array) (width x y : Z) (o : Z * Z)
  : Q :=
  finiteValue (neighbourValue vib width x y o).

(** A buffer all of whose entries are numbers. *)
Definition finiteNumber (v : number) : Prop := exists q, v = Num q.

Definition finiteBuffer (vib : Float32Array) : Prop := Forall finiteNumber vib.

(** [o] is a neighbour offset of [(x, y)] whose vibration value is the
    minimum over the eight neighbours. *)
Definition lowest (vib : Float32Array) (width x y : Z) (o : Z * Z) : Prop :=
  In o neighbours /\
  forall o', In o' neighbours ->
    num_le (neighbourValue vib width x y o)
           (neighbourValue vib width x y o') = true.

(** The cells [(x, y)] with [lo <= x < wHi] and [lo <= y < hHi], row by
    row. *)
Definition cellsFrom (lo wHi hHi : Z) : list (Z * Z) :=
  flat_map (fun y => map (fun x => (x, y)) (zrange lo wHi)) (zrange lo hHi).

(** ** The neighbour scan *)

Definition scanStart : scan := mkScan POSITIVE_INFINITY [(0, 0)].

Definition scanStep (vib : Float32Array) (width x y : Z)
    (st : scan) (o : Z * Z) : scan :=
  examine vib width x y st (fst o) (snd o).

(** What the scan holds after the offsets [pre]: the least value seen and
    the offsets that carry it, in scan order. *)
Definition scanned (vib : Float32Array) (width x y : Z)
    (pre : list (Z * Z)) (st : scan) : Prop :=
  match pre with
  | [] => st = scanStart
  | _ => exists mn : Q,
      minVibrationSoFar st = Finite mn /\
      candidateGradients st =
        List.filter (fun o => Qle_bool (neighbourFinite vib width x y o) mn)
                    pre /\
      (forall o, In o pre -> (mn <= neighbourFinite vib width x y o)%Q) /\
      (exists o, In o pre /\ (neighbourFinite vib width x y o == mn)%Q)
  end.

(** Every offset in [pre] is a neighbour offset that reads a finite value. *)
Definition wellRead (vib : Float32Array) (width x y : Z)
    (pre : list (Z * Z)) : Prop :=
  forall o, In o pre ->
    In o neighbours /\ exists v, neighbourValue vib width x y o = Num v.

(** The double nearest to the middle of the [k]-th of [len] equal parts
    of [[0, 1)]. *)
Definition midRandom (len k : nat) : Q :=
  rnd ((2 * inject_Z (Z.of_nat k) + 1) / (2 * inject_Z (Z.of_nat len))).

(** The candidate picked for the random value [r]. *)
Definition choiceOf (cands : list (Z * Z)) (r : Q) : Z * Z :=
  if Z.of_nat (length cands) =? 1
  then default (0, 0) (ta_lookup cands 0)
  else default (0, 0) (ta_lookup cands (pick_index (length cands) r)).

(** The direction the gradient pass stores for cell [(x, y)] when its
    random value, if it draws one, is [r]. *)
Definition cellChoice (vib : Float32Array) (width x y : Z) (r : Q) : Z * Z :=
  if num_lt (vibrationAt vib width x y) (Num MIN_NODE_THRESHOLD)
  then (0, 0)
  else choiceOf (candidateGradients (scanNeighbours vib width x y)) r.

Definition cellStep (random : nat -> Q) (vib : Float32Array) (width : Z)
    (st : Float32Array * nat) (c : Z * Z) : Float32Array * nat :=
  gradientCell random vib width st (fst c) (snd c).

Definition gradInv (width height : Z) (rng0 : nat)
    (st : Float32Array * nat) : Prop :=
  length (fst st) = Z.to_nat (width * height * 2) /\ (rng0 <= snd st)%nat.

(** ** One bake *)

(** The phase offsets of the bake that starts at random counter [rng]. *)
Definition phaseX (random : nat -> Q) (height : Z) (rng : nat) : Q :=
  fl_mul (random rng) (inject_Z height).

Definition phaseY (random : nat -> Q) (height : Z) (rng : nat) : Q :=
  fl_mul (random (S rng)) (inject_Z height).

Definition vibStep (Math_cos : Q -> Q) (random : nat -> Q) (width height : Z)
    (p : ChladniParams) (rng : nat) (vib : Float32Array) (c : Z * Z)
  : Float32Array :=
  Float32Array_set vib (snd c * width + fst c)
    (Num (vibrationValue Math_cos p
            (phaseX random height rng) (phaseY random height rng)
            (fst c) (snd c))).

(** The interference formula of the design document,
    [|cos(n sx) cos(m sy) - cos(m sx) cos(n sy)| / 2]. *)
Definition chladniFormula (cos : Q -> Q) (m n l px py : Q) (x y : Z) : Q :=
  let sx := (inject_Z x * l + px)%Q in
  let sy := (inject_Z y * l + py)%Q in
  let raw := (cos (n * sx) * cos (m * sy) - cos (m * sx) * cos (n * sy))%Q in
  (Qabs raw / 2)%Q.

(** The same formula as JavaScript evaluates it: every operation rounded
    to the nearest double. *)
Definition chladniDouble (cos : Q -> Q) (m n l px py : Q) (x y : Z) : Q :=
  let sx := fl_add (fl_mul (inject_Z x) l) px in
  let sy := fl_add (fl_mul (inject_Z y) l) py in
  let raw :=
    fl_sub (fl_mul (cos (fl_mul n sx)) (cos (fl_mul m sy)))
           (fl_mul (cos (fl_mul m sx)) (cos (fl_mul n sy))) in
  fl_div (Qabs raw) 2.

Definition bakedVibration (cos : Q -> Q) (random : nat -> Q) (w h : Z)
    (p : ChladniParams) (rng : nat) : Float32Array :=
  fst (fst (recalculateGradients cos random w h p rng)).

Definition bakedGradients (cos : Q -> Q) (random : nat -> Q) (w h : Z)
    (p : ChladniParams) (rng : nat) : Float32Array :=
  snd (fst (recalculateGradients cos random w h p rng)).

(** ** The worker as a transition system *)

Inductive workerEvent : Type :=
| Configure (message : Worker.ConfigMessage)
| TimerFires (h : nat).

Definition workerStep (cos : Q -> Q) (random : nat -> Q)
    (c : Worker.context) (e : workerEvent) : Worker.context :=
  match e with
  | Configure message => Worker.receiveUpdateFromMainThread cos random c message
  | TimerFires h => Worker.timerFires cos random c h
  end.

Definition workerRun (cos : Q -> Q) (random : nat -> Q)
    (events : list workerEvent) : Worker.context :=
  fold_left (workerStep cos random) events Worker.constructor.

Definition paired (message : FieldMessage) : Prop :=
  msg_vibrationValues message = None <-> msg_gradients message = None.

Definition resonantMessage (message : FieldMessage) : Prop :=
  msg_vibrationIntensity message = MODERATE_RANDOM_VIBRATION_INTENSITY /\
  msg_vibrationValues message <> None /\ msg_gradients message <> None.

Definition restMessage (message : FieldMessage) : Prop :=
  msg_vibrationIntensity message = AGGRESSIVE_RANDOM_VIBRATION_INTENSITY /\
  msg_vibrationValues message = None /\ msg_gradients message = None.

Inductive frequencyEvent : Type :=
| FrequencyConfigure (message : FrequencyWorker.ConfigMessage)
| FrequencyTimerFires (h : nat).

Definition frequencyStep (cos : Q -> Q) (random : nat -> Q)
    (c : FrequencyWorker.context) (e : frequencyEvent)
  : FrequencyWorker.context :=
  match e with
  | FrequencyConfigure message =>
      FrequencyWorker.receiveUpdateFromMainThread cos random c message
  | FrequencyTimerFires h => FrequencyWorker.timerFires cos random c h
  end.

Definition frequencyRun (cos : Q -> Q) (random : nat -> Q)
    (events : list frequencyEvent) : FrequencyWorker.context :=
  fold_left (frequencyStep cos random) events FrequencyWorker.constructor.



Definition frequencyMessage : FrequencyWorker.ConfigMessage :=
  FrequencyWorker.mkConfigMessage (Some 2) (Some 2) (Some (lit (2 # 100))).

(** ** The application *)

(** A delivery that carries a field. *)
Definition isFresh (message : FieldMessage) : bool :=
  match msg_gradients message with
  | Some _ => true
  | None => false
  end.

Definition deliverAll (a : App.ChladniApp) (messages : list FieldMessage)
  : App.ChladniApp :=
  fold_left App.onMessageFromWorker messages a.

Fixpoint freshCount (messages : list FieldMessage) : Z :=
  match messages with
  | [] => 0
  | message :: rest =>
      (if isFresh message then 1 else 0) + freshCount rest
  end.

(** The colour particles are drawn with during one frame. *)
Definition frameColor (a : App.ChladniApp) : option Z :=
  match App.gradients a with
  | Some _ => App.selectedColor a
  | None => Some (App.nonResonantColor a)
  end.

Definition particleSlots (len : Z) (l : list Z) : Prop :=
  forall i, In i l -> exists k, i = 2 * k /\ 0 <= k /\ 2 * k < len.

(** The two local variables [x] and [y] of the loop body for the particle
    at index [i], when its random values start at [d], and the index of
    the cell the body draws: the locals are doubles, and the index is
    computed from them, not from the values the array holds. *)
Definition movedX (random : nat -> Q) (a : App.ChladniApp) (P0 : Float32Array)
    (d : nat) (i : Z) : number :=
  fst (fst (App.advance random a P0 d i)).

Definition movedY (random : nat -> Q) (a : App.ChladniApp) (P0 : Float32Array)
    (d : nat) (i : Z) : number :=
  snd (fst (App.advance random a P0 d i)).

Definition drawnCell (random : nat -> Q) (a : App.ChladniApp)
    (P0 : Float32Array) (d : nat) (i : Z) : option Z :=
  App.rasterIndex (App.width a) (movedX random a P0 d i)
    (movedY random a P0 d i).

(** What the particle loop has done after the indices [l], started from
    particles [P0], buffer [B0] and random counter [rng0]. *)
Record frameTrace (random : nat -> Q) (a : App.ChladniApp)
    (P0 : Float32Array) (B0 : Uint32Array) (rng0 : nat) (l : list Z)
    (st : App.frame) : Prop := mkFrameTrace {
  trace_rng : snd st = (rng0 + 2 * length l)%nat;
  trace_particles_length : length (fst (fst st)) = length P0;
  trace_buffer_length : length (snd (fst st)) = length B0;
  trace_pending : forall k, ~ In (2 * k) l ->
    ta_read (fst (fst st)) (2 * k) = ta_read P0 (2 * k) /\
    ta_read (fst (fst st)) (2 * k + 1) = ta_read P0 (2 * k + 1);
  trace_done : forall i, In i l ->
    exists d : nat, (rng0 <= d)%nat /\
      ta_read (fst (fst st)) i = toFloat32 (movedX random a P0 d i) /\
      ta_read (fst (fst st)) (i + 1) = toFloat32 (movedY random a P0 d i) /\
      forall idx,
        drawnCell random a P0 d i = Some idx ->
        0 <= idx < Z.of_nat (length B0) ->
        ta_lookup (snd (fst st)) idx = Some (App.ToUint32 (frameColor a));
  trace_cells : forall j,
    ta_lookup (snd (fst st)) j = ta_lookup B0 j \/
    (ta_lookup (snd (fst st)) j = Some (App.ToUint32 (frameColor a)) /\
     exists i d, In i l /\ (rng0 <= d)%nat /\
       drawnCell random a P0 d i = Some j)
}.

(** The jitter as a real function of the random value, for intensity [c],
    and a primitive of it. *)
Definition jitterR (c : R) (r : R) : R := (r * c - c / 2)%R.
Definition jitterPrimitive (c : R) (r : R) : R :=
  (r * r * c / 2 - r * c / 2)%R.

(** ** Concrete inputs *)

Definition identityCos : Q -> Q := fun q => q.
Definition zeroRandom : nat -> Q := fun _ => 0%Q.
Definition centredRandom : nat -> Q := fun _ => 1 # 2.
Definition noDebugColor : number -> number -> number -> Z := fun _ _ _ => 0.
Definition firstParams : ChladniParams := mkChladniParams 1 2 (lit (4 # 100)).

(** [Math.cos] at the three arguments of the sample bake below: the
    doubles nearest to [cos 0.04] and [cos 0.08], and [cos 0 = 1]. *)
Definition sampleCos (q : Q) : Q :=
  if Qeq_bool q (lit (4 # 100)) then 1124999307006735 # 1125899906842624
  else if Qeq_bool q (lit (8 # 100)) then 8978391586133503 # 9007199254740992
  else 1.

(** A 4x4 field whose only low cell is [(3,1)], and the gradients computed
    from it: the interior cell [(2,1)] points east. *)
Definition wrapVibration : Float32Array :=
  map Num [ 1 # 2; 1 # 2; 1 # 2; 1 # 2;
            1 # 2; 1 # 2; 1 # 2; 1 # 4;
            1 # 2; 1 # 2; 1 # 2; 1 # 2;
            1 # 2; 1 # 2; 1 # 2; 1 # 2 ]%Q.

Definition wrapGradients : Float32Array :=
  fst (computeGradients zeroRandom 4 4 wrapVibration 0).

(** A running application on a 4x4 canvas with a single particle at
    [(-2, 2)], left of the canvas; and the same application with no field. *)
Definition wrapApp : App.ChladniApp :=
  App.mkChladniApp (replicate 16 0) (Some wrapVibration) (Some wrapGradients)
    2 1 false true 4 4 [Num (-2); Num 2] 9 0 [7] (Some 7) 0 0.



(** The frequency worker after a message with the frequency [0.02] and one
    firing of the timer: its next round is resonant and bakes with the
    second record of the table, whose [l] is still [0.018]. *)
Definition retunedWorker : FrequencyWorker.context :=
  FrequencyWorker.bakeNextGradients identityCos zeroRandom
    (FrequencyWorker.receiveUpdateFromMainThread identityCos zeroRandom
       FrequencyWorker.constructor frequencyMessage).

(** An application with a palette of three colours. *)
Definition paletteApp : App.ChladniApp :=
  App.mkChladniApp (replicate 16 0) None None
    2 1 false true 4 4 [Num 2; Num 1] 9 0 [7; 8; 9] (Some 7) 0 0.

(** An application with no field and one particle at [(3, 1)], and
    [Math.random()] returning the double nearest to [0.74999999995]. *)
Definition edgeApp : App.ChladniApp :=
  App.mkChladniApp (replicate 16 0) None None
    2 1 false true 4 4 [Num 3; Num 1] 9 0 [7] (Some 7) 0 0.

Definition nearHalfRandom : nat -> Q :=
  fun _ => lit (74999999995 # 100000000000).

(** [Math.random()] returning the greatest double below [1]. *)
Definition topRandom : nat -> Q := fun _ => belowOne.

(** An application with no field, intensity [3] and one particle at
    [(0.5, 0.5)]; and one with the intensity [2^-23 - 2^-75] and a particle
    at [(1 + 2^-23, 1)]. *)
Definition driftApp : App.ChladniApp :=
  App.mkChladniApp (replicate 16 0) None None
    3 (3 # 2) false true 4 4 [Num (1 # 2); Num (1 # 2)] 9 0 [7] (Some 7) 0 0.

Definition faintApp : App.ChladniApp :=
  App.mkChladniApp (replicate 16 0) None None
    (pow2 (-23) - pow2 (-75)) ((pow2 (-23) - pow2 (-75)) / 2) false true 4 4
    [Num (1 + pow2 (-23)); Num 1] 9 0 [7] (Some 7) 0 0.

Definition sameNumber (a b : number) : bool :=
  match a, b with
  | Num x, Num y => Qeq_bool x y
  | NaN, NaN => true
  | _, _ => false
  end.

(** ** Vocabulary of the further properties *)

(** *** Stored values *)

(** A gradient component: -1, 0 or 1. *)
Definition unitComponent (v : number) : Prop :=
  v = Num (-1) \/ v = Num 0 \/ v = Num 1.

(** A finite value in [[0, 1]]; a value that is zero. *)
Definition unitValue (v : number) : Prop :=
  exists q, v = Num q /\ (0 <= q <= 1)%Q.

Definition zeroValue (v : number) : Prop :=
  exists q, v = Num q /\ (q == 0)%Q.

(** What every implementation of [Math.cos] satisfies. *)
Definition boundedCos (cos : Q -> Q) : Prop :=
  forall q, (-1 <= cos q <= 1)%Q.

(** *** Runs of the workers *)

(** The timers that [bakingTimer] accounts for. *)
Definition scheduleOf (t : option nat) : list nat :=
  match t with
  | Some h => [h]
  | None => []
  end.

(** The timer with handle [h] fires [k] times in a row. *)
Fixpoint fireTimes (cos : Q -> Q) (random : nat -> Q)
    (c : Worker.context) (h : nat) (k : nat) : Worker.context :=
  match k with
  | O => c
  | S k' => Worker.timerFires cos random (fireTimes cos random c h k') h
  end.

(** A table with the length and the harmonics of [CHLADNI_PARAMS]. *)
Definition sameHarmonics (t : list ChladniParams) : Prop :=
  length t = length FrequencyWorker.CHLADNI_PARAMS /\
  forall j p0,
    ta_lookup FrequencyWorker.CHLADNI_PARAMS j = Some p0 ->
    exists p, ta_lookup t j = Some p /\ m p = m p0 /\ n p = n p0.

(** The unscheduled worker after the given messages. *)
Definition simpleRun (cos : Q -> Q) (random : nat -> Q)
    (messages : list SimpleWorker.ConfigMessage) : SimpleWorker.context :=
  fold_left (SimpleWorker.receiveUpdateFromMainThread cos random) messages
            SimpleWorker.constructor.

(** *** Frames of the application *)

(** [k] calls of [update] in a row. *)
Fixpoint frames (random : nat -> Q) (rgbToVal : number -> number -> number -> Z)
    (k : nat) (st : App.ChladniApp * nat) : App.ChladniApp * nat :=
  match k with
  | O => st
  | S k' =>
      let '(a, rng) := frames random rgbToVal k' st in
      App.update random rgbToVal a rng
  end.

(** The application with another frame counter. *)
Definition withFpsCount (a : App.ChladniApp) (count : Z) : App.ChladniApp :=
  App.mkChladniApp (App.buffer a) (App.vibrationValues a) (App.gradients a)
    (App.vibrationIntensity a) (App.halfVibrationIntensity a)
    (App.debugVibration a) (App.isRunning a) (App.width a) (App.height a)
    (App.particles a) (App.nonResonantColor a) (App.colorIndex a)
    (App.colors a) (App.selectedColor a) (App.backgroundColor a) count.

(** The fields of the application that a frame update never assigns. *)
Definition sameSettings (a b : App.ChladniApp) : Prop :=
  App.vibrationValues b = App.vibrationValues a /\
  App.gradients b = App.gradients a /\
  App.vibrationIntensity b = App.vibrationIntensity a /\
  App.halfVibrationIntensity b = App.halfVibrationIntensity a /\
  App.debugVibration b = App.debugVibration a /\
  App.isRunning b = App.isRunning a /\
  App.width b = App.width a /\
  App.height b = App.height a /\
  App.nonResonantColor b = App.nonResonantColor a /\
  App.colorIndex b = App.colorIndex a /\
  App.colors b = App.colors a /\
  App.selectedColor b = App.selectedColor a /\
  App.backgroundColor b = App.backgroundColor a.

(** The buffer cell that the debug view stores for the vibration value
    [v]. *)
Definition debugPixel (rgbToVal : number -> number -> number -> Z)
    (v : number) : Z :=
  App.ToUint32
    (Some (rgbToVal (num_mul v (Num 64)) (num_mul v (Num 64))
                    (num_mul v (Num 64)))).

(** *** The canvas *)

(** [side] is the least integer whose [CANVAS_SCALE]-fold covers [inner]
    window pixels. *)
Definition coversSide (inner : nat) (side : Z) : Prop :=
  (CANVAS_SCALE * (inject_Z side - 1) < inject_Z (Z.of_nat inner)
   <= CANVAS_SCALE * inject_Z side)%Q.

(** A position with finite coordinates on the canvas, its far edges
    included: a scattered coordinate is a product below the side stored in
    single precision, and the store can round it up to the side. *)
Definition onCanvas (a : App.ChladniApp) (x y : number) : Prop :=
  exists qx qy, x = Num qx /\ y = Num qy /\
    (0 <= qx <= inject_Z (App.width a))%Q /\
    (0 <= qy <= inject_Z (App.height a))%Q.

(** *** Further concrete inputs *)

(** A cosine stand-in with values in [[-1, 1]]. *)
Definition squareCos : Q -> Q :=
  fun q => if Qle_bool 0 q then 1%Q else (- (1))%Q.

(** Parameters with equal harmonics. *)
Definition flatParams : ChladniParams := mkChladniParams 2 2 (lit (2 # 100)).

(** The application of [wrapAppNoField] with its particle far left of the
    canvas, and without a position. *)
Definition strayApp : App.ChladniApp :=
  App.mkChladniApp (replicate 16 0) None None
    2 1 false true 4 4 [Num (-200); Num 2] 9 0 [7] (Some 7) 0 0.

Definition lostApp : App.ChladniApp :=
  App.mkChladniApp (replicate 16 0) None None
    2 1 false true 4 4 [NaN; NaN] 9 0 [7] (Some 7) 0 0.

(** The application of [wrapApp] with its particle inside the canvas, at
    [(2, 1)]; and the same holding the buffers that a worker without
    dimensions posts. *)
Definition pulledApp : App.ChladniApp :=
  App.mkChladniApp (replicate 16 0) (Some wrapVibration) (Some wrapGradients)
    2 1 false true 4 4 [Num 2; Num 1] 9 0 [7] (Some 7) 0 0.

Definition emptyFieldApp : App.ChladniApp :=
  App.mkChladniApp (replicate 16 0) (Some []) (Some [])
    2 1 false true 4 4 [Num 2; Num 1] 9 0 [7] (Some 7) 0 0.

(** Pages around [wrapApp]. *)
Definition wrapPage : FrequencyPage.ChladniPage :=
  FrequencyPage.mkChladniPage wrapApp (lit (4 # 100)) [].

Definition sliderPage : ParamsPage.ChladniPage :=
  ParamsPage.mkChladniPage wrapApp (Some 0) [].

(** * Properties *)

(** Case analysis over the eight neighbour offsets. *)
Ltac each_neighbour H tac :=
  unfold neighbours in H; simpl in H;
  repeat (destruct H as [H|H]; [subst; tac|]);
  destruct H.

(** Names the context on which a reconfiguration runs its first bake. *)
Tactic Notation "name_baked_context" ident(c1) :=
  match goal with
  | |- context [Worker.bakeNextGradients ?cos ?random ?c0] => set (c1 := c0)
  | |- context [FrequencyWorker.bakeNextGradients ?cos ?random ?c0] =>
      set (c1 := c0)
  end.

(** ** Rounding *)

(** *** Powers of two *)

Lemma pow2_pos e : (0 < pow2 e)%Q.
Proof. apply Qpower_0_lt. reflexivity. Qed.

Lemma pow2_add a b : (pow2 (a + b) == pow2 a * pow2 b)%Q.
Proof. apply Qpower_plus. discriminate. Qed.

Lemma pow2_le a b : a <= b -> (pow2 a <= pow2 b)%Q.
Proof. intros H. apply Qpower_le_compat_l; [exact H|discriminate]. Qed.

Lemma pow2_lt a b : a < b -> (pow2 a < pow2 b)%Q.
Proof. intros H. apply Qpower_lt_compat_l; [exact H|reflexivity]. Qed.

Lemma pow2_Z e : 0 <= e -> (pow2 e == inject_Z (2 ^ e))%Q.
Proof. intros H. unfold pow2. rewrite Zpower_Qpower by exact H. reflexivity. Qed.

Lemma pow2_split a b : (pow2 a == pow2 (a - b) * pow2 b)%Q.
Proof. rewrite <- pow2_add. replace (a - b + b) with a by lia. reflexivity. Qed.

(** *** The binade of a positive number *)

Lemma Qnum_pos (q : Q) : (0 < q)%Q -> 0 < Qnum q.
Proof. unfold Qlt. simpl. lia. Qed.

Lemma Q_as_quotient (q : Q) :
  (q * inject_Z (Z.pos (Qden q)) == inject_Z (Qnum q))%Q.
Proof. destruct q as [n d]. unfold Qeq, Qmult, inject_Z. simpl. lia. Qed.

Lemma binade_spec (q : Q) :
  (0 < q)%Q -> (pow2 (binade q) <= q < pow2 (binade q + 1))%Q.
Proof.
  intros Hq. unfold binade.
  pose proof (Qnum_pos q Hq) as Hn.
  pose proof (Q_as_quotient q) as Hquot.
  set (n := Qnum q) in *. set (d := Z.pos (Qden q)) in *.
  assert (Hd : 0 < d) by (unfold d; lia).
  destruct (Z.log2_spec n Hn) as [Hn1 Hn2].
  destruct (Z.log2_spec d Hd) as [Hd1 Hd2].
  pose proof (Z.log2_nonneg n) as Ha. pose proof (Z.log2_nonneg d) as Hb.
  set (a := Z.log2 n) in *. set (b := Z.log2 d) in *.
  assert (Qn1 : (pow2 a <= inject_Z n)%Q)
    by (rewrite pow2_Z by lia; rewrite <- Zle_Qle; exact Hn1).
  assert (Qn2 : (inject_Z n < pow2 (a + 1))%Q)
    by (rewrite pow2_Z by lia; rewrite <- Zlt_Qlt; exact Hn2).
  assert (Qd1 : (pow2 b <= inject_Z d)%Q)
    by (rewrite pow2_Z by lia; rewrite <- Zle_Qle; exact Hd1).
  assert (Qd2 : (inject_Z d < pow2 (b + 1))%Q)
    by (rewrite pow2_Z by lia; rewrite <- Zlt_Qlt; exact Hd2).
  assert (Qd : (0 < inject_Z d)%Q)
    by (change 0%Q with (inject_Z 0); rewrite <- Zlt_Qlt; exact Hd).
  pose proof (pow2_pos b) as Pb. pose proof (pow2_pos (b + 1)) as Pb1.
  assert (Hup : (q < pow2 (a - b + 1))%Q).
  { pose proof (pow2_split (a + 1) b) as E.
    replace (a + 1 - b) with (a - b + 1) in E by lia.
    pose proof (pow2_pos (a - b + 1)) as PX.
    set (X := pow2 (a - b + 1)) in *.
    apply Qnot_le_lt. intros Hle.
    assert (H1 : (X * inject_Z d <= q * inject_Z d)%Q)
      by (apply Qmult_le_compat_r; [exact Hle|apply Qlt_le_weak; exact Qd]).
    assert (H2 : (X * pow2 b <= X * inject_Z d)%Q).
    { rewrite (Qmult_comm X (pow2 b)), (Qmult_comm X (inject_Z d)).
      apply Qmult_le_compat_r; [exact Qd1|apply Qlt_le_weak; exact PX]. }
    rewrite Hquot in H1. rewrite <- E in H2. Lqa.lra. }
  assert (Hlow : (pow2 (a - b - 1) < q)%Q).
  { pose proof (pow2_split a (b + 1)) as E.
    replace (a - (b + 1)) with (a - b - 1) in E by lia.
    pose proof (pow2_pos (a - b - 1)) as PX.
    set (X := pow2 (a - b - 1)) in *.
    apply Qnot_le_lt. intros Hle.
    assert (H1 : (q * inject_Z d <= X * inject_Z d)%Q)
      by (apply Qmult_le_compat_r; [exact Hle|apply Qlt_le_weak; exact Qd]).
    assert (H2 : (X * inject_Z d < X * pow2 (b + 1))%Q).
    { rewrite (Qmult_comm X (pow2 (b + 1))), (Qmult_comm X (inject_Z d)).
      apply Qmult_lt_compat_r; [exact PX|exact Qd2]. }
    rewrite Hquot in H1. rewrite <- E in H2. Lqa.lra. }
  destruct (Qle_bool (pow2 (a - b)) q) eqn:E.
  - apply Qle_bool_iff in E. split; assumption.
  - split; [apply Qlt_le_weak; exact Hlow|].
    replace (a - b - 1 + 1) with (a - b) by lia.
    apply Qnot_le_lt. intros Hle. apply Qle_bool_iff in Hle. congruence.
Qed.

Lemma binade_unique (q : Q) e :
  (pow2 e <= q < pow2 (e + 1))%Q -> binade q = e.
Proof.
  intros [H1 H2].
  assert (Hq : (0 < q)%Q) by (pose proof (pow2_pos e); Lqa.lra).
  destruct (binade_spec q Hq) as [B1 B2].
  destruct (Z.lt_trichotomy (binade q) e) as [Hlt|[Heq|Hgt]]; [|exact Heq|].
  - pose proof (pow2_le (binade q + 1) e ltac:(lia)). Lqa.lra.
  - pose proof (pow2_le (e + 1) (binade q) ltac:(lia)). Lqa.lra.
Qed.

Lemma binade_mono (a b : Q) :
  (0 < a)%Q -> (a <= b)%Q -> binade a <= binade b.
Proof.
  intros Ha Hab.
  destruct (binade_spec a Ha) as [A1 A2].
  destruct (binade_spec b ltac:(Lqa.lra)) as [B1 B2].
  destruct (Z.le_gt_cases (binade a) (binade b)) as [H|H]; [exact H|].
  pose proof (pow2_le (binade b + 1) (binade a) ltac:(lia)). Lqa.lra.
Qed.

Lemma binade_comp (a b : Q) : (0 < a)%Q -> (a == b)%Q -> binade a = binade b.
Proof.
  intros Ha Hab. symmetry. apply binade_unique. rewrite <- Hab.
  apply binade_spec. exact Ha.
Qed.

(** *** Rounding to the nearest integer *)

Lemma roundHalfEven_bounds q :
  Qfloor q <= roundHalfEven q <= Qfloor q + 1.
Proof.
  unfold roundHalfEven.
  destruct (_ ?= _)%Q; [destruct (Z.even _)| |]; lia.
Qed.

Lemma roundHalfEven_Z k : roundHalfEven (inject_Z k) = k.
Proof.
  unfold roundHalfEven. rewrite Qfloor_Z.
  assert (E : (inject_Z k - inject_Z k ?= 1 # 2)%Q = Lt).
  { apply Qlt_alt.
    assert (Z0 : (inject_Z k - inject_Z k == 0)%Q) by ring.
    rewrite Z0. reflexivity. }
  rewrite E. reflexivity.
Qed.

Lemma roundHalfEven_mono a b :
  (a <= b)%Q -> roundHalfEven a <= roundHalfEven b.
Proof.
  intros Hab.
  pose proof (Qfloor_resp_le a b Hab) as Hf.
  pose proof (roundHalfEven_bounds a) as Ba.
  pose proof (roundHalfEven_bounds b) as Bb.
  destruct (Z.eq_dec (Qfloor a) (Qfloor b)) as [E|NE]; [|lia].
  unfold roundHalfEven in *. rewrite E in *.
  destruct (Qcompare_spec (a - inject_Z (Qfloor b)) (1 # 2)) as [Ea|Ea|Ea];
    destruct (Qcompare_spec (b - inject_Z (Qfloor b)) (1 # 2)) as [Eb|Eb|Eb];
    try lia; try (exfalso; Lqa.lra);
    destruct (Z.even (Qfloor b)); lia.
Qed.

Lemma roundHalfEven_comp a b : (a == b)%Q -> roundHalfEven a = roundHalfEven b.
Proof.
  intros E. apply Z.le_antisymm; apply roundHalfEven_mono; rewrite E;
    apply Qle_refl.
Qed.

Lemma roundHalfEven_le_Z q k : (q <= inject_Z k)%Q -> roundHalfEven q <= k.
Proof.
  intros H. rewrite <- (roundHalfEven_Z k). apply roundHalfEven_mono. exact H.
Qed.

Lemma roundHalfEven_ge_Z q k : (inject_Z k <= q)%Q -> k <= roundHalfEven q.
Proof.
  intros H. rewrite <- (roundHalfEven_Z k). apply roundHalfEven_mono. exact H.
Qed.

(** Linear arithmetic over [Q], with the injected integers as atoms. *)
Ltac qlra :=
  repeat match goal with
  | |- context [inject_Z ?z] =>
      let v := fresh "v" in set (v := inject_Z z) in *; clearbody v
  | H : context [inject_Z ?z] |- _ =>
      let v := fresh "v" in set (v := inject_Z z) in *; clearbody v
  end;
  Lqa.lra.

Ltac qnra :=
  repeat match goal with
  | |- context [inject_Z ?z] =>
      let v := fresh "v" in set (v := inject_Z z) in *; clearbody v
  | H : context [inject_Z ?z] |- _ =>
      let v := fresh "v" in set (v := inject_Z z) in *; clearbody v
  end;
  Lqa.nra.

Lemma roundHalfEven_below q k :
  (q < inject_Z k - (1 # 2))%Q -> roundHalfEven q <= k - 1.
Proof.
  intros H.
  pose proof (Qfloor_le q) as F1. pose proof (Qlt_floor q) as F2.
  pose proof (roundHalfEven_bounds q) as B.
  assert (Hf : Qfloor q <= k - 1).
  { assert (Hlt : (inject_Z (Qfloor q) < inject_Z k)%Q) by qlra.
    rewrite <- Zlt_Qlt in Hlt. lia. }
  destruct (Z.eq_dec (Qfloor q) (k - 1)) as [E|NE]; [|lia].
  unfold roundHalfEven. rewrite E.
  assert (C : (q - inject_Z (k - 1) ?= 1 # 2)%Q = Lt).
  { apply -> Qlt_alt. unfold Z.sub. rewrite inject_Z_plus.
    change (inject_Z (- (1))) with (- (1))%Q. qlra. }
  rewrite C. lia.
Qed.

Lemma Qopp_opp_eq (q : Q) : (- - q)%Q = q.
Proof. destruct q as [n d]. unfold Qopp. simpl. rewrite Z.opp_involutive. reflexivity. Qed.

(** *** Rounding a positive number *)

Section Format.

Variables prec emin : Z.
Hypothesis prec_pos : 1 <= prec.

Lemma ulp_pos a : (0 < ulp prec emin a)%Q.
Proof. apply pow2_pos. Qed.

Lemma ulp_comp a b : (0 < a)%Q -> (a == b)%Q -> ulp prec emin a = ulp prec emin b.
Proof. intros Ha E. unfold ulp. rewrite (binade_comp a b Ha E). reflexivity. Qed.

Lemma roundPositive_comp a b :
  (0 < a)%Q -> (a == b)%Q ->
  roundPositive prec emin a = roundPositive prec emin b.
Proof.
  intros Ha E. unfold roundPositive. rewrite (ulp_comp a b Ha E).
  rewrite (roundHalfEven_comp (a / ulp prec emin b) (b / ulp prec emin b));
    [reflexivity|].
  rewrite E. reflexivity.
Qed.

Lemma roundPositive_nonneg a :
  (0 < a)%Q -> (0 <= roundPositive prec emin a)%Q.
Proof.
  intros Ha. unfold roundPositive.
  pose proof (ulp_pos a) as Hu.
  apply Qmult_le_0_compat; [|apply Qlt_le_weak; exact Hu].
  change 0%Q with (inject_Z 0). rewrite <- Zle_Qle.
  apply roundHalfEven_ge_Z. apply Qle_shift_div_l; [exact Hu|].
  change (inject_Z 0) with 0%Q. Lqa.lra.
Qed.

Lemma div_pow2 e k : (pow2 e / pow2 k == pow2 (e - k))%Q.
Proof.
  pose proof (pow2_pos k) as Hk.
  rewrite (pow2_split e k). field. Lqa.lra.
Qed.

Lemma roundPositive_mono a b :
  (0 < a)%Q -> (a <= b)%Q ->
  (roundPositive prec emin a <= roundPositive prec emin b)%Q.
Proof.
  intros Ha Hab.
  assert (Hb : (0 < b)%Q) by Lqa.lra.
  pose proof (binade_mono a b Ha Hab) as He.
  destruct (binade_spec a Ha) as [A1 A2].
  destruct (binade_spec b Hb) as [B1 B2].
  unfold roundPositive, ulp.
  set (ka := Z.max (binade a - prec + 1) emin).
  set (kb := Z.max (binade b - prec + 1) emin).
  assert (Hk : ka <= kb) by (unfold ka, kb; lia).
  pose proof (pow2_pos ka) as Pa. pose proof (pow2_pos kb) as Pb.
  destruct (Z.eq_dec ka kb) as [E|NE].
  - rewrite E. apply Qmult_le_compat_r; [|apply Qlt_le_weak; exact Pb].
    rewrite <- Zle_Qle. apply roundHalfEven_mono.
    apply Qmult_le_compat_r; [exact Hab|].
    apply Qlt_le_weak, Qinv_lt_0_compat. exact Pb.
  - assert (Hkb : kb = binade b - prec + 1) by (unfold ka, kb in *; lia).
    assert (Hlt : binade a < binade b) by (unfold ka, kb in *; lia).
    (* the common bound: the least number of the binade of [b] *)
    apply Qle_trans with (pow2 (binade b)).
    + (* round a <= 2^(binade b) *)
      assert (Hexp : 0 <= binade b - ka) by lia.
      assert (Hq : (a / pow2 ka <= inject_Z (2 ^ (binade b - ka)))%Q).
      { rewrite <- pow2_Z by exact Hexp. rewrite <- div_pow2.
        apply Qmult_le_compat_r;
          [|apply Qlt_le_weak, Qinv_lt_0_compat; exact Pa].
        pose proof (pow2_le (binade a + 1) (binade b) ltac:(lia)). Lqa.lra. }
      apply roundHalfEven_le_Z in Hq. rewrite Zle_Qle in Hq.
      rewrite <- pow2_Z in Hq by exact Hexp.
      rewrite (pow2_split (binade b) ka).
      apply Qmult_le_compat_r; [exact Hq|apply Qlt_le_weak; exact Pa].
    + assert (Hexp : 0 <= binade b - kb) by lia.
      assert (Hq : (inject_Z (2 ^ (binade b - kb)) <= b / pow2 kb)%Q).
      { rewrite <- pow2_Z by exact Hexp. rewrite <- div_pow2.
        apply Qmult_le_compat_r;
          [exact B1|apply Qlt_le_weak, Qinv_lt_0_compat; exact Pb]. }
      apply roundHalfEven_ge_Z in Hq. rewrite Zle_Qle in Hq.
      rewrite <- pow2_Z in Hq by exact Hexp.
      rewrite (pow2_split (binade b) kb).
      apply Qmult_le_compat_r; [exact Hq|apply Qlt_le_weak; exact Pb].
Qed.

(** Numbers of the format: [m * 2^k] with [0 < m < 2^prec] and
    [emin <= k]. *)
Lemma roundPositive_fix (mant k : Z) :
  0 < mant < 2 ^ prec -> emin <= k ->
  (roundPositive prec emin (inject_Z mant * pow2 k) ==
   inject_Z mant * pow2 k)%Q.
Proof.
  intros [Hm1 Hm2] Hk.
  set (q := (inject_Z mant * pow2 k)%Q).
  pose proof (pow2_pos k) as Pk.
  destruct (Z.log2_spec mant Hm1) as [L1 L2].
  pose proof (Z.log2_nonneg mant) as L0.
  assert (Llt : Z.log2 mant < prec).
  { apply (Z.pow_lt_mono_r_iff 2); lia. }
  assert (Hbin : binade q = Z.log2 mant + k).
  { apply binade_unique. unfold q. split.
    - rewrite pow2_add. apply Qmult_le_compat_r; [|apply Qlt_le_weak; exact Pk].
      rewrite pow2_Z by lia. rewrite <- Zle_Qle. exact L1.
    - replace (Z.log2 mant + k + 1) with (Z.log2 mant + 1 + k) by lia.
      rewrite pow2_add. apply Qmult_lt_compat_r; [exact Pk|].
      rewrite pow2_Z by lia. rewrite <- Zlt_Qlt. exact L2. }
  unfold roundPositive, ulp. rewrite Hbin.
  set (k' := Z.max (Z.log2 mant + k - prec + 1) emin).
  assert (Hk' : k' <= k) by (unfold k'; lia).
  pose proof (pow2_pos k') as Pk'.
  assert (Hquot : (q / pow2 k' == inject_Z (mant * 2 ^ (k - k')))%Q).
  { unfold q. rewrite inject_Z_mult, <- pow2_Z by lia.
    rewrite (pow2_split k k'). field. Lqa.lra. }
  rewrite (roundHalfEven_comp _ _ Hquot), roundHalfEven_Z.
  unfold q. rewrite inject_Z_mult, <- pow2_Z by lia.
  rewrite (pow2_split k k'). ring.
Qed.

(** A rounded number is a number of the format (or zero). *)
Lemma roundPositive_form a :
  (0 < a)%Q ->
  exists mant k,
    (roundPositive prec emin a == inject_Z mant * pow2 k)%Q /\
    0 <= mant <= 2 ^ prec /\ emin <= k.
Proof.
  intros Ha. unfold roundPositive, ulp.
  set (k := Z.max (binade a - prec + 1) emin).
  exists (roundHalfEven (a / pow2 k)), k.
  split; [reflexivity|]. split; [|unfold k; lia].
  pose proof (pow2_pos k) as Pk.
  destruct (binade_spec a Ha) as [A1 A2].
  split.
  - apply roundHalfEven_ge_Z. apply Qle_shift_div_l; [exact Pk|].
    change (inject_Z 0) with 0%Q. Lqa.lra.
  - apply roundHalfEven_le_Z.
    assert (Hexp : 0 <= prec) by lia.
    rewrite <- pow2_Z by exact Hexp.
    apply Qle_shift_div_r; [exact Pk|].
    rewrite <- pow2_add.
    pose proof (pow2_le (binade a + 1) (prec + k) ltac:(unfold k; lia)).
    Lqa.lra.
Qed.

Lemma roundPositive_idempotent a :
  (0 < a)%Q -> (0 < roundPositive prec emin a)%Q ->
  (roundPositive prec emin (roundPositive prec emin a) ==
   roundPositive prec emin a)%Q.
Proof.
  intros Ha Hpos.
  destruct (roundPositive_form a Ha) as [mant [k [E [[M1 M2] Hk]]]].
  rewrite (roundPositive_comp _ _ Hpos E).
  rewrite E in Hpos. rewrite E.
  pose proof (pow2_pos k) as Pk.
  assert (Hm : 0 < mant).
  { destruct (Z.eq_dec mant 0) as [->|N]; [|lia].
    exfalso. change (inject_Z 0) with 0%Q in Hpos. Lqa.lra. }
  destruct (Z.eq_dec mant (2 ^ prec)) as [Etop|Ntop].
  - (* the mantissa overflowed into the next binade *)
    assert (E2 : (inject_Z mant * pow2 k ==
                  inject_Z (2 ^ (prec - 1)) * pow2 (k + 1))%Q).
    { rewrite Etop. rewrite <- !pow2_Z by lia. rewrite <- !pow2_add.
      replace (prec - 1 + (k + 1)) with (prec + k) by lia. reflexivity. }
    rewrite (roundPositive_comp _ _ Hpos E2).
    apply Qeq_trans with (inject_Z (2 ^ (prec - 1)) * pow2 (k + 1))%Q;
      [|symmetry; exact E2].
    apply roundPositive_fix; [|lia].
    split; [apply Z.pow_pos_nonneg; lia|].
    apply Z.pow_lt_mono_r; lia.
  - apply roundPositive_fix; lia.
Qed.

(** *** Rounding in a format *)

Lemma roundTo_zero q : (q == 0)%Q -> roundTo prec emin q = 0%Q.
Proof.
  intros E. unfold roundTo.
  assert (H : Qle_bool (Qabs q) 0 = true).
  { apply Qle_bool_iff. rewrite E. apply Qle_refl. }
  rewrite H. reflexivity.
Qed.

Lemma roundTo_positive q :
  (0 < q)%Q -> roundTo prec emin q = Qred (roundPositive prec emin q).
Proof.
  intros Hq. unfold roundTo.
  assert (Ha : (Qabs q == q)%Q) by (apply Qabs_pos; Lqa.lra).
  assert (H1 : Qle_bool (Qabs q) 0 = false).
  { destruct (Qle_bool (Qabs q) 0) eqn:E; [|reflexivity].
    apply Qle_bool_iff in E. Lqa.lra. }
  assert (H2 : Qle_bool 0 q = true) by (apply Qle_bool_iff; Lqa.lra).
  rewrite H1, H2.
  rewrite (roundPositive_comp (Qabs q) q); [reflexivity| |exact Ha].
  Lqa.lra.
Qed.

Lemma roundTo_negative q :
  (q < 0)%Q -> roundTo prec emin q = Qred (- roundPositive prec emin (- q)).
Proof.
  intros Hq. unfold roundTo.
  assert (Ha : (Qabs q == - q)%Q) by (apply Qabs_neg; Lqa.lra).
  assert (H1 : Qle_bool (Qabs q) 0 = false).
  { destruct (Qle_bool (Qabs q) 0) eqn:E; [|reflexivity].
    apply Qle_bool_iff in E. Lqa.lra. }
  assert (H2 : Qle_bool 0 q = false).
  { destruct (Qle_bool 0 q) eqn:E; [|reflexivity].
    apply Qle_bool_iff in E. Lqa.lra. }
  rewrite H1, H2.
  rewrite (roundPositive_comp (Qabs q) (- q)); [reflexivity| |exact Ha].
  Lqa.lra.
Qed.

Lemma roundTo_nonneg q : (0 <= q)%Q -> (0 <= roundTo prec emin q)%Q.
Proof.
  intros Hq. destruct (Qlt_le_dec 0 q) as [Hpos|Hle].
  - rewrite (roundTo_positive q Hpos), Qred_correct.
    apply roundPositive_nonneg. exact Hpos.
  - rewrite roundTo_zero; [apply Qle_refl|]. Lqa.lra.
Qed.

Lemma roundTo_nonpos q : (q <= 0)%Q -> (roundTo prec emin q <= 0)%Q.
Proof.
  intros Hq. destruct (Qlt_le_dec q 0) as [Hneg|Hle].
  - rewrite (roundTo_negative q Hneg), Qred_correct.
    pose proof (roundPositive_nonneg (- q) ltac:(Lqa.lra)). Lqa.lra.
  - rewrite roundTo_zero; [apply Qle_refl|]. Lqa.lra.
Qed.

Lemma roundTo_mono a b :
  (a <= b)%Q -> (roundTo prec emin a <= roundTo prec emin b)%Q.
Proof.
  intros Hab.
  destruct (Qlt_le_dec 0 a) as [Ha|Ha].
  - rewrite (roundTo_positive a Ha), (roundTo_positive b ltac:(Lqa.lra)).
    rewrite !Qred_correct. apply roundPositive_mono; assumption.
  - destruct (Qlt_le_dec b 0) as [Hb|Hb].
    + rewrite (roundTo_negative a ltac:(Lqa.lra)), (roundTo_negative b Hb).
      rewrite !Qred_correct.
      pose proof (roundPositive_mono (- b) (- a) ltac:(Lqa.lra) ltac:(Lqa.lra)).
      Lqa.lra.
    + pose proof (roundTo_nonpos a Ha). pose proof (roundTo_nonneg b Hb).
      Lqa.lra.
Qed.

Lemma roundTo_comp a b : (a == b)%Q -> roundTo prec emin a = roundTo prec emin b.
Proof.
  intros E.
  destruct (Qlt_le_dec 0 a) as [Ha|Ha].
  - rewrite (roundTo_positive a Ha), (roundTo_positive b ltac:(Lqa.lra)).
    rewrite (roundPositive_comp a b Ha E). reflexivity.
  - destruct (Qlt_le_dec a 0) as [Hn|Hn].
    + rewrite (roundTo_negative a Hn), (roundTo_negative b ltac:(Lqa.lra)).
      rewrite (roundPositive_comp (- a) (- b)); [reflexivity|Lqa.lra|].
      rewrite E. reflexivity.
    + rewrite (roundTo_zero a), (roundTo_zero b); [reflexivity| |]; Lqa.lra.
Qed.

Lemma roundTo_opp q : roundTo prec emin (- q) = (- roundTo prec emin q)%Q.
Proof.
  destruct (Qlt_le_dec 0 q) as [Ha|Ha].
  - rewrite (roundTo_negative (- q) ltac:(Lqa.lra)), (roundTo_positive q Ha).
    rewrite Qred_opp.
    rewrite (roundPositive_comp (- - q) q); [reflexivity|Lqa.lra|ring].
  - destruct (Qlt_le_dec q 0) as [Hn|Hn].
    + rewrite (roundTo_positive (- q) ltac:(Lqa.lra)), (roundTo_negative q Hn).
      rewrite Qred_opp, Qopp_opp_eq. reflexivity.
    + rewrite (roundTo_zero q), (roundTo_zero (- q)); [reflexivity| |]; Lqa.lra.
Qed.

Lemma roundTo_canonical q : Qred (roundTo prec emin q) = roundTo prec emin q.
Proof.
  unfold roundTo. destruct (Qle_bool (Qabs q) 0); [reflexivity|].
  apply Qred_complete, Qred_correct.
Qed.

Lemma roundTo_idempotent_eq q :
  (roundTo prec emin (roundTo prec emin q) == roundTo prec emin q)%Q.
Proof.
  assert (Hpos : forall a, (0 < a)%Q ->
            (roundTo prec emin (roundPositive prec emin a) ==
             roundPositive prec emin a)%Q).
  { intros a Ha.
    pose proof (roundPositive_nonneg a Ha) as Hn.
    destruct (Qlt_le_dec 0 (roundPositive prec emin a)) as [Hr|Hr].
    - rewrite (roundTo_positive _ Hr), Qred_correct.
      apply roundPositive_idempotent; assumption.
    - rewrite roundTo_zero by Lqa.lra. Lqa.lra. }
  destruct (Qlt_le_dec 0 q) as [Ha|Ha].
  - rewrite (roundTo_positive q Ha).
    rewrite (roundTo_comp _ _ (Qred_correct _)), Qred_correct.
    apply Hpos. exact Ha.
  - destruct (Qlt_le_dec q 0) as [Hn|Hn].
    + rewrite (roundTo_negative q Hn).
      rewrite (roundTo_comp _ _ (Qred_correct _)), Qred_correct.
      rewrite roundTo_opp. rewrite (Hpos (- q)%Q ltac:(Lqa.lra)). reflexivity.
    + rewrite (roundTo_zero q) by Lqa.lra. rewrite roundTo_zero; reflexivity.
Qed.

Lemma roundTo_idempotent q :
  roundTo prec emin (roundTo prec emin q) = roundTo prec emin q.
Proof.
  transitivity (Qred (roundTo prec emin (roundTo prec emin q)));
    [symmetry; apply roundTo_canonical|].
  transitivity (Qred (roundTo prec emin q)); [|apply roundTo_canonical].
  apply Qred_complete, roundTo_idempotent_eq.
Qed.

(** Integers below [2^prec] are numbers of every format with
    [emin <= 0]. *)
Lemma roundTo_Z (k : Z) :
  emin <= 0 -> Z.abs k <= 2 ^ prec ->
  (roundTo prec emin (inject_Z k) == inject_Z k)%Q.
Proof.
  intros Hemin Hk.
  assert (Hfix : forall j, 0 < j <= 2 ^ prec ->
            (roundPositive prec emin (inject_Z j) == inject_Z j)%Q).
  { intros j [J1 J2].
    assert (Pj : (0 < inject_Z j)%Q)
      by (change 0%Q with (inject_Z 0); rewrite <- Zlt_Qlt; exact J1).
    destruct (Z.eq_dec j (2 ^ prec)) as [->|N].
    - assert (E : (inject_Z (2 ^ prec) ==
                   inject_Z (2 ^ (prec - 1)) * pow2 1)%Q).
      { rewrite <- !pow2_Z by lia. rewrite <- pow2_add.
        replace (prec - 1 + 1) with prec by lia. reflexivity. }
      rewrite (roundPositive_comp _ _ Pj E).
      apply Qeq_trans with (inject_Z (2 ^ (prec - 1)) * pow2 1)%Q;
        [|symmetry; exact E].
      apply roundPositive_fix; [|lia].
      split; [apply Z.pow_pos_nonneg; lia|apply Z.pow_lt_mono_r; lia].
    - assert (E : (inject_Z j == inject_Z j * pow2 0)%Q)
        by (unfold pow2; simpl; ring).
      rewrite (roundPositive_comp _ _ Pj E).
      apply Qeq_trans with (inject_Z j * pow2 0)%Q; [|symmetry; exact E].
      apply roundPositive_fix; lia. }
  destruct (Z.lt_trichotomy k 0) as [Hneg|[->|Hpos]].
  - rewrite roundTo_negative
      by (change 0%Q with (inject_Z 0); rewrite <- Zlt_Qlt; exact Hneg).
    rewrite Qred_correct.
    assert (E : (- inject_Z k == inject_Z (- k))%Q)
      by (rewrite inject_Z_opp; reflexivity).
    assert (Pk : (0 < - inject_Z k)%Q).
    { rewrite E. change 0%Q with (inject_Z 0). rewrite <- Zlt_Qlt. lia. }
    rewrite (roundPositive_comp _ _ Pk E).
    rewrite Hfix by lia. rewrite inject_Z_opp. ring.
  - rewrite roundTo_zero; reflexivity.
  - rewrite roundTo_positive
      by (change 0%Q with (inject_Z 0); rewrite <- Zlt_Qlt; exact Hpos).
    rewrite Qred_correct. apply Hfix. lia.
Qed.

(** The product of an integer [n] with a factor of at most [1 - 2^-prec]
    rounds below [n]. *)
Lemma roundTo_scaled_below (n : Z) (q : Q) :
  emin <= - prec ->
  1 <= n <= 2 ^ prec ->
  (q <= inject_Z n * (1 - pow2 (- prec)))%Q ->
  (roundTo prec emin q < inject_Z n)%Q.
Proof.
  intros emin_low [Hn1 Hn2] Hq.
  set (t := (inject_Z n * (1 - pow2 (- prec)))%Q) in *.
  apply Qle_lt_trans with (roundTo prec emin t);
    [apply roundTo_mono; exact Hq|].
  clear q Hq.
  assert (Pn : (1 <= inject_Z n)%Q)
    by (change 1%Q with (inject_Z 1); rewrite <- Zle_Qle; exact Hn1).
  pose proof (pow2_pos (- prec)) as Pp.
  assert (Pp1 : (pow2 (- prec) <= 1 # 2)%Q).
  { change (1 # 2)%Q with (pow2 (-1)). apply pow2_le. lia. }
  assert (Ht : (0 < t)%Q) by (unfold t; qnra).
  rewrite (roundTo_positive t Ht), Qred_correct.
  destruct (Z.log2_spec n ltac:(lia)) as [L1 L2].
  pose proof (Z.log2_nonneg n) as L0.
  set (e := Z.log2 n) in *.
  assert (He : e <= prec).
  { apply (Z.pow_le_mono_r_iff 2); lia. }
  destruct (Z.eq_dec n (2 ^ e)) as [Epow|Npow].
  - (* a power of two: the product is a number of the format *)
    assert (E : (t == inject_Z (2 ^ prec - 1) * pow2 (e - prec))%Q).
    { unfold t. rewrite Epow. unfold Z.sub at 1. rewrite inject_Z_plus.
      rewrite <- !pow2_Z by lia.
      change (inject_Z (- (1))) with (- (1))%Q.
      rewrite (pow2_split e prec) at 1.
      assert (E1 : (pow2 (e - prec) * pow2 prec * (1 - pow2 (- prec)) ==
                    pow2 (e - prec) * (pow2 prec - pow2 prec * pow2 (- prec)))%Q)
        by ring.
      rewrite E1, <- pow2_add. replace (prec + - prec) with 0 by lia.
      change (pow2 0) with 1%Q. unfold Z.sub. ring. }
    rewrite (roundPositive_comp t _ Ht E).
    rewrite roundPositive_fix; [| |lia].
    + rewrite <- E. unfold t. qnra.
    + split; [|lia].
      assert (2 ^ 1 <= 2 ^ prec) by (apply Z.pow_le_mono_r; lia). lia.
  - assert (Hgt : 2 ^ e < n) by lia.
    assert (Hlt : e < prec).
    { destruct (Z.eq_dec e prec) as [->|]; lia. }
    set (k := e - prec + 1).
    pose proof (pow2_pos k) as Pk.
    assert (Qn1 : (pow2 e + 1 <= inject_Z n)%Q).
    { rewrite pow2_Z by lia. change 1%Q with (inject_Z 1).
      rewrite <- inject_Z_plus, <- Zle_Qle. lia. }
    assert (Qn2 : (inject_Z n < pow2 (e + 1))%Q)
      by (rewrite pow2_Z by lia; rewrite <- Zlt_Qlt; exact L2).
    assert (Hk1 : (pow2 k <= 1)%Q).
    { change 1%Q with (pow2 0). apply pow2_le. unfold k. lia. }
    (* the share taken off is between half a unit and a unit *)
    assert (Hshare : (inject_Z n * pow2 (- prec) == inject_Z n / pow2 (e + 1) * pow2 k)%Q).
    { unfold k. pose proof (pow2_pos (e + 1)) as Pe.
      rewrite (pow2_split (e - prec + 1) (e + 1)).
      replace (e - prec + 1 - (e + 1)) with (- prec) by lia.
      field. qlra. }
    assert (Hd1 : ((1 # 2) < inject_Z n / pow2 (e + 1))%Q).
    { pose proof (pow2_pos (e + 1)) as Pe.
      apply Qlt_shift_div_l; [exact Pe|].
      rewrite pow2_add. change (pow2 1) with 2%Q.
      pose proof (pow2_pos e). qlra. }
    assert (Hd2 : (inject_Z n / pow2 (e + 1) < 1)%Q).
    { pose proof (pow2_pos (e + 1)) as Pe.
      apply Qlt_shift_div_r; [exact Pe|]. qlra. }
    set (dl := (inject_Z n / pow2 (e + 1))%Q) in *.
    assert (Et : (t == inject_Z n - dl * pow2 k)%Q).
    { unfold t. rewrite <- Hshare. ring. }
    assert (Hbin : binade t = e).
    { apply binade_unique. rewrite Et. split; qnra. }
    unfold roundPositive, ulp. rewrite Hbin. fold k.
    assert (Hmax : Z.max k emin = k) by (unfold k; lia).
    rewrite Hmax.
    assert (Hint : (inject_Z n / pow2 k == inject_Z (n * 2 ^ (- k)))%Q).
    { rewrite inject_Z_mult, <- pow2_Z by (unfold k; lia).
      assert (E0 : (pow2 (- k) * pow2 k == 1)%Q).
      { rewrite <- pow2_add. replace (- k + k) with 0 by lia. reflexivity. }
      apply Qmult_inj_r with (pow2 k); [qlra|].
      assert (E1 : (inject_Z n / pow2 k * pow2 k == inject_Z n)%Q)
        by (field; qlra).
      rewrite E1, <- Qmult_assoc, E0. ring. }
    assert (Hquot : (t / pow2 k < inject_Z (n * 2 ^ (- k)) - (1 # 2))%Q).
    { rewrite <- Hint.
      assert (E1 : (t / pow2 k == inject_Z n / pow2 k - dl)%Q)
        by (rewrite Et; field; qlra).
      rewrite E1. qlra. }
    apply roundHalfEven_below in Hquot.
    rewrite Zle_Qle in Hquot.
    apply Qle_lt_trans with (inject_Z (n * 2 ^ (- k) - 1) * pow2 k)%Q.
    + apply Qmult_le_compat_r; [exact Hquot|qlra].
    + unfold Z.sub at 1. rewrite inject_Z_plus, <- Hint.
      change (inject_Z (- (1))) with (- (1))%Q.
      assert (E1 : ((inject_Z n / pow2 k + - (1)) * pow2 k ==
                    inject_Z n - pow2 k)%Q) by (field; qlra).
      rewrite E1. qlra.
Qed.


End Format.

(** *** Doubles and singles *)

Lemma rnd_mono a b : (a <= b)%Q -> (rnd a <= rnd b)%Q.
Proof. apply roundTo_mono. lia. Qed.

Lemma rnd_comp a b : (a == b)%Q -> rnd a = rnd b.
Proof. apply roundTo_comp. Qed.

#[global] Instance rnd_Proper : Proper (Qeq ==> Qeq) rnd.
Proof. intros a b E. rewrite (rnd_comp a b E). reflexivity. Qed.

Lemma rnd_idempotent q : rnd (rnd q) = rnd q.
Proof. apply roundTo_idempotent. lia. Qed.

Lemma rnd_opp q : rnd (- q) = (- rnd q)%Q.
Proof. apply roundTo_opp. Qed.

Lemma rnd_Z k : Z.abs k <= 2 ^ 53 -> (rnd (inject_Z k) == inject_Z k)%Q.
Proof. intros H. apply roundTo_Z; lia. Qed.

Lemma rnd_nonneg q : (0 <= q)%Q -> (0 <= rnd q)%Q.
Proof. apply roundTo_nonneg. Qed.

Lemma rnd_zero q : (q == 0)%Q -> rnd q = 0%Q.
Proof. apply roundTo_zero. Qed.

Lemma rnd_fixed_le a b : (a <= b)%Q -> (rnd b == b)%Q -> (rnd a <= b)%Q.
Proof. intros H E. rewrite <- E. apply rnd_mono. exact H. Qed.

Lemma rnd_fixed_ge a b : (a <= b)%Q -> (rnd a == a)%Q -> (a <= rnd b)%Q.
Proof. intros H E. rewrite <- E. apply rnd_mono. exact H. Qed.

Lemma fround_mono a b : (a <= b)%Q -> (Math_fround a <= Math_fround b)%Q.
Proof. apply roundTo_mono. lia. Qed.

Lemma fround_comp a b : (a == b)%Q -> Math_fround a = Math_fround b.
Proof. apply roundTo_comp. Qed.

#[global] Instance fround_Proper : Proper (Qeq ==> Qeq) Math_fround.
Proof. intros a b E. rewrite (fround_comp a b E). reflexivity. Qed.

Lemma fround_idempotent q : Math_fround (Math_fround q) = Math_fround q.
Proof. apply roundTo_idempotent. lia. Qed.

Lemma fround_opp q : Math_fround (- q) = (- Math_fround q)%Q.
Proof. apply roundTo_opp. Qed.

Lemma fround_Z k :
  Z.abs k <= 2 ^ 24 -> (Math_fround (inject_Z k) == inject_Z k)%Q.
Proof. intros H. apply roundTo_Z; lia. Qed.

Lemma fround_nonneg q : (0 <= q)%Q -> (0 <= Math_fround q)%Q.
Proof. apply roundTo_nonneg. Qed.

Lemma fround_fixed_le a b :
  (a <= b)%Q -> (Math_fround b == b)%Q -> (Math_fround a <= b)%Q.
Proof. intros H E. rewrite <- E. apply fround_mono. exact H. Qed.

Lemma fround_fixed_ge a b :
  (a <= b)%Q -> (Math_fround a == a)%Q -> (a <= Math_fround b)%Q.
Proof. intros H E. rewrite <- E. apply fround_mono. exact H. Qed.

(** The product of a random value with an integer stays below the
    integer. *)
Lemma fl_mul_random (r : Q) (n : Z) :
  (0 <= r <= 1 - pow2 (-53))%Q -> 1 <= n <= 2 ^ 53 ->
  (0 <= fl_mul r (inject_Z n) < inject_Z n)%Q.
Proof.
  intros [H0 H1] Hn. unfold fl_mul.
  assert (Pn : (0 < inject_Z n)%Q)
    by (change 0%Q with (inject_Z 0); rewrite <- Zlt_Qlt; lia).
  split.
  - apply rnd_nonneg. apply Qmult_le_0_compat; [exact H0|].
    apply Qlt_le_weak. exact Pn.
  - apply (roundTo_scaled_below 53 (-1074)); [lia|lia|exact Hn|].
    change (- (53)) with (-53).
    rewrite (Qmult_comm (inject_Z n)).
    apply Qmult_le_compat_r; [exact H1|apply Qlt_le_weak; exact Pn].
Qed.

(** *** Numbers of a format *)

(** An integer below [2^prec] scaled by a power of two of the format is
    a number of the format. *)
Lemma roundTo_grid (prec emin t e : Z) :
  1 <= prec -> emin <= e -> Z.abs t < 2 ^ prec ->
  (roundTo prec emin (inject_Z t * pow2 e) == inject_Z t * pow2 e)%Q.
Proof.
  intros Hprec He Ht.
  pose proof (pow2_pos e) as Pe.
  destruct (Z.lt_trichotomy t 0) as [Hneg|[->|Hpos]].
  - assert (Pt : (0 < inject_Z (- t))%Q)
      by (change 0%Q with (inject_Z 0); rewrite <- Zlt_Qlt; lia).
    assert (Nq : (inject_Z t * pow2 e < 0)%Q).
    { rewrite inject_Z_opp in Pt.
      assert (P : (0 < - inject_Z t * pow2 e)%Q)
        by (apply Qmult_lt_0_compat; assumption).
      assert (E0 : (- inject_Z t * pow2 e == - (inject_Z t * pow2 e))%Q) by ring.
      rewrite E0 in P. lra. }
    rewrite roundTo_negative by exact Nq.
    rewrite Qred_correct.
    assert (E : (- (inject_Z t * pow2 e) == inject_Z (- t) * pow2 e)%Q)
      by (rewrite inject_Z_opp; ring).
    assert (Pq : (0 < - (inject_Z t * pow2 e))%Q) by lra.
    rewrite (roundPositive_comp _ _ _ _ Pq E).
    rewrite (roundPositive_fix prec emin Hprec (- t) e) by lia.
    rewrite inject_Z_opp. ring.
  - rewrite roundTo_zero; [ring|ring].
  - assert (Pt : (0 < inject_Z t)%Q)
      by (change 0%Q with (inject_Z 0); rewrite <- Zlt_Qlt; lia).
    rewrite roundTo_positive by (apply Qmult_lt_0_compat; assumption).
    rewrite Qred_correct.
    apply (roundPositive_fix prec emin Hprec); lia.
Qed.

Lemma rnd_grid (t e : Z) :
  -1074 <= e -> Z.abs t < 2 ^ 53 ->
  (rnd (inject_Z t * pow2 e) == inject_Z t * pow2 e)%Q.
Proof. intros He Ht. apply roundTo_grid; lia. Qed.

Lemma fround_grid (t e : Z) :
  -149 <= e -> Z.abs t < 2 ^ 24 ->
  (Math_fround (inject_Z t * pow2 e) == inject_Z t * pow2 e)%Q.
Proof. intros He Ht. apply roundTo_grid; lia. Qed.

(** Rounding commutes with the absolute value. *)
Lemma rnd_abs (q : Q) : (rnd (Qabs q) == Qabs (rnd q))%Q.
Proof.
  destruct (Qlt_le_dec q 0) as [N|P].
  - rewrite (rnd_comp (Qabs q) (- q)) by (apply Qabs_neg; lra).
    rewrite rnd_opp.
    assert (rnd q <= 0)%Q.
    { rewrite <- (rnd_zero 0) by reflexivity. apply rnd_mono. lra. }
    rewrite Qabs_neg by assumption. reflexivity.
  - rewrite (rnd_comp (Qabs q) q) by (apply Qabs_pos; exact P).
    rewrite Qabs_pos by (apply rnd_nonneg; exact P). reflexivity.
Qed.

(** A monotone map that fixes the multiples of a sixteenth below [2^20]
    moves a number below [2^19] by less than a sixteenth. *)
Lemma grid_near (f : Q -> Q) (z : Q) :
  (forall a b, (a <= b)%Q -> (f a <= f b)%Q) ->
  (forall t, Z.abs t < 2 ^ 24 ->
     (f (inject_Z t * (1 # 16)) == inject_Z t * (1 # 16))%Q) ->
  (Qabs z <= inject_Z (2 ^ 19))%Q ->
  (z - (1 # 16) <= f z <= z + (1 # 16))%Q.
Proof.
  intros Hmono Hgrid Hz.
  assert (Hz' : (- inject_Z (2 ^ 19) <= z <= inject_Z (2 ^ 19))%Q).
  { apply Qabs_Qle_condition. exact Hz. }
  destruct Hz' as [Hlo Hhi].
  assert (Hbound : forall t,
            (inject_Z (- 2 ^ 23) <= inject_Z t)%Q ->
            (inject_Z t <= inject_Z (2 ^ 23))%Q -> Z.abs t < 2 ^ 24).
  { intros t H1 H2. rewrite <- Zle_Qle in H1, H2.
    assert (2 ^ 23 < 2 ^ 24) by (apply Z.pow_lt_mono_r; lia). lia. }
  assert (Elo : (inject_Z (- 2 ^ 23) == - inject_Z (2 ^ 19) * 16)%Q)
    by reflexivity.
  assert (Ehi : (inject_Z (2 ^ 23) == inject_Z (2 ^ 19) * 16)%Q)
    by reflexivity.
  split.
  - set (t := Qfloor (z * 16)).
    assert (Tle : (inject_Z t <= z * 16)%Q) by apply Qfloor_le.
    assert (Tgt : (z * 16 < inject_Z (t + 1))%Q) by apply Qlt_floor.
    assert (Tabs : Z.abs t < 2 ^ 24).
    { apply Hbound.
      - rewrite <- (Qfloor_Z (- 2 ^ 23)). rewrite <- Zle_Qle.
        apply Qfloor_resp_le. rewrite Elo. qlra.
      - apply Qle_trans with (z * 16)%Q; [exact Tle|]. rewrite Ehi. qlra. }
    apply Qle_trans with (inject_Z t * (1 # 16))%Q.
    + rewrite inject_Z_plus in Tgt. change (inject_Z 1) with 1%Q in Tgt.
      clearbody t. qlra.
    + rewrite <- (Hgrid t Tabs). apply Hmono. clearbody t. qlra.
  - set (t := Qceiling (z * 16)).
    assert (Tge : (z * 16 <= inject_Z t)%Q) by apply Qle_ceiling.
    assert (Tlt : (inject_Z (t - 1) < z * 16)%Q) by apply Qceiling_lt.
    assert (Tabs : Z.abs t < 2 ^ 24).
    { apply Hbound.
      - apply Qle_trans with (z * 16)%Q; [|exact Tge]. rewrite Elo. qlra.
      - rewrite <- (Qceiling_Z (2 ^ 23)). rewrite <- Zle_Qle.
        apply Qceiling_resp_le. rewrite Ehi. qlra. }
    apply Qle_trans with (inject_Z t * (1 # 16))%Q.
    + rewrite <- (Hgrid t Tabs). apply Hmono. clearbody t. qlra.
    + unfold Z.sub in Tlt. rewrite inject_Z_plus in Tlt.
      change (inject_Z (- (1))) with (- (1))%Q in Tlt.
      clearbody t. qlra.
Qed.

Lemma rnd_sixteenth (t : Z) :
  Z.abs t < 2 ^ 24 ->
  (rnd (inject_Z t * (1 # 16)) == inject_Z t * (1 # 16))%Q.
Proof.
  intros Ht.
  assert (Ep : (pow2 (-4) == 1 # 16)%Q) by reflexivity.
  rewrite <- Ep. apply rnd_grid; [lia|].
  assert (2 ^ 24 <= 2 ^ 53) by (apply Z.pow_le_mono_r; lia). lia.
Qed.

Lemma fround_sixteenth (t : Z) :
  Z.abs t < 2 ^ 24 ->
  (Math_fround (inject_Z t * (1 # 16)) == inject_Z t * (1 # 16))%Q.
Proof.
  intros Ht.
  assert (Ep : (pow2 (-4) == 1 # 16)%Q) by reflexivity.
  rewrite <- Ep. apply fround_grid; [lia|exact Ht].
Qed.

(** A double operation on numbers below [2^19] is off by less than a
    sixteenth, and so is a store in a [Float32Array]. *)
Lemma rnd_near (z : Q) :
  (Qabs z <= inject_Z (2 ^ 19))%Q ->
  (z - (1 # 16) <= rnd z <= z + (1 # 16))%Q.
Proof. apply grid_near; [apply rnd_mono|apply rnd_sixteenth]. Qed.

Lemma stored_near (z : Q) :
  (Qabs z <= inject_Z (2 ^ 19))%Q ->
  (z - (1 # 16) <= Math_fround (rnd z) <= z + (1 # 16))%Q.
Proof.
  apply (grid_near (fun q => Math_fround (rnd q))).
  - intros a b H. apply fround_mono, rnd_mono. exact H.
  - intros t Ht. rewrite (rnd_sixteenth t Ht). apply fround_sixteenth. exact Ht.
Qed.

(** Rounding keeps a number between two integers of the format. *)
Lemma rnd_between (lo hi : Z) (q : Q) :
  Z.abs lo <= 2 ^ 53 -> Z.abs hi <= 2 ^ 53 ->
  (inject_Z lo <= q <= inject_Z hi)%Q ->
  (inject_Z lo <= rnd q <= inject_Z hi)%Q.
Proof.
  intros Hlo Hhi [H1 H2]. split.
  - apply rnd_fixed_ge; [exact H1|apply rnd_Z; exact Hlo].
  - apply rnd_fixed_le; [exact H2|apply rnd_Z; exact Hhi].
Qed.

Lemma fround_between (lo hi : Z) (q : Q) :
  Z.abs lo <= 2 ^ 24 -> Z.abs hi <= 2 ^ 24 ->
  (inject_Z lo <= q <= inject_Z hi)%Q ->
  (inject_Z lo <= Math_fround q <= inject_Z hi)%Q.
Proof.
  intros Hlo Hhi [H1 H2]. split.
  - apply fround_fixed_ge; [exact H1|apply fround_Z; exact Hlo].
  - apply fround_fixed_le; [exact H2|apply fround_Z; exact Hhi].
Qed.

Lemma fround_zero q : (q == 0)%Q -> Math_fround q = 0%Q.
Proof. apply roundTo_zero. Qed.

(** ** The model on small inputs *)

Example round_half_up :
  Math_round (Num (5 # 2)) = Some 3 /\ Math_round (Num (-3 # 2)) = Some (-1) /\
  Math_round (Num (-16 # 10)) = Some (-2) /\ Math_round NaN = None.
Proof. repeat split. Qed.

(** Rounding on known values: the literal [0.1]; the sum [0.1 + 0.2],
    which is [0.30000000000000004]; [0.3333333333333333 * 3], which is
    [1]; the store of [2.4] in a [Float32Array]; two ties, which go to the
    even neighbour; half the least subnormal double and three times it. *)
Example rounding_samples :
  lit (1 # 10) = 3602879701896397 # 36028797018963968 /\
  fl_add (lit (1 # 10)) (lit (2 # 10)) = 1351079888211149 # 4503599627370496 /\
  fl_mul (lit (3333333333333333 # 10000000000000000)) 3 = 1%Q /\
  Math_fround (lit (24 # 10)) = 5033165 # 2097152 /\
  Math_fround (1 + pow2 (-24)) = 1%Q /\
  (Math_fround (1 + 3 * pow2 (-24)) == 1 + pow2 (-22))%Q /\
  rnd (pow2 (-1075)) = 0%Q /\
  (rnd (3 * pow2 (-1075)) == pow2 (-1073))%Q.
Proof. vm_compute. repeat split. Qed.

(** Beyond [2^30] the shift wraps: cell [2^31 + 1] would be written at
    gradient index 2. *)
Example shl_wraps : shl (2 ^ 31 + 1) 1 = 2 /\ shl (2 ^ 30) 1 = - 2 ^ 31.
Proof. split; reflexivity. Qed.

Example typed_array_bounds :
  ta_store [Num 1; Num 2] 5 (Num 9) = [Num 1; Num 2] /\
  ta_store [Num 1; Num 2] (-1) (Num 9) = [Num 1; Num 2] /\
  ta_read [Num 1; Num 2] 2 = NaN /\
  ta_store [Num 1; Num 2] 1 (Num 9) = [Num 1; Num 9].
Proof. repeat split. Qed.

(** In [wrapVibration] the cell [(2,1)] has the single lowest neighbour
    [(3,1)], to its east; all neighbours of [(1,2)] tie. *)
Example scan_single : 
  scanNeighbours wrapVibration 4 2 1 = mkScan (Finite (1 # 4)) [(1, 0)].
Proof. reflexivity. Qed.

Example scan_all_tied :
  scanNeighbours wrapVibration 4 1 2 = mkScan (Finite (1 # 2)) neighbours.
Proof. reflexivity. Qed.

Example gradients_of_wrapVibration :
  gradientAt wrapGradients 4 2 1 = (Num 1, Num 0) /\
  gradientAt wrapGradients 4 1 2 = (Num (-1), Num (-1)) /\
  gradientAt wrapGradients 4 0 1 = (Num 0, Num 0).
Proof. vm_compute. repeat split. Qed.

(** The cell a particle colours is the one of the doubles [x] and [y] of
    the loop body, not the one of the position the array then holds: the
    particle at [(3, 1)] moves to about [(3.4999999999, 1.4999999999)],
    which rounds to the cell [(3, 1)] of index 7, and is stored as
    [(3.5, 1.5)], which rounds to the index 12. *)
Example drawn_from_the_doubles :
  ta_lookup (App.buffer (fst (App.update nearHalfRandom noDebugColor edgeApp 0)))
    7 = Some 9 /\
  ta_lookup (App.buffer (fst (App.update nearHalfRandom noDebugColor edgeApp 0)))
    12 = Some 0 /\
  ta_read (App.particles
             (fst (App.update nearHalfRandom noDebugColor edgeApp 0))) 0
  = Num (7 # 2) /\
  App.rasterIndex 4
    (ta_read (App.particles
                (fst (App.update nearHalfRandom noDebugColor edgeApp 0))) 0)
    (ta_read (App.particles
                (fst (App.update nearHalfRandom noDebugColor edgeApp 0))) 1)
  = Some 12.
Proof. vm_compute. repeat split. Qed.

(** With [cos q = q + 1], parameters [(1, 2, 1)] and zero phases, the raw
    value is [3*1 - 2*1 = 1] at cell [(1,0)] and [1*2 - 1*3 = -1] at cell
    [(0,1)]; both are stored as [1/2]. *)
Example vibration_value_sample :
  (vibrationValue (fun q => q + 1) (mkChladniParams 1 2 1) 0 0 1 0 == 1 # 2)%Q /\
  (vibrationValue (fun q => q + 1) (mkChladniParams 1 2 1) 0 0 0 1 == 1 # 2)%Q.
Proof. split; reflexivity. Qed.

(** ** Typed arrays, ranges and the shift *)

Lemma Qlt_bool_iff (a b : Q) : Qlt_bool a b = true <-> (a < b)%Q.
Proof.
  unfold Qlt_bool. rewrite negb_true_iff.
  split.
  - intros H. apply Qnot_le_lt. intros Hle.
    apply Qle_bool_iff in Hle. congruence.
  - intros H. destruct (Qle_bool b a) eqn:E; [|reflexivity].
    apply Qle_bool_iff in E. exfalso. apply (Qlt_not_le _ _ H E).
Qed.

Lemma Qlt_bool_false (a b : Q) : Qlt_bool a b = false <-> (b <= a)%Q.
Proof.
  unfold Qlt_bool. rewrite negb_false_iff. apply Qle_bool_iff.
Qed.

Lemma ta_store_length {A} (a : list A) i v : length (ta_store a i v) = length a.
Proof. unfold ta_store. destruct (0 <=? i); [apply length_insert|reflexivity]. Qed.

Lemma ta_lookup_store_eq {A} (a : list A) i v :
  0 <= i < Z.of_nat (length a) -> ta_lookup (ta_store a i v) i = Some v.
Proof.
  intros [H0 H1]. unfold ta_lookup, ta_store.
  destruct (Z.leb_spec 0 i); [|lia].
  apply list_lookup_insert_eq. lia.
Qed.

Lemma ta_lookup_store_ne {A} (a : list A) i j v :
  i <> j -> ta_lookup (ta_store a i v) j = ta_lookup a j.
Proof.
  intros Hne. unfold ta_lookup, ta_store.
  destruct (Z.leb_spec 0 j); [|reflexivity].
  destruct (Z.leb_spec 0 i); [|reflexivity].
  apply list_lookup_insert_ne. lia.
Qed.

Lemma ta_lookup_Some {A} (a : list A) i v :
  ta_lookup a i = Some v -> 0 <= i < Z.of_nat (length a).
Proof.
  unfold ta_lookup. destruct (Z.leb_spec 0 i); [|discriminate].
  intros Hl. apply lookup_lt_Some in Hl. lia.
Qed.

Lemma ta_lookup_None {A} (a : list A) i :
  ~ (0 <= i < Z.of_nat (length a)) -> ta_lookup a i = None.
Proof.
  intros Hn. unfold ta_lookup. destruct (Z.leb_spec 0 i); [|reflexivity].
  apply lookup_ge_None. lia.
Qed.

Lemma ta_store_outside {A} (a : list A) i v :
  ~ (0 <= i < Z.of_nat (length a)) -> ta_store a i v = a.
Proof.
  intros Hn. unfold ta_store. destruct (Z.leb_spec 0 i); [|reflexivity].
  apply list_insert_ge. lia.
Qed.

Lemma zrange_In lo hi k : In k (zrange lo hi) <-> lo <= k < hi.
Proof.
  unfold zrange. rewrite in_map_iff. split.
  - intros [j [Hj Hin]]. apply in_seq in Hin. lia.
  - intros H. exists (Z.to_nat (k - lo)). split; [lia|].
    apply in_seq. lia.
Qed.

Lemma zrange_NoDup lo hi : List.NoDup (zrange lo hi).
Proof.
  unfold zrange. apply Stdlib.Lists.Finite.Injective_map_NoDup.
  - intros a b H. lia.
  - apply seq_NoDup.
Qed.

(** Within [2^30] the shift by one is a doubling. *)
Lemma shl_1 i : 0 <= i < 2 ^ 30 -> shl i 1 = i * 2.
Proof.
  intros H. unfold shl, ToInt32.
  change (1 mod 32) with 1.
  rewrite (Z.mod_small i) by lia.
  destruct (Z.ltb_spec i (2 ^ 31)); [|lia].
  rewrite Z.shiftl_mul_pow2 by lia. change (2 ^ 1) with 2.
  rewrite Z.mod_small by lia.
  destruct (Z.ltb_spec (i * 2) (2 ^ 31)); lia.
Qed.

(** ** The neighbour scan *)

Section Scan.
Variables (vib : Float32Array) (width x y : Z).

Lemma scanNeighbours_fold :
  scanNeighbours vib width x y = fold_left (scanStep vib width x y) neighbours scanStart.
Proof. reflexivity. Qed.

Lemma neighbours_not_centre o : In o neighbours -> (fst o =? 0) && (snd o =? 0) = false.
Proof.
  intros H. each_neighbour H ltac:(reflexivity).
Qed.

Lemma scanStep_num st o v :
  In o neighbours -> neighbourValue vib width x y o = Num v ->
  scanStep vib width x y st o =
  if ext_le v (minVibrationSoFar st) then
    if ext_lt v (minVibrationSoFar st)
    then mkScan (Finite v) [o]
    else mkScan (minVibrationSoFar st) (candidateGradients st ++ [o])
  else st.
Proof.
  intros Hin Hv. unfold scanStep, examine.
  rewrite (neighbours_not_centre o Hin).
  unfold neighbourValue, vibrationAt in Hv. rewrite Hv.
  destruct o as [nx ny]. simpl.
  destruct (ext_le v (minVibrationSoFar st)); [|reflexivity].
  destruct (ext_lt v (minVibrationSoFar st)); reflexivity.
Qed.

Lemma filter_none {A} (p : A -> bool) (l : list A) :
  (forall a, In a l -> p a = false) -> List.filter p l = [].
Proof.
  induction l as [|a l IH]; intros H; simpl; [reflexivity|].
  rewrite (H a) by (left; reflexivity). apply IH. intros b Hb. apply H. right. exact Hb.
Qed.

Lemma scanned_fold pre :
  wellRead vib width x y pre -> scanned vib width x y pre (fold_left (scanStep vib width x y) pre scanStart).
Proof.
  induction pre as [|o pre IH] using rev_ind; intros Hw.
  - reflexivity.
  - rewrite fold_left_app. simpl fold_left.
    assert (Hwp : wellRead vib width x y pre).
    { intros o' Ho'. apply Hw. apply in_or_app. left. exact Ho'. }
    specialize (IH Hwp).
    destruct (Hw o) as [Hin [v Hv]]; [apply in_or_app; right; left; reflexivity|].
    rewrite (scanStep_num _ o v Hin Hv).
    assert (Hfo : neighbourFinite vib width x y o = v) by (unfold neighbourFinite; rewrite Hv; reflexivity).
    set (st := fold_left (scanStep vib width x y) pre scanStart) in *.
    assert (Hshape : exists o1 rest, pre ++ [o] = o1 :: rest).
    { destruct pre; simpl; eauto. }
    destruct Hshape as [o1 [rest Hshape]].
    unfold scanned. rewrite Hshape. rewrite <- Hshape. clear Hshape o1 rest.
    destruct pre as [|p0 pre'].
    + simpl in IH. rewrite IH. simpl.
      exists v. repeat split.
      * rewrite Hfo. assert (Qle_bool v v = true) as -> by (apply Qle_bool_iff; apply Qle_refl). reflexivity.
      * intros o' [<-|[]]. rewrite Hfo. apply Qle_refl.
      * exists o. split; [left; reflexivity|]. rewrite Hfo. reflexivity.
    + remember (p0 :: pre') as pre eqn:Hpre.
      assert (IH' : exists mn : Q,
        minVibrationSoFar st = Finite mn /\
        candidateGradients st = List.filter (fun o => Qle_bool (neighbourFinite vib width x y o) mn) pre /\
        (forall o, In o pre -> (mn <= neighbourFinite vib width x y o)%Q) /\
        (exists o, In o pre /\ (neighbourFinite vib width x y o == mn)%Q)).
      { rewrite Hpre in IH |- *. exact IH. }
      clear IH. destruct IH' as [mn [Hmin [Hc [Hlow [om [Hom Heq]]]]]].
      rewrite Hmin. simpl ext_le. simpl ext_lt.
      destruct (Qle_bool v mn) eqn:Ele.
      * destruct (Qlt_bool v mn) eqn:Elt.
        -- apply Qlt_bool_iff in Elt.
           exists v. simpl. repeat split.
           ++ rewrite List.filter_app. simpl. rewrite Hfo.
              assert (Qle_bool v v = true) as -> by (apply Qle_bool_iff; apply Qle_refl).
              rewrite filter_none; [reflexivity|].
              intros a Ha. destruct (Qle_bool (neighbourFinite vib width x y a) v) eqn:E; [|reflexivity].
              apply Qle_bool_iff in E. specialize (Hlow a Ha). exfalso. lra.
           ++ intros o' Ho'. apply in_app_or in Ho'. destruct Ho' as [Ho'|[<-|[]]].
              ** specialize (Hlow o' Ho'). lra.
              ** rewrite Hfo. apply Qle_refl.
           ++ exists o. split; [apply in_or_app; right; left; reflexivity|].
              rewrite Hfo. reflexivity.
        -- apply Qlt_bool_false in Elt. apply Qle_bool_iff in Ele.
           exists mn. simpl. repeat split.
           ++ rewrite List.filter_app. simpl. rewrite Hfo.
              assert (Qle_bool v mn = true) as -> by (apply Qle_bool_iff; exact Ele).
              rewrite Hc. reflexivity.
           ++ intros o' Ho'. apply in_app_or in Ho'. destruct Ho' as [Ho'|[<-|[]]].
              ** apply Hlow, Ho'.
              ** rewrite Hfo. exact Elt.
           ++ exists om. split; [apply in_or_app; left; exact Hom|exact Heq].
      * exists mn. repeat split.
        -- exact Hmin.
        -- rewrite List.filter_app. simpl. rewrite Hfo, Ele. rewrite app_nil_r. exact Hc.
        -- intros o' Ho'. apply in_app_or in Ho'. destruct Ho' as [Ho'|[<-|[]]].
           ++ apply Hlow, Ho'.
           ++ rewrite Hfo. destruct (Qle_bool v mn) eqn:E; [discriminate|].
              apply Qlt_le_weak. apply Qnot_le_lt. intros Hle. apply Qle_bool_iff in Hle. congruence.
        -- exists om. split; [apply in_or_app; left; exact Hom|exact Heq].
Qed.

End Scan.

(** ** The choice among candidates *)

Lemma chooseGradient_fst random cands rng :
  fst (chooseGradient random cands rng) = choiceOf cands (random rng).
Proof.
  unfold chooseGradient, choiceOf.
  destruct (Z.of_nat (length cands) =? 1); reflexivity.
Qed.

Lemma chooseGradient_snd random cands rng :
  (rng <= snd (chooseGradient random cands rng) <= S rng)%nat.
Proof.
  unfold chooseGradient.
  destruct (Z.of_nat (length cands) =? 1); simpl; lia.
Qed.

(** The index that [chooseGradient] computes grows with the random
    value: each index is picked on an interval of random values. *)
Lemma pick_index_mono (len : nat) (r r' : Q) :
  (r <= r')%Q -> pick_index len r <= pick_index len r'.
Proof.
  intros H. unfold pick_index, fl_mul. apply Qfloor_resp_le, rnd_mono.
  apply Qmult_le_compat_r; [exact H|].
  change 0%Q with (inject_Z 0). rewrite <- Zle_Qle. lia.
Qed.

Lemma pick_index_range (len : nat) (r : Q) :
  (0 < len)%nat -> Z.of_nat len <= 2 ^ 53 -> randomValue r ->
  0 <= pick_index len r < Z.of_nat len.
Proof.
  intros Hlen Hmax Hr. unfold pick_index.
  destruct (fl_mul_random r (Z.of_nat len) Hr ltac:(lia)) as [H0 H1].
  split.
  - rewrite <- (Qfloor_Z 0). apply Qfloor_resp_le. exact H0.
  - rewrite Zlt_Qlt. eapply Qle_lt_trans; [apply Qfloor_le|exact H1].
Qed.

(** A random value that picks index [k] among [len] candidates: the
    double nearest to the middle of the [k]-th of [len] equal parts of
    [[0, 1)]. *)
Lemma midRandom_picks (len k : nat) :
  (k < len <= 8)%nat ->
  randomValue (midRandom len k) /\
  pick_index len (midRandom len k) = Z.of_nat k.
Proof.
  intros [Hk Hlen].
  assert (Htable :
    forallb (fun len =>
      forallb (fun k =>
        Qle_bool 0 (midRandom len k) && Qle_bool (midRandom len k) belowOne
        && (pick_index len (midRandom len k) =? Z.of_nat k))
        (seq 0 len))
      (seq 1 8) = true) by (vm_compute; reflexivity).
  rewrite forallb_forall in Htable.
  specialize (Htable len ltac:(apply in_seq; lia)).
  rewrite forallb_forall in Htable.
  specialize (Htable k ltac:(apply in_seq; lia)).
  apply andb_true_iff in Htable. destruct Htable as [Hr Hp].
  apply andb_true_iff in Hr. destruct Hr as [H0 H1].
  apply Qle_bool_iff in H0, H1. apply Z.eqb_eq in Hp.
  split; [split; assumption|exact Hp].
Qed.

Lemma ta_lookup_nat {A} (a : list A) (k : nat) :
  ta_lookup a (Z.of_nat k) = a !! k.
Proof.
  unfold ta_lookup. destruct (Z.leb_spec 0 (Z.of_nat k)); [|lia].
  rewrite Nat2Z.id. reflexivity.
Qed.

Lemma ta_lookup_In {A} (a : list A) i v : ta_lookup a i = Some v -> In v a.
Proof.
  unfold ta_lookup. destruct (0 <=? i); [|discriminate].
  intros H. apply list_elem_of_In. eapply list_elem_of_lookup_2. exact H.
Qed.

Lemma ta_lookup_inside {A} (a : list A) i :
  0 <= i < Z.of_nat (length a) -> exists v, ta_lookup a i = Some v.
Proof.
  intros [H0 H1]. unfold ta_lookup. destruct (Z.leb_spec 0 i); [|lia].
  destruct (lookup_lt_is_Some_2 a (Z.to_nat i)) as [v Hv]; [lia|].
  exists v. exact Hv.
Qed.

Lemma choiceOf_In cands r :
  cands <> [] -> (length cands <= 8)%nat -> randomValue r ->
  In (choiceOf cands r) cands.
Proof.
  intros Hne Hmax Hr. unfold choiceOf.
  assert (Hlen : (0 < length cands)%nat) by (destruct cands; [congruence|simpl; lia]).
  destruct (Z.of_nat (length cands) =? 1).
  - destruct (ta_lookup_inside cands 0) as [v Hv]; [lia|].
    rewrite Hv. simpl. eapply ta_lookup_In, Hv.
  - destruct (ta_lookup_inside cands (pick_index (length cands) r)) as [v Hv].
    { apply pick_index_range; [exact Hlen| |exact Hr].
      assert (2 ^ 3 <= 2 ^ 53) by (apply Z.pow_le_mono_r; lia). lia. }
    rewrite Hv. simpl. eapply ta_lookup_In, Hv.
Qed.

Lemma choiceOf_reaches cands o :
  (length cands <= 8)%nat ->
  In o cands -> exists r, randomValue r /\ choiceOf cands r = o.
Proof.
  intros Hmax Hin. apply list_elem_of_In, list_elem_of_lookup_1 in Hin.
  destruct Hin as [k Hk].
  assert (Hklen : (k < length cands)%nat) by (eapply lookup_lt_Some; exact Hk).
  destruct (midRandom_picks (length cands) k ltac:(lia)) as [Hr Hp].
  exists (midRandom (length cands) k). split; [exact Hr|].
  unfold choiceOf. destruct (Z.eqb_spec (Z.of_nat (length cands)) 1) as [H1|H1].
  - assert (k = 0%nat) by lia. subst k.
    change 0 with (Z.of_nat 0). rewrite ta_lookup_nat, Hk. reflexivity.
  - rewrite Hp, ta_lookup_nat, Hk. reflexivity.
Qed.

Lemma ta_read_Forall (P : number -> Prop) (a : list number) i :
  Forall P a -> 0 <= i < Z.of_nat (length a) -> P (ta_read a i).
Proof.
  intros Ha Hi. destruct (ta_lookup_inside a i Hi) as [v Hv].
  unfold ta_read. rewrite Hv. simpl.
  rewrite Forall_forall in Ha. apply Ha.
  apply list_elem_of_In. eapply ta_lookup_In, Hv.
Qed.

(** ** Loops over the grid *)

Lemma fold_nested {S : Type} (f : S -> Z -> Z -> S) (xs ys : list Z) : forall s,
  fold_left (fun s y => fold_left (fun s x => f s x y) xs s) ys s =
  fold_left (fun s c => f s (fst c) (snd c))
            (flat_map (fun y => map (fun x => (x, y)) xs) ys) s.
Proof.
  induction ys as [|y ys IH]; intros s; simpl; [reflexivity|].
  rewrite fold_left_app, <- IH. f_equal.
  clear IH. revert s. induction xs as [|x xs IHx]; intros s; simpl; [reflexivity|].
  apply IHx.
Qed.

Lemma cellsFrom_In lo wHi hHi x y :
  In (x, y) (cellsFrom lo wHi hHi) <-> lo <= x < wHi /\ lo <= y < hHi.
Proof.
  unfold cellsFrom. rewrite in_flat_map. split.
  - intros [y' [Hy Hin]]. apply in_map_iff in Hin.
    destruct Hin as [x' [Heq Hx]]. inversion Heq; subst.
    apply zrange_In in Hy, Hx. lia.
  - intros [Hx Hy]. exists y. split; [apply zrange_In; exact Hy|].
    apply in_map_iff. exists x. split; [reflexivity|apply zrange_In; exact Hx].
Qed.

Lemma cellsFrom_NoDup lo wHi hHi : List.NoDup (cellsFrom lo wHi hHi).
Proof.
  unfold cellsFrom.
  generalize (zrange_NoDup lo hHi). generalize (zrange lo hHi) as ys.
  induction ys as [|y ys IH]; intros Hnd; simpl; [constructor|].
  inversion Hnd as [|? ? Hnotin Hnd']; subst.
  apply List.NoDup_app.
  - apply Stdlib.Lists.Finite.Injective_map_NoDup.
    + intros a b H. inversion H. reflexivity.
    + apply zrange_NoDup.
  - apply IH. exact Hnd'.
  - intros c Hc Hc'.
    apply in_map_iff in Hc. destruct Hc as [x [<- _]].
    apply in_flat_map in Hc'. destruct Hc' as [y' [Hy' Hin]].
    apply in_map_iff in Hin. destruct Hin as [x' [Heq _]].
    inversion Heq; subst. contradiction.
Qed.

Lemma fold_left_inv {S K : Type} (step : S -> K -> S) (I : S -> Prop) (l : list K) :
  (forall s k, In k l -> I s -> I (step s k)) ->
  forall s, I s -> I (fold_left step l s).
Proof.
  induction l as [|a l IH]; intros Hstep s Hs; simpl; [exact Hs|].
  apply IH.
  - intros s' k Hk. apply Hstep. right. exact Hk.
  - apply Hstep; [left; reflexivity|exact Hs].
Qed.

Lemma fold_left_at {S K : Type} (step : S -> K -> S) (I P : S -> Prop)
    (k : K) (l : list K) :
  List.NoDup l -> In k l ->
  (forall s k', In k' l -> I s -> I (step s k')) ->
  (forall s, I s -> P (step s k)) ->
  (forall s k', In k' l -> k' <> k -> I s -> P s -> P (step s k')) ->
  forall s, I s -> P (fold_left step l s).
Proof.
  induction l as [|a l IH]; intros Hnd Hin HI Hest Hpres s Hs; [destruct Hin|].
  inversion Hnd as [|? ? Hnotin Hnd']; subst. simpl.
  destruct Hin as [->|Hin].
  - assert (HIP : I (fold_left step l (step s k)) /\ P (fold_left step l (step s k))).
    { apply (fold_left_inv step (fun s => I s /\ P s)).
      - intros s' k' Hk' [HIs HPs]. split.
        + apply HI; [right; exact Hk'|exact HIs].
        + apply Hpres; [right; exact Hk'| |exact HIs|exact HPs].
          intros ->. contradiction.
      - split; [apply HI; [left; reflexivity|exact Hs]|apply Hest; exact Hs]. }
    apply HIP.
  - apply IH; try assumption.
    + intros s' k' Hk'. apply HI. right. exact Hk'.
    + intros s' k' Hk'. apply Hpres. right. exact Hk'.
    + apply HI; [left; reflexivity|exact Hs].
Qed.

Lemma cell_index_inj (w x y x' y' : Z) :
  0 <= x < w -> 0 <= x' < w -> y * w + x = y' * w + x' -> x = x' /\ y = y'.
Proof.
  intros Hx Hx' Heq.
  assert (Hy : y = y').
  { destruct (Z.lt_trichotomy y y') as [H|[H|H]]; [|exact H|].
    - assert ((y + 1) * w <= y' * w) by (apply Z.mul_le_mono_nonneg_r; lia). lia.
    - assert ((y' + 1) * w <= y * w) by (apply Z.mul_le_mono_nonneg_r; lia). lia. }
  subst y'. lia.
Qed.

Lemma cell_index_range (w h x y : Z) :
  0 <= x < w -> 0 <= y < h -> 0 <= y * w + x < w * h.
Proof.
  intros Hx Hy.
  assert (0 <= y * w) by (apply Z.mul_nonneg_nonneg; lia).
  assert ((y + 1) * w <= h * w) by (apply Z.mul_le_mono_nonneg_r; lia).
  lia.
Qed.

(** ** The gradient pass *)

Lemma ta_read_store_eq (a : Float32Array) i v :
  0 <= i < Z.of_nat (length a) -> ta_read (ta_store a i v) i = v.
Proof. intros H. unfold ta_read. rewrite ta_lookup_store_eq by exact H. reflexivity. Qed.

Lemma ta_read_store_ne (a : Float32Array) i j v :
  i <> j -> ta_read (ta_store a i v) j = ta_read a j.
Proof. intros H. unfold ta_read. rewrite ta_lookup_store_ne by exact H. reflexivity. Qed.

Lemma newFloat32Array_length n : length (newFloat32Array n) = Z.to_nat n.
Proof. unfold newFloat32Array. apply length_replicate. Qed.

Lemma newFloat32Array_read n i :
  0 <= i < n -> ta_read (newFloat32Array n) i = Num 0.
Proof.
  intros H. unfold ta_read, ta_lookup, newFloat32Array.
  destruct (Z.leb_spec 0 i); [|lia].
  rewrite lookup_replicate_2 by lia. reflexivity.
Qed.

Section Gradients.
Variable random : nat -> Q.
Variables (vib : Float32Array) (w h : Z) (rng0 : nat).
Hypothesis Hsize : w * h <= 2 ^ 30.

Lemma computeGradients_flat :
  computeGradients random w h vib rng0 =
  fold_left (cellStep random vib w) (cellsFrom 1 (w - 1) (h - 1))
            (newFloat32Array (w * h * 2), rng0).
Proof.
  unfold computeGradients, cellsFrom.
  apply (fold_nested (fun st x y => gradientCell random vib w st x y)).
Qed.

Lemma gradientCell_eq g rng x y :
  exists rng',
    (rng <= rng')%nat /\
    gradientCell random vib w (g, rng) x y =
    (ta_store
       (ta_store g (shl (y * w + x) 1)
          (Num (inject_Z (fst (cellChoice vib w x y (random rng))))))
       (shl (y * w + x) 1 + 1)
       (Num (inject_Z (snd (cellChoice vib w x y (random rng))))),
     rng').
Proof.
  unfold gradientCell, cellChoice, vibrationAt.
  destruct (num_lt (ta_read vib (y * w + x)) (Num MIN_NODE_THRESHOLD)).
  - exists rng. split; [lia|reflexivity].
  - pose proof (chooseGradient_fst random
      (candidateGradients (scanNeighbours vib w x y)) rng) as Hf.
    pose proof (chooseGradient_snd random
      (candidateGradients (scanNeighbours vib w x y)) rng) as Hs.
    destruct (chooseGradient random
      (candidateGradients (scanNeighbours vib w x y)) rng) as [c rng'].
    simpl in Hf, Hs. subst c. exists rng'. split; [lia|reflexivity].
Qed.

Lemma cellStep_inv st c : (gradInv w h rng0) st -> (gradInv w h rng0) ((cellStep random vib w) st c).
Proof.
  destruct st as [g rng]. intros [Hlen Hrng]. simpl in Hlen, Hrng.
  unfold cellStep.
  destruct (gradientCell_eq g rng (fst c) (snd c)) as [rng' [Hle ->]].
  split; simpl; [|lia].
  rewrite !ta_store_length. exact Hlen.
Qed.

Lemma cellStep_writes g rng x y :
  0 <= x < w -> 0 <= y < h -> (gradInv w h rng0) (g, rng) ->
  gradientAt (fst ((cellStep random vib w) (g, rng) (x, y))) w x y =
  offsetOf (cellChoice vib w x y (random rng)).
Proof.
  intros Hx Hy [Hlen _]. simpl in Hlen.
  change (cellStep random vib w (g, rng) (x, y)) with (gradientCell random vib w (g, rng) x y).
  destruct (gradientCell_eq g rng x y) as [rng' [_ ->]].
  cbv beta iota delta [fst].
  pose proof (cell_index_range w h x y Hx Hy) as Hi.
  rewrite shl_1 by lia.
  unfold gradientAt, offsetOf. f_equal.
  - rewrite ta_read_store_ne by lia.
    apply ta_read_store_eq. lia.
  - apply ta_read_store_eq. rewrite ta_store_length. lia.
Qed.

Lemma cellStep_other st x y x' y' :
  0 <= x < w -> 0 <= y < h -> 0 <= x' < w -> 0 <= y' < h ->
  (x', y') <> (x, y) ->
  gradientAt (fst ((cellStep random vib w) st (x', y'))) w x y = gradientAt (fst st) w x y.
Proof.
  intros Hx Hy Hx' Hy' Hne. destruct st as [g rng].
  change (cellStep random vib w (g, rng) (x', y')) with (gradientCell random vib w (g, rng) x' y').
  destruct (gradientCell_eq g rng x' y') as [rng' [_ ->]].
  cbv beta iota delta [fst].
  pose proof (cell_index_range w h x y Hx Hy) as Hi.
  pose proof (cell_index_range w h x' y' Hx' Hy') as Hi'.
  assert (Hidx : y' * w + x' <> y * w + x).
  { intros Heq. apply cell_index_inj in Heq; [|lia|lia].
    destruct Heq; subst. contradiction. }
  rewrite shl_1 by lia.
  unfold gradientAt. f_equal; rewrite !ta_read_store_ne by lia; reflexivity.
Qed.

Lemma interior_cell x y :
  In (x, y) (cellsFrom 1 (w - 1) (h - 1)) -> 0 <= x < w /\ 0 <= y < h.
Proof. rewrite cellsFrom_In. lia. Qed.

(** Border and other untouched cells keep the zero they were created with. *)
Lemma computeGradients_untouched x y :
  0 <= x < w -> 0 <= y < h ->
  ~ In (x, y) (cellsFrom 1 (w - 1) (h - 1)) ->
  gradientAt (fst (computeGradients random w h vib rng0)) w x y = (Num 0, Num 0).
Proof.
  intros Hx Hy Hnot. rewrite computeGradients_flat.
  apply (fold_left_inv (cellStep random vib w)
           (fun st => gradientAt (fst st) w x y = (Num 0, Num 0))).
  - intros st [x' y'] Hin Hst.
    destruct (interior_cell x' y' Hin) as [Hx' Hy'].
    rewrite cellStep_other; try assumption.
    intros Heq. inversion Heq; subst. contradiction.
  - simpl. pose proof (cell_index_range w h x y Hx Hy) as Hi.
    unfold gradientAt. rewrite !newFloat32Array_read by lia. reflexivity.
Qed.

Lemma computeGradients_cell x y :
  In (x, y) (cellsFrom 1 (w - 1) (h - 1)) ->
  exists k, (rng0 <= k)%nat /\
    gradientAt (fst (computeGradients random w h vib rng0)) w x y =
    offsetOf (cellChoice vib w x y (random k)).
Proof.
  intros Hin. rewrite computeGradients_flat.
  destruct (interior_cell x y Hin) as [Hx Hy].
  apply (fold_left_at (cellStep random vib w) (gradInv w h rng0)
           (fun st => exists k, (rng0 <= k)%nat /\
              gradientAt (fst st) w x y =
              offsetOf (cellChoice vib w x y (random k)))
           (x, y)).
  - apply cellsFrom_NoDup.
  - exact Hin.
  - intros st c _. apply cellStep_inv.
  - intros [g rng] HI. exists rng. split; [apply HI|].
    apply cellStep_writes; assumption.
  - intros st [x' y'] Hin' Hne _ [k [Hk Hg]].
    destruct (interior_cell x' y' Hin') as [Hx' Hy'].
    exists k. split; [exact Hk|].
    rewrite cellStep_other; assumption.
  - split; simpl; [|lia]. apply newFloat32Array_length.
Qed.

End Gradients.

(** ** The vibration pass *)

Lemma mul_sign_abs (v : Q) : (v * Math_sign v == Qabs v)%Q.
Proof.
  unfold Math_sign.
  destruct (Qlt_bool 0 v) eqn:Epos.
  - apply Qlt_bool_iff in Epos. rewrite Qabs_pos by lra. ring.
  - apply Qlt_bool_false in Epos.
    destruct (Qlt_bool v 0) eqn:Eneg.
    + apply Qlt_bool_iff in Eneg. rewrite Qabs_neg by lra. ring.
    + apply Qlt_bool_false in Eneg.
      assert (Hz : (v == 0)%Q) by lra.
      rewrite Hz. reflexivity.
Qed.

Lemma Qabs_half (v : Q) : (Qabs (v / 2) == Qabs v / 2)%Q.
Proof.
  unfold Qdiv. rewrite Qabs_Qmult. rewrite (Qabs_pos (/ 2)); [reflexivity|].
  discriminate.
Qed.

(** Adding the constant [R = 0] to a double gives the double back. *)
Lemma fl_add_0 (a b : Q) : fl_add (fl_mul a b) 0 = fl_mul a b.
Proof.
  unfold fl_add, fl_mul.
  rewrite (rnd_comp (rnd (a * b) + 0) (rnd (a * b))) by ring.
  apply rnd_idempotent.
Qed.

(** The code halves the difference and multiplies it by its own sign;
    in doubles this is the rounded half of the absolute value. *)
Lemma half_times_sign (raw : Q) :
  fl_mul (fl_div raw 2) (Math_sign (fl_div raw 2)) = fl_div (Qabs raw) 2.
Proof.
  unfold fl_mul, fl_div.
  rewrite (rnd_comp _ (Qabs (rnd (raw / 2)))) by apply mul_sign_abs.
  rewrite (rnd_comp _ (rnd (Qabs (raw / 2))))
    by (symmetry; apply rnd_abs).
  rewrite rnd_idempotent. apply rnd_comp, Qabs_half.
Qed.

Section Vibration.
Variable Math_cos : Q -> Q.
Variable random : nat -> Q.

Lemma vibrationValue_formula p TX TY x y :
  vibrationValue Math_cos p TX TY x y =
  chladniDouble Math_cos (m p) (n p) (l p) TX TY x y.
Proof.
  unfold vibrationValue, chladniDouble. cbv zeta.
  rewrite !fl_add_0. apply half_times_sign.
Qed.

Lemma vibrationValue_nonneg p TX TY x y :
  (0 <= vibrationValue Math_cos p TX TY x y)%Q.
Proof.
  rewrite vibrationValue_formula. unfold chladniDouble, fl_div. cbv zeta.
  apply rnd_nonneg.
  apply Qle_shift_div_l; [reflexivity|].
  rewrite Qmult_0_l. apply Qabs_nonneg.
Qed.

Variables (w h : Z) (p : ChladniParams) (rng : nat).

Lemma computeVibrationValues_flat :
  computeVibrationValues Math_cos random w h p rng =
  (fold_left (vibStep Math_cos random w h p rng) (cellsFrom 0 w h) (newFloat32Array (w * h)), S (S rng)).
Proof.
  unfold computeVibrationValues. f_equal.
  apply (fold_nested (fun vib x y =>
    Float32Array_set vib (y * w + x)
      (Num (vibrationValue Math_cos p (phaseX random h rng) (phaseY random h rng) x y)))).
Qed.

Lemma computeVibrationValues_length :
  length (fst (computeVibrationValues Math_cos random w h p rng)) = Z.to_nat (w * h).
Proof.
  rewrite computeVibrationValues_flat. simpl fst.
  apply (fold_left_inv (vibStep Math_cos random w h p rng) (fun vib => length vib = Z.to_nat (w * h))).
  - intros vib c _ Hl. unfold vibStep, Float32Array_set.
    rewrite ta_store_length. exact Hl.
  - apply newFloat32Array_length.
Qed.

Lemma computeVibrationValues_cell x y :
  0 <= x < w -> 0 <= y < h ->
  vibrationAt (fst (computeVibrationValues Math_cos random w h p rng)) w x y =
  Num (Math_fround
         (vibrationValue Math_cos p (phaseX random h rng) (phaseY random h rng) x y)).
Proof.
  intros Hx Hy. rewrite computeVibrationValues_flat. simpl fst.
  pose proof (cell_index_range w h x y Hx Hy) as Hi.
  apply (fold_left_at (vibStep Math_cos random w h p rng) (fun vib => length vib = Z.to_nat (w * h))
           (fun vib => vibrationAt vib w x y =
                       Num (Math_fround
                              (vibrationValue Math_cos p (phaseX random h rng)
                                 (phaseY random h rng) x y)))
           (x, y)).
  - apply cellsFrom_NoDup.
  - apply cellsFrom_In. lia.
  - intros vib c _ Hl. unfold vibStep, Float32Array_set.
    rewrite ta_store_length. exact Hl.
  - intros vib Hl. unfold vibStep, vibrationAt, Float32Array_set.
    simpl fst. simpl snd.
    rewrite ta_read_store_eq by lia. reflexivity.
  - intros vib [x' y'] Hin Hne Hl Hv.
    unfold vibStep, vibrationAt, Float32Array_set. simpl fst. simpl snd.
    apply cellsFrom_In in Hin.
    rewrite ta_read_store_ne; [exact Hv|].
    intros Heq. apply cell_index_inj in Heq; [|lia|lia].
    destruct Heq; subst. contradiction.
  - apply newFloat32Array_length.
Qed.

End Vibration.

(** ** One bake *)

Lemma recalculateGradients_eq cos random w h p rng :
  recalculateGradients cos random w h p rng =
  (fst (computeVibrationValues cos random w h p rng),
   fst (computeGradients random w h
          (fst (computeVibrationValues cos random w h p rng)) (S (S rng))),
   snd (computeGradients random w h
          (fst (computeVibrationValues cos random w h p rng)) (S (S rng)))).
Proof.
  unfold recalculateGradients.
  rewrite computeVibrationValues_flat. cbv beta iota. simpl fst.
  destruct (computeGradients _ _ _ _ _) as [g r]. reflexivity.
Qed.

Lemma neighbours_range o : In o neighbours -> -1 <= fst o <= 1 /\ -1 <= snd o <= 1.
Proof.
  intros H. each_neighbour H ltac:(simpl; lia).
Qed.

Lemma neighbours_NoDup : List.NoDup neighbours.
Proof.
  unfold neighbours.
  repeat (constructor; [simpl; intros H;
    repeat (destruct H as [H|H]; [discriminate|]); destruct H|]).
  constructor.
Qed.

Lemma scan_candidates vib w x y :
  wellRead vib w x y neighbours ->
  let cands := candidateGradients (scanNeighbours vib w x y) in
  cands <> [] /\ List.NoDup cands /\
  (forall o, In o cands <-> lowest vib w x y o).
Proof.
  intros Hw. pose proof (scanned_fold vib w x y neighbours Hw) as Hs.
  rewrite <- scanNeighbours_fold in Hs.
  unfold scanned in Hs. simpl neighbours in Hs.
  change [(-1, -1); (0, -1); (1, -1); (-1, 0); (1, 0); (-1, 1); (0, 1); (1, 1)]
    with neighbours in Hs.
  destruct Hs as [mn [_ [Hc [Hlow [om [Hom Heq]]]]]].
  unfold neighbourFinite in Hc, Hlow, Heq.
  cbv zeta. rewrite Hc.
  assert (Hin : forall o,
    In o (List.filter
            (fun o => Qle_bool (finiteValue (neighbourValue vib w x y o)) mn)
            neighbours) <-> lowest vib w x y o).
  { intros o. rewrite filter_In. split.
    - intros [Ho Hle]. split; [exact Ho|].
      intros o' Ho'. apply Qle_bool_iff in Hle.
      destruct (Hw o Ho) as [_ [v Hv]]. destruct (Hw o' Ho') as [_ [v' Hv']].
      specialize (Hlow o' Ho'). rewrite Hv in Hle. rewrite Hv' in Hlow.
      rewrite Hv, Hv'. simpl in *. apply Qle_bool_iff. lra.
    - intros [Ho Hmin]. split; [exact Ho|].
      specialize (Hmin om Hom).
      destruct (Hw o Ho) as [_ [v Hv]]. destruct (Hw om Hom) as [_ [v' Hv']].
      rewrite Hv, Hv' in Hmin. rewrite Hv' in Heq. rewrite Hv.
      simpl in *. apply Qle_bool_iff in Hmin. apply Qle_bool_iff. lra. }
  split; [|split].
  - intros Hnil.
    assert (Hmem : In om (List.filter
      (fun o => Qle_bool (finiteValue (neighbourValue vib w x y o)) mn) neighbours)).
    { apply filter_In. split; [exact Hom|]. apply Qle_bool_iff. lra. }
    rewrite Hnil in Hmem. destruct Hmem.
  - apply List.NoDup_filter. apply neighbours_NoDup.
  - exact Hin.
Qed.

Lemma offsetOf_nonzero o : In o neighbours -> offsetOf o <> (Num 0, Num 0).
Proof.
  intros H. each_neighbour H ltac:(discriminate).
Qed.

Lemma neighbours_not_origin o : In o neighbours -> o <> (0, 0).
Proof.
  intros H. each_neighbour H ltac:(discriminate).
Qed.

Lemma bakedVibration_eq cos random w h p rng :
  bakedVibration cos random w h p rng =
  fst (computeVibrationValues cos random w h p rng).
Proof. unfold bakedVibration. rewrite recalculateGradients_eq. reflexivity. Qed.

Lemma bakedGradients_eq cos random w h p rng :
  bakedGradients cos random w h p rng =
  fst (computeGradients random w h (bakedVibration cos random w h p rng) (S (S rng))).
Proof.
  rewrite bakedVibration_eq. unfold bakedGradients.
  rewrite recalculateGradients_eq. reflexivity.
Qed.

Lemma bakedVibration_agree cos random random' w h p rng :
  random' rng = random rng -> random' (S rng) = random (S rng) ->
  bakedVibration cos random' w h p rng = bakedVibration cos random w h p rng.
Proof.
  intros H0 H1. rewrite !bakedVibration_eq. unfold computeVibrationValues.
  rewrite H0, H1. reflexivity.
Qed.

Lemma baked_wellRead cos random w h p rng x y :
  1 <= x <= w - 2 -> 1 <= y <= h - 2 ->
  wellRead (bakedVibration cos random w h p rng) w x y neighbours.
Proof.
  intros Hx Hy o Ho. split; [exact Ho|].
  destruct (neighbours_range o Ho) as [Hf Hs].
  unfold neighbourValue. rewrite bakedVibration_eq.
  rewrite computeVibrationValues_cell by lia. eauto.
Qed.

(** C3.  In the gradients of a bake on a grid of at least 2x2 cells, every
    border cell holds [(0,0)]: the gradient pass creates the buffer zeroed
    and writes interior cells only.  The grid has at most [2^30] cells, the
    range in which the 32-bit shift [myIndex << 1] is the doubling the
    buffer layout needs. *)
Theorem border_zero cos random w h p rng x y :
  2 <= w -> 2 <= h -> w * h <= 2 ^ 30 ->
  0 <= x < w -> 0 <= y < h ->
  x = 0 \/ x = w - 1 \/ y = 0 \/ y = h - 1 ->
  gradientAt (bakedGradients cos random w h p rng) w x y = (Num 0, Num 0).
Proof.
  intros Hw Hh Hsize Hx Hy Hborder.
  rewrite bakedGradients_eq.
  apply computeGradients_untouched; try assumption.
  rewrite cellsFrom_In. lia.
Qed.

Lemma finite_wellRead vib w h x y :
  length vib = Z.to_nat (w * h) -> finiteBuffer vib ->
  1 <= x <= w - 2 -> 1 <= y <= h - 2 ->
  wellRead vib w x y neighbours.
Proof.
  intros Hlen Hfin Hx Hy o Ho. split; [exact Ho|].
  destruct (neighbours_range o Ho) as [Hf Hs].
  unfold neighbourValue, vibrationAt.
  apply (ta_read_Forall finiteNumber); [exact Hfin|].
  pose proof (cell_index_range w h (x + fst o) (y + snd o)
                ltac:(lia) ltac:(lia)).
  rewrite Hlen. lia.
Qed.

Lemma candidates_at_most_eight vib w x y :
  wellRead vib w x y neighbours ->
  (length (candidateGradients (scanNeighbours vib w x y)) <= 8)%nat.
Proof.
  intros Hw. destruct (scan_candidates vib w x y Hw) as [_ [Hnd Hin]].
  change 8%nat with (length neighbours).
  apply NoDup_incl_length; [exact Hnd|].
  intros o Ho. apply Hin in Ho. apply Ho.
Qed.

(** The vibration buffer of a bake is a buffer of numbers, one for each
    cell, and the gradients of the bake are the gradient pass run on it. *)
Lemma baked_finite cos random w h p rng :
  length (bakedVibration cos random w h p rng) = Z.to_nat (w * h) /\
  finiteBuffer (bakedVibration cos random w h p rng) /\
  bakedGradients cos random w h p rng =
  fst (computeGradients random w h (bakedVibration cos random w h p rng)
         (S (S rng))).
Proof.
  split; [|split].
  - rewrite bakedVibration_eq. apply computeVibrationValues_length.
  - rewrite bakedVibration_eq, computeVibrationValues_flat. simpl fst.
    apply (fold_left_inv (vibStep cos random w h p rng) finiteBuffer).
    + intros vib c _ Hv. unfold vibStep, Float32Array_set, ta_store.
      destruct (0 <=? snd c * w + fst c); [|exact Hv].
      apply Forall_insert; [exact Hv|]. simpl. eexists. reflexivity.
    + unfold newFloat32Array. apply Forall_forall.
      intros v Hin. apply elem_of_replicate in Hin. destruct Hin as [-> _].
      exists 0%Q. reflexivity.
  - apply bakedGradients_eq.
Qed.

(** C1.  The gradient pass on a grid whose vibration buffer holds a number
    for every cell (as the buffer of a bake does, lemma [baked_finite]).
    For an interior cell, with [v] its own vibration value: below the node
    threshold the stored direction is [(0,0)]; at or above it the stored
    direction is the offset of a neighbour whose vibration value is the
    minimum over the eight neighbours, it is never [(0,0)], it is the
    candidate that [choiceOf] picks, for the value of one call of
    [Math.random()], from the duplicate-free list of exactly the tied
    offsets, and every tied offset is the stored direction for some random
    source.  [Math.random()] returns doubles of [[0,1)] and the grid has at
    most [2^30] cells. *)
Theorem descent_selection random w h vib rng x y :
  (forall k, randomValue (random k)) ->
  w * h <= 2 ^ 30 ->
  length vib = Z.to_nat (w * h) -> finiteBuffer vib ->
  1 <= x <= w - 2 -> 1 <= y <= h - 2 ->
  let g := fst (computeGradients random w h vib rng) in
  exists v,
    vibrationAt vib w x y = Num v /\
    ((v < MIN_NODE_THRESHOLD)%Q -> gradientAt g w x y = (Num 0, Num 0)) /\
    ((MIN_NODE_THRESHOLD <= v)%Q ->
       (exists o, gradientAt g w x y = offsetOf o /\ lowest vib w x y o) /\
       gradientAt g w x y <> (Num 0, Num 0) /\
       (exists cands k,
          List.NoDup cands /\
          (forall o, In o cands <-> lowest vib w x y o) /\
          gradientAt g w x y = offsetOf (choiceOf cands (random k))) /\
       (forall o, lowest vib w x y o ->
          exists random',
            (forall k, randomValue (random' k)) /\
            gradientAt (fst (computeGradients random' w h vib rng)) w x y =
            offsetOf o)).
Proof.
  intros Hrandom Hsize Hlen Hfin Hx Hy g.
  assert (Hcell : In (x, y) (cellsFrom 1 (w - 1) (h - 1))).
  { apply cellsFrom_In. lia. }
  assert (Hv : exists v, vibrationAt vib w x y = Num v).
  { unfold vibrationAt. apply (ta_read_Forall finiteNumber); [exact Hfin|].
    pose proof (cell_index_range w h x y ltac:(lia) ltac:(lia)).
    rewrite Hlen. lia. }
  destruct Hv as [v Hv]. exists v. split; [exact Hv|].
  assert (Hgrad : forall source,
    exists k : nat, (rng <= k)%nat /\
      gradientAt (fst (computeGradients source w h vib rng)) w x y =
      offsetOf (cellChoice vib w x y (source k))).
  { intros source. apply computeGradients_cell; assumption. }
  destruct (Hgrad random) as [k [Hk Hg]]. fold g in Hg.
  split.
  - intros Hlt. rewrite Hg. unfold cellChoice. rewrite Hv.
    simpl num_lt. apply Qlt_bool_iff in Hlt. rewrite Hlt. reflexivity.
  - intros Hge.
    assert (Hchoice : forall r, cellChoice vib w x y r =
      choiceOf (candidateGradients (scanNeighbours vib w x y)) r).
    { intros r. unfold cellChoice. rewrite Hv. simpl num_lt.
      apply Qlt_bool_false in Hge. rewrite Hge. reflexivity. }
    assert (Hread : wellRead vib w x y neighbours).
    { apply (finite_wellRead vib w h); assumption. }
    destruct (scan_candidates vib w x y Hread) as [Hne [Hnd Hlow]].
    pose proof (candidates_at_most_eight vib w x y Hread) as Height.
    set (cands := candidateGradients (scanNeighbours vib w x y)) in *.
    rewrite Hchoice in Hg.
    assert (Hin : In (choiceOf cands (random k)) cands).
    { apply choiceOf_In; [exact Hne|exact Height|apply Hrandom]. }
    split; [|split; [|split]].
    + exists (choiceOf cands (random k)). split; [exact Hg|].
      apply Hlow. exact Hin.
    + rewrite Hg. apply offsetOf_nonzero. apply Hlow in Hin. apply Hin.
    + exists cands, k. split; [exact Hnd|split; [exact Hlow|exact Hg]].
    + intros o Ho. apply Hlow in Ho.
      destruct (choiceOf_reaches cands o Height Ho) as [r [Hr Hro]].
      exists (fun _ => r). split; [intros j; exact Hr|].
      destruct (Hgrad (fun _ => r)) as [k' [Hk' Hg']].
      rewrite Hg', Hchoice. fold cands. rewrite Hro. reflexivity.
Qed.

(** ** The vibration formula *)

(** C2 as stated fails: the buffer holds single-precision numbers.  With
    [Math.random()] returning [0] the phases are [0]; for the parameters
    [(1, 2, 0.04)] the formula at cell [(1,0)] is
    [|cos 0.08 - cos 0.04| / 2], a number of 44 significant bits, and the
    buffer holds the single-precision number nearest to it. *)
Lemma stored_value_is_rounded :
  exists v,
    vibrationAt (bakedVibration sampleCos zeroRandom 2 2 firstParams 0) 2 1 0
    = Num v /\
    (chladniFormula sampleCos (m firstParams) (n firstParams) (l firstParams)
       (phaseX zeroRandom 2 0) (phaseY zeroRandom 2 0) 1 0
     == 21602869920377 # 18014398509481984)%Q /\
    (v == 10301051 # 8589934592)%Q /\
    ~ (v == chladniFormula sampleCos (m firstParams) (n firstParams)
              (l firstParams) (phaseX zeroRandom 2 0) (phaseY zeroRandom 2 0)
              1 0)%Q.
Proof.
  exists (10301051 # 8589934592)%Q.
  split; [vm_compute; reflexivity|].
  split; [vm_compute; reflexivity|].
  split; [reflexivity|].
  intros H. vm_compute in H. discriminate H.
Qed.

(** C2, amended.  A bake draws its two phase offsets once, as the first
    two values of [Math.random()] times the height, so both lie in
    [[0, height)]; the value stored for every cell [(x, y)] of the grid is
    the single-precision number nearest to the interference formula
    [|cos(n sx) cos(m sy) - cos(m sx) cos(n sy)| / 2] evaluated in double
    arithmetic at those offsets, and it is non-negative.  [cos] is any
    function of the doubles; the height is below [2^53]. *)
Theorem vibration_formula cos random w h p rng x y :
  (forall k, randomValue (random k)) ->
  h <= 2 ^ 53 ->
  0 <= x < w -> 0 <= y < h ->
  snd (computeVibrationValues cos random w h p rng) = S (S rng) /\
  (0 <= phaseX random h rng < inject_Z h)%Q /\
  (0 <= phaseY random h rng < inject_Z h)%Q /\
  exists v,
    vibrationAt (bakedVibration cos random w h p rng) w x y = Num v /\
    v = Math_fround
          (chladniDouble cos (m p) (n p) (l p)
             (phaseX random h rng) (phaseY random h rng) x y) /\
    (0 <= v)%Q.
Proof.
  intros Hrandom Hh Hx Hy.
  split; [reflexivity|].
  split; [|split].
  - unfold phaseX. apply fl_mul_random; [apply Hrandom|lia].
  - unfold phaseY. apply fl_mul_random; [apply Hrandom|lia].
  - eexists. split; [|split].
    + rewrite bakedVibration_eq. apply computeVibrationValues_cell; assumption.
    + rewrite vibrationValue_formula. reflexivity.
    + apply fround_nonneg, vibrationValue_nonneg.
Qed.

Lemma fold_left_from {S K : Type} (step : S -> K -> S) (B P : S -> Prop)
    (k : K) (l : list K) :
  List.NoDup l -> In k l ->
  (forall s k', In k' l -> k' <> k -> B s -> B (step s k')) ->
  (forall s, B s -> P (step s k)) ->
  (forall s k', In k' l -> k' <> k -> P s -> P (step s k')) ->
  forall s, B s -> P (fold_left step l s).
Proof.
  induction l as [|a l IH]; intros Hnd Hin HB Hest Hpres s Hs; [destruct Hin|].
  inversion Hnd as [|? ? Hnotin Hnd']; subst. simpl.
  destruct Hin as [->|Hin].
  - apply (fold_left_inv step P).
    + intros s' k' Hk' HP. apply Hpres; [right; exact Hk'| |exact HP].
      intros ->. contradiction.
    + apply Hest. exact Hs.
  - apply IH; try assumption.
    + intros s' k' Hk'. apply HB. right. exact Hk'.
    + intros s' k' Hk'. apply Hpres. right. exact Hk'.
    + apply HB; [left; reflexivity| |exact Hs].
      intros ->. contradiction.
Qed.

Lemma particleIndices_In len i :
  In i (App.particleIndices len) <-> exists k, i = 2 * k /\ 0 <= k /\ 2 * k < len.
Proof.
  unfold App.particleIndices. rewrite in_map_iff. split.
  - intros [k [<- Hk]]. apply zrange_In in Hk. exists k.
    split; [reflexivity|]. split; [lia|].
    assert (H2 : 2 * ((len + 1) / 2) <= len + 1) by (apply Z.mul_div_le; lia).
    lia.
  - intros [k [-> [H0 Hk]]]. exists k. split; [reflexivity|].
    apply zrange_In. split; [lia|].
    assert (H2 : len + 1 < 2 * ((len + 1) / 2) + 2).
    { pose proof (Z.mod_pos_bound (len + 1) 2 ltac:(lia)).
      pose proof (Z.div_mod (len + 1) 2 ltac:(lia)). lia. }
    lia.
Qed.

Lemma particleIndices_NoDup len : List.NoDup (App.particleIndices len).
Proof.
  unfold App.particleIndices. apply Stdlib.Lists.Finite.Injective_map_NoDup.
  - intros a b H. lia.
  - apply zrange_NoDup.
Qed.

(** ** The particle loop *)

Section Frame.
Variable random : nat -> Q.
Variable rgbToVal : number -> number -> number -> Z.
Variable a : App.ChladniApp.

Lemma fillBuffer_length :
  length (App.fillBuffer rgbToVal a) = length (App.buffer a).
Proof.
  unfold App.fillBuffer.
  destruct (App.debugVibration a); [destruct (App.vibrationValues a) as [vib|]|].
  - apply (fold_left_inv _ (fun b : Uint32Array => length b = length (App.buffer a))).
    + intros b i _ Hb. rewrite ta_store_length. exact Hb.
    + reflexivity.
  - apply length_replicate.
  - apply length_replicate.
Qed.

Lemma advance_ext ps ps' rng i :
  ta_read ps i = ta_read ps' i -> ta_read ps (i + 1) = ta_read ps' (i + 1) ->
  App.advance random a ps rng i = App.advance random a ps' rng i.
Proof. intros H0 H1. unfold App.advance. rewrite H0, H1. reflexivity. Qed.

Lemma advance_rng ps rng i :
  snd (App.advance random a ps rng i) = S (S rng).
Proof.
  unfold App.advance.
  destruct (App.gradients a) as [g|]; [|reflexivity].
  destruct (App.obtainGradientAt g (App.width a) (ta_read ps i) (ta_read ps (i + 1))).
  reflexivity.
Qed.

Lemma advance_y_NaN ps rng i :
  ta_read ps (i + 1) = NaN -> snd (fst (App.advance random a ps rng i)) = NaN.
Proof.
  intros H. unfold App.advance. rewrite H.
  destruct (App.gradients a) as [g|]; [|reflexivity].
  destruct (App.obtainGradientAt g (App.width a) (ta_read ps i) NaN).
  reflexivity.
Qed.

Lemma particleStep_eq color ps buf rng i :
  App.particleStep random a color (ps, buf, rng) i =
  (Float32Array_set (Float32Array_set ps i (movedX random a ps rng i))
     (i + 1) (movedY random a ps rng i),
   App.raster buf (drawnCell random a ps rng i) color,
   S (S rng)).
Proof.
  unfold App.particleStep, drawnCell, movedX, movedY.
  pose proof (advance_rng ps rng i) as Hr.
  destruct (App.advance random a ps rng i) as [[x y] r]. simpl in *.
  subst r. reflexivity.
Qed.

Lemma raster_length buf idx color :
  length (App.raster buf idx color) = length buf.
Proof. destruct idx; simpl; [apply ta_store_length|reflexivity]. Qed.

Lemma particleStep_lengths color ps buf rng i :
  length (fst (fst (App.particleStep random a color (ps, buf, rng) i))) = length ps /\
  length (snd (fst (App.particleStep random a color (ps, buf, rng) i))) = length buf.
Proof.
  rewrite particleStep_eq. unfold Float32Array_set. simpl.
  rewrite !ta_store_length, raster_length. auto.
Qed.

Lemma particleStep_other color ps buf rng k k' :
  k' <> k ->
  ta_read (fst (fst (App.particleStep random a color (ps, buf, rng) (2 * k')))) (2 * k)
  = ta_read ps (2 * k) /\
  ta_read (fst (fst (App.particleStep random a color (ps, buf, rng) (2 * k'))))
          (2 * k + 1)
  = ta_read ps (2 * k + 1).
Proof.
  intros Hne. rewrite particleStep_eq. unfold Float32Array_set. simpl.
  rewrite !ta_read_store_ne by lia. auto.
Qed.

Lemma particleStep_self color ps buf rng k :
  0 <= k -> 2 * k < Z.of_nat (length ps) ->
  ta_read (fst (fst (App.particleStep random a color (ps, buf, rng) (2 * k)))) (2 * k)
  = toFloat32 (movedX random a ps rng (2 * k)) /\
  ta_read (fst (fst (App.particleStep random a color (ps, buf, rng) (2 * k))))
          (2 * k + 1)
  = toFloat32 (movedY random a ps rng (2 * k)).
Proof.
  intros H0 Hk. rewrite particleStep_eq. unfold Float32Array_set. simpl. split.
  - rewrite ta_read_store_ne by lia. apply ta_read_store_eq. lia.
  - destruct (Z.lt_ge_cases (2 * k + 1) (Z.of_nat (length ps))) as [Hin|Hout].
    + apply ta_read_store_eq. rewrite ta_store_length. lia.
    + rewrite ta_store_outside by (rewrite ta_store_length; lia).
      rewrite ta_read_store_ne by lia.
      assert (Hn : ta_read ps (2 * k + 1) = NaN).
      { unfold ta_read. rewrite ta_lookup_None by lia. reflexivity. }
      rewrite Hn. unfold movedY. rewrite (advance_y_NaN ps rng (2 * k) Hn).
      reflexivity.
Qed.

Lemma raster_lookup buf idx color j :
  ta_lookup (App.raster buf idx color) j = ta_lookup buf j \/
  (idx = Some j /\ 0 <= j < Z.of_nat (length buf) /\
   ta_lookup (App.raster buf idx color) j = Some (App.ToUint32 color)).
Proof.
  destruct idx as [i|]; simpl; [|left; reflexivity].
  destruct (Z.eq_dec i j) as [->|Hne].
  - destruct (Z.lt_ge_cases j 0) as [Hneg|Hpos].
    + left. rewrite ta_store_outside by lia. reflexivity.
    + destruct (Z.lt_ge_cases j (Z.of_nat (length buf))) as [Hin|Hout].
      * right. split; [reflexivity|]. split; [lia|].
        apply ta_lookup_store_eq. lia.
      * left. rewrite ta_store_outside by lia. reflexivity.
  - left. apply ta_lookup_store_ne. exact Hne.
Qed.

End Frame.

Section Loop.
Variable random : nat -> Q.
Variable a : App.ChladniApp.
Variables (P0 : Float32Array) (B0 : Uint32Array) (rng0 : nat).

Lemma frameTrace_fold (l : list Z) :
  List.NoDup l -> particleSlots (Z.of_nat (length P0)) l ->
  frameTrace random a P0 B0 rng0 l
    (fold_left (App.particleStep random a (frameColor a)) l (P0, B0, rng0)).
Proof.
  induction l as [|i0 l IH] using rev_ind; intros Hnd Hslots.
  - simpl. constructor; simpl; try reflexivity; try lia.
    + intros k _. split; reflexivity.
    + intros j. left. reflexivity.
  - rewrite fold_left_app. simpl fold_left.
    assert (Hnd1 : List.NoDup l) by (eapply NoDup_app_remove_r; exact Hnd).
    assert (Hnotin : ~ In i0 l).
    { intros Hin. apply NoDup_remove_2 in Hnd. rewrite app_nil_r in Hnd.
      contradiction. }
    assert (Hslots1 : particleSlots (Z.of_nat (length P0)) l).
    { intros i Hi. apply Hslots. apply in_or_app. left. exact Hi. }
    destruct (Hslots i0) as [k0 [-> [Hk0 Hk0len]]];
      [apply in_or_app; right; left; reflexivity|].
    specialize (IH Hnd1 Hslots1).
    destruct (fold_left (App.particleStep random a (frameColor a)) l (P0, B0, rng0))
      as [[ps1 buf1] r1] eqn:Efold.
    destruct IH as [Hrng Hpl Hbl Hpend Hdone Hcells].
    cbn [fst snd] in Hrng, Hpl, Hbl, Hpend, Hdone, Hcells.
    pose proof (particleStep_eq random a (frameColor a) ps1 buf1 r1 (2 * k0)) as Heq.
    pose proof (particleStep_lengths random a (frameColor a) ps1 buf1 r1 (2 * k0))
      as [Hl1 Hl2].
    pose proof (particleStep_self random a (frameColor a) ps1 buf1 r1 k0 Hk0
                  ltac:(lia)) as [Hsx Hsy].
    assert (Hadv : App.advance random a ps1 r1 (2 * k0) =
                   App.advance random a P0 r1 (2 * k0)).
    { destruct (Hpend k0 Hnotin) as [Ha Hb]. apply advance_ext; assumption. }
    assert (Hmx : movedX random a ps1 r1 (2 * k0) = movedX random a P0 r1 (2 * k0))
      by (unfold movedX; rewrite Hadv; reflexivity).
    assert (Hmy : movedY random a ps1 r1 (2 * k0) = movedY random a P0 r1 (2 * k0))
      by (unfold movedY; rewrite Hadv; reflexivity).
    assert (Hdc : drawnCell random a ps1 r1 (2 * k0) =
                  drawnCell random a P0 r1 (2 * k0))
      by (unfold drawnCell; rewrite Hmx, Hmy; reflexivity).
    assert (Hother : forall i, In i l ->
      ta_read (fst (fst (App.particleStep random a (frameColor a)
                           (ps1, buf1, r1) (2 * k0)))) i = ta_read ps1 i /\
      ta_read (fst (fst (App.particleStep random a (frameColor a)
                           (ps1, buf1, r1) (2 * k0)))) (i + 1) = ta_read ps1 (i + 1)).
    { intros i Hi. destruct (Hslots1 i Hi) as [k [-> _]].
      apply particleStep_other. intros ->. contradiction. }
    assert (Hbuf : snd (fst (App.particleStep random a (frameColor a)
                               (ps1, buf1, r1) (2 * k0))) =
      App.raster buf1 (drawnCell random a P0 r1 (2 * k0)) (frameColor a)).
    { rewrite Heq, Hdc. reflexivity. }
    constructor.
    + rewrite Heq. simpl. rewrite Hrng, length_app. simpl. lia.
    + rewrite Hl1. exact Hpl.
    + rewrite Hl2. exact Hbl.
    + intros k Hk.
      assert (Hkl : ~ In (2 * k) l).
      { intros Hin. apply Hk. apply in_or_app. left. exact Hin. }
      assert (Hne : k0 <> k).
      { intros ->. apply Hk. apply in_or_app. right. left. reflexivity. }
      destruct (particleStep_other random a (frameColor a) ps1 buf1 r1 k k0 Hne)
        as [Ha Hb].
      rewrite Ha, Hb. apply Hpend. exact Hkl.
    + intros i Hi. apply in_app_or in Hi. destruct Hi as [Hi|[<-|[]]].
      * destruct (Hother i Hi) as [Ha Hb]. rewrite Ha, Hb.
        destruct (Hdone i Hi) as [n [Hn [Hx [Hy Hr]]]].
        exists n. split; [exact Hn|]. split; [exact Hx|]. split; [exact Hy|].
        intros idx Hidx Hrange. rewrite Hbuf.
        destruct (raster_lookup buf1 (drawnCell random a P0 r1 (2 * k0))
          (frameColor a) idx) as [Hsame|[_ [_ Hnew]]].
        -- rewrite Hsame. apply Hr; assumption.
        -- exact Hnew.
      * exists r1. split; [lia|]. rewrite Hsx, Hsy, Hmx, Hmy.
        split; [reflexivity|]. split; [reflexivity|].
        intros idx Hidx Hrange. rewrite Hbuf, Hidx. simpl.
        apply ta_lookup_store_eq. lia.
    + intros j. rewrite Hbuf.
      destruct (raster_lookup buf1 (drawnCell random a P0 r1 (2 * k0))
        (frameColor a) j) as [Hsame|[Hidx [_ Hnew]]].
      * rewrite Hsame. destruct (Hcells j) as [Hfill|[Hc [i [d [Hi [Hd Hri]]]]]].
        -- left. exact Hfill.
        -- right. split; [exact Hc|]. exists i, d.
           split; [apply in_or_app; left; exact Hi|]. split; assumption.
      * right. split; [exact Hnew|]. exists (2 * k0), r1.
        split; [apply in_or_app; right; left; reflexivity|].
        split; [lia|exact Hidx].
Qed.

End Loop.

Section Update.
Variable random : nat -> Q.
Variable rgbToVal : number -> number -> number -> Z.
Variable a : App.ChladniApp.
Variable rng : nat.
Hypothesis running : App.isRunning a = true.

Lemma update_running :
  App.particles (fst (App.update random rgbToVal a rng)) =
    fst (fst (fold_left (App.particleStep random a (frameColor a))
                (App.particleIndices (Z.of_nat (length (App.particles a))))
                (App.particles a, App.fillBuffer rgbToVal a, rng))) /\
  App.buffer (fst (App.update random rgbToVal a rng)) =
    snd (fst (fold_left (App.particleStep random a (frameColor a))
                (App.particleIndices (Z.of_nat (length (App.particles a))))
                (App.particles a, App.fillBuffer rgbToVal a, rng))).
Proof.
  unfold App.update. rewrite running. simpl negb. cbv iota.
  fold (frameColor a).
  destruct (fold_left _ _ _) as [[ps buf] r]. simpl. auto.
Qed.

Lemma update_trace :
  frameTrace random a (App.particles a) (App.fillBuffer rgbToVal a) rng
    (App.particleIndices (Z.of_nat (length (App.particles a))))
    (fold_left (App.particleStep random a (frameColor a))
       (App.particleIndices (Z.of_nat (length (App.particles a))))
       (App.particles a, App.fillBuffer rgbToVal a, rng)).
Proof.
  apply frameTrace_fold.
  - apply particleIndices_NoDup.
  - intros i Hi. apply particleIndices_In in Hi. exact Hi.
Qed.

Lemma update_particle (k : Z) :
  0 <= k -> 2 * k < Z.of_nat (length (App.particles a)) ->
  let a' := fst (App.update random rgbToVal a rng) in
  exists d : nat,
    ta_read (App.particles a') (2 * k) =
      toFloat32 (movedX random a (App.particles a) d (2 * k)) /\
    ta_read (App.particles a') (2 * k + 1) =
      toFloat32 (movedY random a (App.particles a) d (2 * k)) /\
    forall idx,
      drawnCell random a (App.particles a) d (2 * k) = Some idx ->
      0 <= idx < Z.of_nat (length (App.buffer a)) ->
      ta_lookup (App.buffer a') idx = Some (App.ToUint32 (frameColor a)).
Proof.
  intros Hk Hlen a'. destruct update_running as [Hp Hb].
  unfold a'. rewrite Hp, Hb.
  destruct update_trace as [_ _ _ _ Hdone _].
  destruct (Hdone (2 * k)) as [n [_ [Hx [Hy Hr]]]].
  { apply particleIndices_In. exists k. auto. }
  exists n. split; [exact Hx|]. split; [exact Hy|].
  intros idx Hidx Hrange. apply Hr; [exact Hidx|].
  rewrite fillBuffer_length. exact Hrange.
Qed.

End Update.

(** ** Jitter *)

Lemma jitterPrimitive_derivable c : derivable (jitterPrimitive c).
Proof. unfold jitterPrimitive. reg. Qed.

Lemma jitterPrimitive_derive c x :
  derive_pt (jitterPrimitive c) x (jitterPrimitive_derivable c x) = jitterR c x.
Proof.
  apply derive_pt_eq_0.
  unfold jitterPrimitive, jitterR.
  assert (H : derivable_pt_lim (fun r => r * r * c / 2 - r * c / 2)%R x
                (((1 * x + x * 1) * c) / 2 - (1 * c) / 2)%R).
  { apply derivable_pt_lim_minus.
    - unfold Rdiv. apply derivable_pt_lim_scal_right.
      apply derivable_pt_lim_scal_right.
      apply derivable_pt_lim_mult; apply derivable_pt_lim_id.
    - unfold Rdiv. apply derivable_pt_lim_scal_right.
      apply derivable_pt_lim_scal_right. apply derivable_pt_lim_id. }
  replace (x * c - c / 2)%R with ((1 * x + x * 1) * c / 2 - 1 * c / 2)%R
    by Lra.lra.
  exact H.
Qed.

Lemma jitterR_continuity c : continuity (jitterR c).
Proof. unfold jitterR. reg. Qed.

(** The mean of the jitter over a uniform random value in [[0,1]]. *)
Lemma jitterR_integral c (pr : Riemann_integrable (jitterR c) 0 1) :
  RiemannInt pr = 0%R.
Proof.
  assert (Hcont : continuity
            (derive (jitterPrimitive c) (jitterPrimitive_derivable c))).
  { intros x.
    assert (E : forall y,
      derive (jitterPrimitive c) (jitterPrimitive_derivable c) y = jitterR c y).
    { intros y. unfold derive. apply jitterPrimitive_derive. }
    intros eps Heps. destruct (jitterR_continuity c x eps Heps) as [d [Hd Hc]].
    exists d. split; [exact Hd|]. intros y Hy. rewrite !E. apply Hc. exact Hy. }
  set (F := mkC1 Hcont).
  assert (pr' : Riemann_integrable (derive F (diff0 F)) 0 1).
  { apply continuity_implies_RiemannInt; [Lra.lra|]. intros x _. apply Hcont. }
  rewrite (RiemannInt_P18 pr pr').
  - rewrite (FTC_Riemann F pr'). simpl. unfold jitterPrimitive. Lra.lra.
  - Lra.lra.
  - intros x _. simpl. unfold derive. symmetry. apply jitterPrimitive_derive.
Qed.

Lemma jitter_real (c r : Q) :
  Q2R (r * c - c / 2) = jitterR (Q2R c) (Q2R r).
Proof.
  unfold jitterR.
  rewrite Q2R_minus, Q2R_mult.
  unfold Qdiv. rewrite Q2R_mult, Q2R_inv by discriminate.
  unfold Rdiv. f_equal.
  replace (Q2R 2) with 2%R by (unfold Q2R; simpl; Lra.lra). reflexivity.
Qed.

Lemma belowOne_le_1 : (belowOne <= 1)%Q.
Proof. vm_compute. discriminate. Qed.

(** The jitter lies between minus and plus half the intensity, both ends
    included. *)
Lemma jitter_range (a : App.ChladniApp) (r : Q) :
  randomValue r ->
  (0 <= App.vibrationIntensity a)%Q ->
  isDouble (App.vibrationIntensity a) ->
  isDouble (App.halfVibrationIntensity a) ->
  (App.halfVibrationIntensity a == App.vibrationIntensity a / 2)%Q ->
  (- (App.vibrationIntensity a / 2) <= App.jitter a r
   <= App.vibrationIntensity a / 2)%Q.
Proof.
  intros [Hr0 Hr1] Hpos HI HH Hhalf. unfold App.jitter, fl_sub, fl_mul.
  unfold isDouble in HI, HH.
  pose proof belowOne_le_1 as Hb.
  set (I := App.vibrationIntensity a) in *.
  set (H := App.halfVibrationIntensity a) in *.
  clearbody I H.
  assert (Hd : (I / 2 == I * (1 # 2))%Q) by (unfold Qdiv; reflexivity).
  assert (Hlo : (0 <= r * I)%Q) by (apply Qmult_le_0_compat; assumption).
  assert (Hhi : (r * I <= I)%Q).
  { apply Qle_trans with (1 * I)%Q;
      [apply Qmult_le_compat_r; [Lqa.lra|exact Hpos]|].
    rewrite Qmult_1_l. apply Qle_refl. }
  assert (A0 : (0 <= rnd (r * I))%Q) by (apply rnd_nonneg; exact Hlo).
  assert (A1 : (rnd (r * I) <= I)%Q) by (apply rnd_fixed_le; assumption).
  set (A := rnd (r * I)) in *. clearbody A.
  rewrite <- Hhalf. split.
  - apply rnd_fixed_ge; [Lqa.lra|].
    rewrite rnd_opp. rewrite HH. reflexivity.
  - apply rnd_fixed_le; [|exact HH].
    rewrite Hhalf, Hd in *. Lqa.lra.
Qed.

(** A position below [2^18] that moves by a double of at most [h], with
    [1/16 <= h <= 2^17], is stored at most [2 h] away. *)
Lemma stored_step (p j h : Q) :
  (Qabs p <= inject_Z (2 ^ 18))%Q ->
  (1 # 16 <= h)%Q -> (h <= inject_Z (2 ^ 17))%Q ->
  (- h <= j <= h)%Q ->
  (Qabs (Math_fround (fl_add p j) - p) <= 2 * h)%Q.
Proof.
  intros Hp Hh1 Hh2 [Hj1 Hj2].
  apply Qabs_Qle_condition in Hp. destruct Hp as [Hp1 Hp2].
  change (inject_Z (2 ^ 18)) with 262144%Q in *.
  change (inject_Z (2 ^ 17)) with 131072%Q in *.
  destruct (stored_near (p + j)) as [Hn1 Hn2].
  { change (inject_Z (2 ^ 19)) with 524288%Q.
    apply Qabs_Qle_condition. split; Lqa.lra. }
  unfold fl_add. apply Qabs_Qle_condition.
  set (s := Math_fround (rnd (p + j))) in *. clearbody s.
  split; Lqa.lra.
Qed.

(** C9 as stated fails.  With intensity [3], a particle at [x = 0.5] and
    [Math.random()] returning the greatest double below [1], the product
    rounds to [3 - 2^-51], the jitter is [1.5 - 2^-51] and the array stores
    [2]: the displacement is [1.5], the upper end of the range, which the
    claim excludes.  With the intensity [2^-23 - 2^-75] and a particle at
    [x = 1 + 2^-23] the sum rounds to a double half way between two
    single-precision numbers and the array stores [1 + 2^-22]: the
    displacement [2^-23] exceeds the intensity. *)
Lemma jitter_reaches_the_upper_end :
  let a' := fst (App.update topRandom noDebugColor driftApp 0) in
  let b' := fst (App.update topRandom noDebugColor faintApp 0) in
  randomValue (topRandom 0) /\
  App.gradients driftApp = None /\
  ta_read (App.particles driftApp) 0 = Num (1 # 2) /\
  sameNumber (ta_read (App.particles a') 0) (Num 2) = true /\
  ~ (2 - (1 # 2) < App.vibrationIntensity driftApp / 2)%Q /\
  App.gradients faintApp = None /\
  ta_read (App.particles faintApp) 0 = Num (1 + pow2 (-23)) /\
  sameNumber (ta_read (App.particles b') 0) (Num (1 + pow2 (-22))) = true /\
  ~ (Qabs (1 + pow2 (-22) - (1 + pow2 (-23)))
     <= App.vibrationIntensity faintApp)%Q.
Proof.
  cbv zeta.
  split; [split; vm_compute; discriminate|].
  split; [reflexivity|]. split; [reflexivity|].
  split; [vm_compute; reflexivity|].
  split; [intros H; vm_compute in H; discriminate H|].
  split; [reflexivity|]. split; [reflexivity|].
  split; [vm_compute; reflexivity|].
  intros H. vm_compute in H. apply H. reflexivity.
Qed.

(** C9, amended.  One frame update of a running application that holds no
    gradients moves a particle with a finite position, on each axis, by a
    jitter: the double [r * intensity - intensity / 2] computed in double
    arithmetic from one value [r] of [Math.random()] (two consecutive calls
    for the two axes), added to the position in double arithmetic and
    stored in single precision.  The jitter lies in
    [[-intensity/2, intensity/2]], both ends included.  For an intensity
    between [1/8] and [2^18] and a position below [2^18] in absolute value
    the stored position is at most the intensity away from the old one.
    The jitter is the rounding of an affine function of [r] whose mean
    over a uniform [r] in [[0,1]] (its Riemann integral) is [0].  The two
    intensity fields hold doubles. *)
Theorem jitter_bound random rgbToVal a rng k px py :
  (forall j, randomValue (random j)) ->
  App.isRunning a = true ->
  App.gradients a = None ->
  (1 # 8 <= App.vibrationIntensity a)%Q ->
  (App.vibrationIntensity a <= inject_Z (2 ^ 18))%Q ->
  isDouble (App.vibrationIntensity a) ->
  isDouble (App.halfVibrationIntensity a) ->
  (App.halfVibrationIntensity a == App.vibrationIntensity a / 2)%Q ->
  0 <= k -> 2 * k + 1 < Z.of_nat (length (App.particles a)) ->
  ta_read (App.particles a) (2 * k) = Num px ->
  ta_read (App.particles a) (2 * k + 1) = Num py ->
  (Qabs px <= inject_Z (2 ^ 18))%Q ->
  (Qabs py <= inject_Z (2 ^ 18))%Q ->
  let a' := fst (App.update random rgbToVal a rng) in
  let intensity := App.vibrationIntensity a in
  (exists (d : nat) (px' py' : Q),
     ta_read (App.particles a') (2 * k) = Num px' /\
     ta_read (App.particles a') (2 * k + 1) = Num py' /\
     px' = Math_fround (fl_add px (App.jitter a (random d))) /\
     py' = Math_fround (fl_add py (App.jitter a (random (S d)))) /\
     (- (intensity / 2) <= App.jitter a (random d) <= intensity / 2)%Q /\
     (- (intensity / 2) <= App.jitter a (random (S d)) <= intensity / 2)%Q /\
     (Qabs (px' - px) <= intensity)%Q /\
     (Qabs (py' - py) <= intensity)%Q) /\
  (forall r : Q,
     App.jitter a r = rnd (rnd (r * intensity) - App.halfVibrationIntensity a) /\
     Q2R (r * intensity - intensity / 2) = jitterR (Q2R intensity) (Q2R r)) /\
  (forall pr : Riemann_integrable (jitterR (Q2R intensity)) 0 1,
     RiemannInt pr = 0%R).
Proof.
  intros Hrandom Hrun Hgrad Hlow Hhigh HI HH Hhalf Hk Hlen Hpx Hpy Bx By
         a' intensity.
  split; [|split].
  - destruct (update_particle random rgbToVal a rng Hrun k Hk ltac:(lia))
      as [d [Hx [Hy _]]].
    fold a' in Hx, Hy.
    unfold movedX, movedY, App.advance in Hx, Hy.
    rewrite Hgrad, Hpx, Hpy in Hx, Hy. simpl in Hx, Hy.
    assert (Hpos : (0 <= App.vibrationIntensity a)%Q) by Lqa.lra.
    pose proof (jitter_range a (random d) (Hrandom d) Hpos HI HH Hhalf) as Hrx.
    pose proof (jitter_range a (random (S d)) (Hrandom (S d)) Hpos HI HH Hhalf)
      as Hry.
    fold intensity in Hrx, Hry, Hlow, Hhigh.
    assert (Hd : (intensity / 2 == intensity * (1 # 2))%Q)
      by (unfold Qdiv; reflexivity).
    assert (H16 : (1 # 16 <= intensity / 2)%Q) by (rewrite Hd; Lqa.lra).
    assert (H17 : (intensity / 2 <= inject_Z (2 ^ 17))%Q).
    { change (inject_Z (2 ^ 18)) with 262144%Q in Hhigh.
      change (inject_Z (2 ^ 17)) with 131072%Q. rewrite Hd. Lqa.lra. }
    assert (E2 : (2 * (intensity / 2) == intensity)%Q) by (field).
    exists d, (Math_fround (fl_add px (App.jitter a (random d)))),
              (Math_fround (fl_add py (App.jitter a (random (S d))))).
    split; [exact Hx|]. split; [exact Hy|].
    split; [reflexivity|]. split; [reflexivity|].
    split; [exact Hrx|]. split; [exact Hry|].
    split.
    + rewrite <- E2. apply stored_step; assumption.
    + rewrite <- E2. apply stored_step; assumption.
  - intros r. split; [reflexivity|apply jitter_real].
  - intros pr. apply jitterR_integral.
Qed.

(** ** Particles outside the canvas *)

Lemma num_add_NaN_r a : num_add a NaN = NaN.
Proof. destruct a; reflexivity. Qed.





(** ** The worker schedule *)

Section WorkerFacts.
Variable cos : Q -> Q.
Variable random : nat -> Q.

Lemma bake_resonant c :
  Worker.isResonantRound (Worker.this c) = true ->
  exists message,
    resonantMessage message /\
    Worker.posted (Worker.bakeNextGradients cos random c) =
      Worker.posted c ++ [message] /\
    Worker.isResonantRound (Worker.this (Worker.bakeNextGradients cos random c))
      = false /\
    Worker.intervals (Worker.bakeNextGradients cos random c) = Worker.intervals c.
Proof.
  intros Hres. unfold Worker.bakeNextGradients. rewrite Hres.
  destruct (recalculateGradients cos random _ _ _ _) as [[vib grad] rng1].
  simpl. eexists. split; [|split; [reflexivity|split; reflexivity]].
  repeat split; simpl; discriminate.
Qed.

Lemma bake_rest c :
  Worker.isResonantRound (Worker.this c) = false ->
  exists message,
    restMessage message /\
    Worker.posted (Worker.bakeNextGradients cos random c) =
      Worker.posted c ++ [message] /\
    Worker.isResonantRound (Worker.this (Worker.bakeNextGradients cos random c))
      = true /\
    Worker.intervals (Worker.bakeNextGradients cos random c) = Worker.intervals c.
Proof.
  intros Hres. unfold Worker.bakeNextGradients. rewrite Hres. simpl.
  rewrite Hres. eexists. split; [|split; [reflexivity|split; reflexivity]].
  repeat split.
Qed.

Lemma bake_posts c :
  exists message,
    paired message /\
    Worker.posted (Worker.bakeNextGradients cos random c) =
      Worker.posted c ++ [message].
Proof.
  destruct (Worker.isResonantRound (Worker.this c)) eqn:E.
  - destruct (bake_resonant c E) as [msg [[_ [Hv Hg]] [Hp _]]].
    exists msg. split; [|exact Hp]. split; intros H; contradiction.
  - destruct (bake_rest c E) as [msg [[_ [Hv Hg]] [Hp _]]].
    exists msg. split; [|exact Hp]. split; intros _; assumption.
Qed.

Lemma receive_shape c message :
  exists c1 h,
    Worker.isResonantRound (Worker.this c1) = true /\
    Worker.posted c1 = Worker.posted c /\
    Worker.posted (Worker.receiveUpdateFromMainThread cos random c message) =
      Worker.posted (Worker.bakeNextGradients cos random c1) /\
    Worker.isResonantRound
      (Worker.this (Worker.receiveUpdateFromMainThread cos random c message)) =
      Worker.isResonantRound (Worker.this (Worker.bakeNextGradients cos random c1)) /\
    Worker.bakingTimer
      (Worker.this (Worker.receiveUpdateFromMainThread cos random c message)) =
      Some h /\
    existsb (Nat.eqb h)
      (armed (Worker.intervals
                (Worker.receiveUpdateFromMainThread cos random c message))) = true.
Proof.
  unfold Worker.receiveUpdateFromMainThread.
  name_baked_context c1.
  exists c1, (nextHandle (Worker.intervals (Worker.bakeNextGradients cos random c1))).
  simpl. repeat split.
  rewrite existsb_app. simpl. rewrite Nat.eqb_refl. simpl. apply orb_true_r.
Qed.

End WorkerFacts.

Lemma workerStep_posts cos random c e :
  Forall paired (Worker.posted c) ->
  Forall paired (Worker.posted (workerStep cos random c e)).
Proof.
  intros Hc. destruct e as [message|h]; unfold workerStep.
  - destruct (receive_shape cos random c message)
      as [c1 [h [_ [Hp [Hposted _]]]]].
    rewrite Hposted.
    destruct (bake_posts cos random c1) as [msg [Hpair ->]].
    rewrite Hp. apply Forall_app. split; [exact Hc|].
    constructor; [exact Hpair|constructor].
  - unfold Worker.timerFires.
    destruct (existsb _ _); [|exact Hc].
    destruct (bake_posts cos random c) as [msg [Hpair ->]].
    apply Forall_app. split; [exact Hc|].
    constructor; [exact Hpair|constructor].
Qed.

(** C5.  After the worker of index.js handles a reconfiguration message,
    the message it posts at once carries both buffers and the moderate
    intensity [3]; the one posted when the armed timer fires next carries
    two nulls and the aggressive intensity [4.5]; the one after that
    carries both buffers again.  In every context the worker can reach,
    each posted message has both buffers or neither. *)
Theorem alternation cos random c message :
  let c1 := Worker.receiveUpdateFromMainThread cos random c message in
  (exists h m1 m2 m3,
     Worker.bakingTimer (Worker.this c1) = Some h /\
     Worker.posted c1 = Worker.posted c ++ [m1] /\
     Worker.posted (Worker.timerFires cos random c1 h) =
       Worker.posted c ++ [m1; m2] /\
     Worker.posted
       (Worker.timerFires cos random (Worker.timerFires cos random c1 h) h) =
       Worker.posted c ++ [m1; m2; m3] /\
     resonantMessage m1 /\ restMessage m2 /\ resonantMessage m3) /\
  MODERATE_RANDOM_VIBRATION_INTENSITY = 3%Q /\
  (AGGRESSIVE_RANDOM_VIBRATION_INTENSITY == 45 # 10)%Q /\
  (forall events, Forall paired (Worker.posted (workerRun cos random events))).
Proof.
  intros c1. split; [|split; [reflexivity|split; [reflexivity|]]].
  - destruct (receive_shape cos random c message)
      as [c0 [h [Hres0 [Hp0 [Hposted [Hround [Htimer Harmed]]]]]]].
    fold c1 in Hposted, Hround, Htimer, Harmed.
    destruct (bake_resonant cos random c0 Hres0) as [m1 [Hm1 [Hp1 [Hr1 _]]]].
    rewrite Hr1 in Hround. rewrite Hp1, Hp0 in Hposted.
    destruct (bake_rest cos random c1 Hround) as [m2 [Hm2 [Hp2 [Hr2 Hi2]]]].
    destruct (bake_resonant cos random _ Hr2) as [m3 [Hm3 [Hp3 _]]].
    exists h, m1, m2, m3.
    assert (Hfire1 : Worker.timerFires cos random c1 h =
                     Worker.bakeNextGradients cos random c1).
    { unfold Worker.timerFires. rewrite Harmed. reflexivity. }
    assert (Hfire2 : Worker.timerFires cos random
                       (Worker.bakeNextGradients cos random c1) h =
                     Worker.bakeNextGradients cos random
                       (Worker.bakeNextGradients cos random c1)).
    { unfold Worker.timerFires. rewrite Hi2, Harmed. reflexivity. }
    rewrite Hfire1, Hfire2, Hp3, Hp2, Hposted.
    rewrite <- !app_assoc. simpl. repeat split; try assumption; apply Hm1 || apply Hm2 || apply Hm3.
  - intros events. unfold workerRun.
    apply (fold_left_inv (workerStep cos random)
             (fun ctx => Forall paired (Worker.posted ctx))).
    + intros s e _. apply workerStep_posts.
    + constructor.
Qed.

(** ** Reconfiguration and parameter records *)

Lemma worker_bake_frame cos random c :
  Worker.width (Worker.this (Worker.bakeNextGradients cos random c)) =
    Worker.width (Worker.this c) /\
  Worker.height (Worker.this (Worker.bakeNextGradients cos random c)) =
    Worker.height (Worker.this c) /\
  Worker.currentParams (Worker.this (Worker.bakeNextGradients cos random c)) =
    Worker.currentParams (Worker.this c).
Proof.
  unfold Worker.bakeNextGradients.
  destruct (Worker.isResonantRound (Worker.this c)).
  - destruct (recalculateGradients cos random _ _ _ _) as [[vib grad] rng1].
    simpl. auto.
  - simpl. auto.
Qed.

Lemma worker_receive_fields cos random c message :
  let c' := Worker.receiveUpdateFromMainThread cos random c message in
  Worker.width (Worker.this c') = Worker.msg_width message /\
  Worker.height (Worker.this c') = Worker.msg_height message /\
  Worker.currentParams (Worker.this c') =
    match Worker.msg_chladniParams message with
    | Some p => mkChladniParams (m p) (n p) (l p)
    | None => Worker.currentParams (Worker.this c)
    end.
Proof.
  unfold Worker.receiveUpdateFromMainThread.
  name_baked_context c1.
  destruct (worker_bake_frame cos random c1) as [Hw [Hh Hp]].
  unfold setInterval.
  cbn [Worker.this Worker.width Worker.height Worker.currentParams].
  rewrite Hw, Hh, Hp. unfold c1. simpl. auto.
Qed.


Lemma frequency_bake_frame cos random c :
  FrequencyWorker.width
    (FrequencyWorker.this (FrequencyWorker.bakeNextGradients cos random c)) =
    FrequencyWorker.width (FrequencyWorker.this c) /\
  FrequencyWorker.height
    (FrequencyWorker.this (FrequencyWorker.bakeNextGradients cos random c)) =
    FrequencyWorker.height (FrequencyWorker.this c) /\
  FrequencyWorker.currentFrequency
    (FrequencyWorker.this (FrequencyWorker.bakeNextGradients cos random c)) =
    FrequencyWorker.currentFrequency (FrequencyWorker.this c).
Proof.
  unfold FrequencyWorker.bakeNextGradients.
  destruct (FrequencyWorker.isResonantRound (FrequencyWorker.this c)).
  - destruct (ta_lookup _ _) as [p0|]; [|simpl; auto].
    destruct (recalculateGradients cos random _ _ _ _) as [[vib grad] rng1].
    simpl. auto.
  - simpl. auto.
Qed.

Lemma frequency_receive_fields cos random c message :
  let c' := FrequencyWorker.receiveUpdateFromMainThread cos random c message in
  FrequencyWorker.width (FrequencyWorker.this c') =
    match FrequencyWorker.msg_width message with
    | Some v => Some v
    | None => FrequencyWorker.width (FrequencyWorker.this c)
    end /\
  FrequencyWorker.height (FrequencyWorker.this c') =
    match FrequencyWorker.msg_height message with
    | Some v => Some v
    | None => FrequencyWorker.height (FrequencyWorker.this c)
    end /\
  FrequencyWorker.currentFrequency (FrequencyWorker.this c') =
    match FrequencyWorker.msg_frequency message with
    | Some f => f
    | None => FrequencyWorker.currentFrequency (FrequencyWorker.this c)
    end.
Proof.
  unfold FrequencyWorker.receiveUpdateFromMainThread.
  name_baked_context c1.
  destruct (frequency_bake_frame cos random c1) as [Hw [Hh Hp]].
  unfold setInterval.
  cbn [FrequencyWorker.this FrequencyWorker.width FrequencyWorker.height
       FrequencyWorker.currentFrequency].
  rewrite Hw, Hh, Hp. unfold c1. simpl. auto.
Qed.

(** The table of shared records after one bake of the frequency worker. *)
Lemma frequency_bake_table cos random c :
  FrequencyWorker.table (FrequencyWorker.bakeNextGradients cos random c) =
  if FrequencyWorker.isResonantRound (FrequencyWorker.this c) then
    match ta_lookup (FrequencyWorker.table c)
            (FrequencyWorker.gradientParametersIndex (FrequencyWorker.this c)) with
    | Some p0 =>
        ta_store (FrequencyWorker.table c)
          (FrequencyWorker.gradientParametersIndex (FrequencyWorker.this c))
          (FrequencyWorker.set_l p0
             (FrequencyWorker.currentFrequency (FrequencyWorker.this c)))
    | None => FrequencyWorker.table c
    end
  else FrequencyWorker.table c.
Proof.
  unfold FrequencyWorker.bakeNextGradients.
  destruct (FrequencyWorker.isResonantRound (FrequencyWorker.this c)).
  - destruct (ta_lookup _ _) as [p0|]; [|reflexivity].
    destruct (recalculateGradients cos random _ _ _ _) as [[vib grad] rng1].
    reflexivity.
  - reflexivity.
Qed.


(** C7, as amended.  A round of the worker of index.js leaves its parameter
    record as it is, and so does a rest round of the frequency worker with
    every record of the shared table.  A resonant round of the frequency
    worker writes the current frequency into the [l] of the record it
    bakes with, which keeps its [m] and [n], and leaves every other record
    of the table as it is. *)
Theorem bake_parameter_frame cos random :
  (forall c,
     Worker.currentParams (Worker.this (Worker.bakeNextGradients cos random c)) =
     Worker.currentParams (Worker.this c)) /\
  (forall c,
     FrequencyWorker.isResonantRound (FrequencyWorker.this c) = false ->
     FrequencyWorker.table (FrequencyWorker.bakeNextGradients cos random c) =
     FrequencyWorker.table c) /\
  (forall c p0,
     FrequencyWorker.isResonantRound (FrequencyWorker.this c) = true ->
     ta_lookup (FrequencyWorker.table c)
       (FrequencyWorker.gradientParametersIndex (FrequencyWorker.this c))
       = Some p0 ->
     ta_lookup
       (FrequencyWorker.table (FrequencyWorker.bakeNextGradients cos random c))
       (FrequencyWorker.gradientParametersIndex (FrequencyWorker.this c))
       = Some (mkChladniParams (m p0) (n p0)
                 (FrequencyWorker.currentFrequency (FrequencyWorker.this c))) /\
     forall j,
       j <> FrequencyWorker.gradientParametersIndex (FrequencyWorker.this c) ->
       ta_lookup
         (FrequencyWorker.table (FrequencyWorker.bakeNextGradients cos random c)) j
       = ta_lookup (FrequencyWorker.table c) j).
Proof.
  split; [|split].
  - intros c. apply worker_bake_frame.
  - intros c Hres. rewrite frequency_bake_table, Hres. reflexivity.
  - intros c p0 Hres Hidx. rewrite frequency_bake_table, Hres, Hidx. split.
    + apply ta_lookup_store_eq. eapply ta_lookup_Some. exact Hidx.
    + intros j Hne. apply ta_lookup_store_ne. congruence.
Qed.

(** C7 as stated fails on the frequency worker: the first record of the
    shared table is created with [l = 0.04], and the bake that follows a
    message with frequency [0.02] leaves it with [l = 0.02]. *)
Lemma shared_record_mutated :
  let c' := FrequencyWorker.receiveUpdateFromMainThread
              (fun q => q) (fun _ => 0%Q)
              FrequencyWorker.constructor frequencyMessage in
  ta_lookup (FrequencyWorker.table FrequencyWorker.constructor) 0 =
    Some (mkChladniParams 1 2 (lit (4 # 100))) /\
  ta_lookup (FrequencyWorker.table c') 0 =
    Some (mkChladniParams 1 2 (lit (2 # 100))) /\
  lit (4 # 100) <> lit (2 # 100).
Proof. vm_compute. repeat split. discriminate. Qed.

(** In every context the frequency worker can reach, the index of the next
    parameter record lies inside the table, so the lookup of a resonant
    round never misses. *)
Lemma frequency_bake_index cos random c :
  0 <= FrequencyWorker.gradientParametersIndex (FrequencyWorker.this c)
    < Z.of_nat (length (FrequencyWorker.table c)) ->
  0 <= FrequencyWorker.gradientParametersIndex
         (FrequencyWorker.this (FrequencyWorker.bakeNextGradients cos random c))
    < Z.of_nat (length (FrequencyWorker.table
                          (FrequencyWorker.bakeNextGradients cos random c))).
Proof.
  intros Hidx. unfold FrequencyWorker.bakeNextGradients.
  destruct (FrequencyWorker.isResonantRound (FrequencyWorker.this c)).
  - destruct (ta_lookup_inside (FrequencyWorker.table c)
                (FrequencyWorker.gradientParametersIndex (FrequencyWorker.this c))
                Hidx) as [p0 Hp0].
    rewrite Hp0.
    destruct (recalculateGradients cos random _ _ _ _) as [[vib grad] rng1].
    simpl. rewrite ta_store_length.
    rewrite Z.rem_mod_nonneg by lia. apply Z.mod_pos_bound. lia.
  - simpl. exact Hidx.
Qed.

Lemma index_in_table cos random events :
  let c := frequencyRun cos random events in
  0 <= FrequencyWorker.gradientParametersIndex (FrequencyWorker.this c)
    < Z.of_nat (length (FrequencyWorker.table c)).
Proof.
  unfold frequencyRun.
  apply (fold_left_inv (frequencyStep cos random)
    (fun c =>
       0 <= FrequencyWorker.gradientParametersIndex (FrequencyWorker.this c)
         < Z.of_nat (length (FrequencyWorker.table c)))).
  - intros c e _ Hc. destruct e as [message|h]; unfold frequencyStep.
    + unfold FrequencyWorker.receiveUpdateFromMainThread.
      name_baked_context c1.
      assert (H1 : 0 <= FrequencyWorker.gradientParametersIndex
                          (FrequencyWorker.this c1)
                     < Z.of_nat (length (FrequencyWorker.table c1))) by exact Hc.
      apply (frequency_bake_index cos random) in H1.
      unfold setInterval.
      cbn [FrequencyWorker.this FrequencyWorker.gradientParametersIndex
           FrequencyWorker.table].
      exact H1.
    + unfold FrequencyWorker.timerFires.
      destruct (existsb _ _); [|exact Hc].
      apply frequency_bake_index. exact Hc.
  - simpl. lia.
Qed.

(** ** Deliveries to the application *)

Lemma onMessage_colors a message :
  App.colors (App.onMessageFromWorker a message) = App.colors a.
Proof.
  unfold App.onMessageFromWorker. destruct (msg_gradients message); reflexivity.
Qed.

Lemma onMessage_particles a message :
  App.particles (App.onMessageFromWorker a message) = App.particles a.
Proof.
  unfold App.onMessageFromWorker. destruct (msg_gradients message); reflexivity.
Qed.

Lemma onMessage_colorIndex a message :
  App.colorIndex (App.onMessageFromWorker a message) =
  if isFresh message
  then Z.rem (App.colorIndex a + 1) (Z.of_nat (length (App.colors a)))
  else App.colorIndex a.
Proof.
  unfold App.onMessageFromWorker, isFresh.
  destruct (msg_gradients message); reflexivity.
Qed.

Lemma freshCount_nonneg messages : 0 <= freshCount messages.
Proof.
  induction messages as [|message rest IH]; simpl; [lia|].
  destruct (isFresh message); lia.
Qed.

Lemma deliverAll_colorIndex messages : forall a,
  App.colors a <> [] ->
  0 <= App.colorIndex a < Z.of_nat (length (App.colors a)) ->
  App.colorIndex (deliverAll a messages) =
  (App.colorIndex a + freshCount messages) mod Z.of_nat (length (App.colors a)).
Proof.
  induction messages as [|message rest IH]; intros a Hne Hr.
  - simpl. rewrite Z.add_0_r, Z.mod_small; lia.
  - unfold deliverAll. simpl fold_left.
    fold (deliverAll (App.onMessageFromWorker a message) rest).
    rewrite IH.
    + rewrite onMessage_colors, onMessage_colorIndex. simpl freshCount.
      destruct (isFresh message).
      * rewrite Z.rem_mod_nonneg by lia.
        rewrite Zplus_mod_idemp_l. f_equal. lia.
      * f_equal.
    + rewrite onMessage_colors. exact Hne.
    + rewrite onMessage_colors, onMessage_colorIndex.
      destruct (isFresh message); [|lia].
      rewrite Z.rem_mod_nonneg by lia. apply Z.mod_pos_bound. lia.
Qed.

(** C8.  Starting from colour index 0 and a non-empty palette, after any
    sequence of deliveries the colour index is the number of deliveries
    that carried a field, modulo the palette length; deliveries without a
    field may be interleaved freely and do not count. *)
Theorem color_cycle (a : App.ChladniApp) (messages : list FieldMessage) :
  App.colors a <> [] ->
  App.colorIndex a = 0 ->
  App.colorIndex (deliverAll a messages) =
  freshCount messages mod Z.of_nat (length (App.colors a)).
Proof.
  intros Hne H0. rewrite deliverAll_colorIndex.
  - rewrite H0. reflexivity.
  - exact Hne.
  - rewrite H0. destruct (App.colors a); [congruence|simpl; lia].
Qed.

Lemma color_cycle_witness :
  App.colorIndex
    (deliverAll paletteApp
       [ mkFieldMessage 3 (Some []) (Some []);
         mkFieldMessage (45 # 10) None None;
         mkFieldMessage 3 (Some []) (Some []);
         mkFieldMessage 3 (Some []) (Some []);
         mkFieldMessage (45 # 10) None None;
         mkFieldMessage 3 (Some []) (Some []) ]) = 4 mod 3.
Proof.
  apply (color_cycle paletteApp
           [ mkFieldMessage 3 (Some []) (Some []);
             mkFieldMessage (45 # 10) None None;
             mkFieldMessage 3 (Some []) (Some []);
             mkFieldMessage 3 (Some []) (Some []);
             mkFieldMessage (45 # 10) None None;
             mkFieldMessage 3 (Some []) (Some []) ]).
  - simpl. discriminate.
  - reflexivity.
Defined.

(** C10.  A delivery whose two buffers are null replaces the held buffers
    by null and the intensity by the one of the message (with its half),
    and leaves the colour index, the selected colour and every other field
    as they were; more generally the colour index and the selected colour
    change only on a delivery that carries gradients. *)
Theorem rest_round_frame (a : App.ChladniApp) (message : FieldMessage) :
  msg_vibrationValues message = None ->
  msg_gradients message = None ->
  let a' := App.onMessageFromWorker a message in
  (App.vibrationValues a' = None /\
   App.gradients a' = None /\
   App.vibrationIntensity a' = msg_vibrationIntensity message /\
   App.halfVibrationIntensity a' = (msg_vibrationIntensity message / 2)%Q /\
   App.colorIndex a' = App.colorIndex a /\
   App.selectedColor a' = App.selectedColor a /\
   App.colors a' = App.colors a /\
   App.particles a' = App.particles a /\
   App.buffer a' = App.buffer a) /\
  (forall b other,
     App.colorIndex (App.onMessageFromWorker b other) <> App.colorIndex b \/
     App.selectedColor (App.onMessageFromWorker b other) <> App.selectedColor b ->
     msg_gradients other <> None).
Proof.
  intros Hv Hg a'. split.
  - unfold a', App.onMessageFromWorker. rewrite Hv, Hg. simpl.
    repeat split.
  - intros b other Hchange Hnone.
    unfold App.onMessageFromWorker in Hchange. rewrite Hnone in Hchange.
    simpl in Hchange. destruct Hchange as [H|H]; apply H; reflexivity.
Qed.

Lemma rest_round_frame_witness :
  App.gradients
    (App.onMessageFromWorker wrapApp (mkFieldMessage (45 # 10) None None))
  = None /\
  App.colorIndex
    (App.onMessageFromWorker wrapApp (mkFieldMessage (45 # 10) None None))
  = App.colorIndex wrapApp.
Proof.
  destruct (rest_round_frame wrapApp (mkFieldMessage (45 # 10) None None)
              eq_refl eq_refl) as [[_ [Hg [_ [_ [Hc _]]]]] _].
  split; [exact Hg|exact Hc].
Defined.

(** ** Witnesses *)

Lemma zeroRandom_value : forall k, randomValue (zeroRandom k).
Proof. intros k. split; vm_compute; discriminate. Qed.

Lemma centredRandom_value : forall k, randomValue (centredRandom k).
Proof. intros k. split; vm_compute; discriminate. Qed.

Lemma topRandom_value : forall k, randomValue (topRandom k).
Proof. intros k. split; vm_compute; discriminate. Qed.

Lemma wrapVibration_finite : finiteBuffer wrapVibration.
Proof.
  unfold finiteBuffer, wrapVibration. simpl.
  repeat (constructor; [eexists; reflexivity|]). constructor.
Qed.

Lemma descent_selection_witness :
  vibrationAt wrapVibration 4 1 2 = Num (1 # 2) /\
  (MIN_NODE_THRESHOLD <= 1 # 2)%Q /\
  (exists o,
     gradientAt (fst (computeGradients centredRandom 4 4 wrapVibration 0)) 4 1 2
     = offsetOf o /\
     lowest wrapVibration 4 1 2 o) /\
  gradientAt (fst (computeGradients centredRandom 4 4 wrapVibration 0)) 4 1 2
  <> (Num 0, Num 0) /\
  (forall o, lowest wrapVibration 4 1 2 o ->
     exists random',
       (forall k, randomValue (random' k)) /\
       gradientAt (fst (computeGradients random' 4 4 wrapVibration 0)) 4 1 2
       = offsetOf o).
Proof.
  assert (Hge : (MIN_NODE_THRESHOLD <= 1 # 2)%Q) by (vm_compute; discriminate).
  destruct (descent_selection centredRandom 4 4 wrapVibration 0 1 2
              centredRandom_value ltac:(lia) eq_refl wrapVibration_finite
              ltac:(lia) ltac:(lia))
    as [v [Hv [_ Hat]]].
  assert (Ev : v = (1 # 2)%Q) by (injection Hv; intros E; symmetry; exact E).
  rewrite Ev in Hat.
  destruct (Hat Hge) as [Hlow [Hnz [_ Hall]]].
  split; [reflexivity|]. split; [exact Hge|].
  split; [exact Hlow|]. split; [exact Hnz|exact Hall].
Defined.

Lemma vibration_formula_witness :
  (0 <= phaseX zeroRandom 2 0 < inject_Z 2)%Q /\
  exists v,
    vibrationAt (bakedVibration sampleCos zeroRandom 2 2 firstParams 0) 2 1 0
    = Num v /\
    v = Math_fround
          (chladniDouble sampleCos 1 2 (lit (4 # 100))
             (phaseX zeroRandom 2 0) (phaseY zeroRandom 2 0) 1 0) /\
    (0 <= v)%Q.
Proof.
  destruct (vibration_formula sampleCos zeroRandom 2 2 firstParams 0 1 0
              zeroRandom_value ltac:(lia) ltac:(lia) ltac:(lia))
    as [_ [Hpx [_ Hv]]].
  split; [exact Hpx|exact Hv].
Defined.

Lemma border_zero_witness :
  gradientAt (bakedGradients identityCos zeroRandom 3 3 firstParams 0) 3 0 0
  = (Num 0, Num 0).
Proof.
  apply (border_zero identityCos zeroRandom 3 3 firstParams 0 0 0);
    try lia.
Defined.


Lemma jitter_bound_witness :
  exists (d : nat) (px' : Q),
    ta_read
      (App.particles (fst (App.update topRandom noDebugColor driftApp 0))) 0
    = Num px' /\
    px' = Math_fround (fl_add (1 # 2) (App.jitter driftApp (topRandom d))) /\
    (- (3 / 2) <= App.jitter driftApp (topRandom d) <= 3 / 2)%Q /\
    (Qabs (px' - (1 # 2)) <= 3)%Q.
Proof.
  assert (Hlow : (1 # 8 <= App.vibrationIntensity driftApp)%Q)
    by (vm_compute; discriminate).
  assert (Hhigh : (App.vibrationIntensity driftApp <= inject_Z (2 ^ 18))%Q)
    by (vm_compute; discriminate).
  assert (HI : isDouble (App.vibrationIntensity driftApp))
    by (vm_compute; reflexivity).
  assert (HH : isDouble (App.halfVibrationIntensity driftApp))
    by (vm_compute; reflexivity).
  assert (Hhalf : (App.halfVibrationIntensity driftApp ==
                   App.vibrationIntensity driftApp / 2)%Q)
    by (vm_compute; reflexivity).
  assert (Hlen : 2 * 0 + 1 < Z.of_nat (length (App.particles driftApp)))
    by (simpl; lia).
  assert (Bx : (Qabs (1 # 2) <= inject_Z (2 ^ 18))%Q)
    by (vm_compute; discriminate).
  destruct (jitter_bound topRandom noDebugColor driftApp 0 0 (1 # 2) (1 # 2)
              topRandom_value eq_refl eq_refl Hlow Hhigh HI HH Hhalf
              ltac:(lia) Hlen eq_refl eq_refl Bx Bx)
    as [[d [px' [py' [Hx [_ [Ex [_ [Hjx [_ [Hax _]]]]]]]]]] _].
  exists d, px'.
  split; [exact Hx|]. split; [exact Ex|]. split; [exact Hjx|exact Hax].
Defined.

Lemma bake_parameter_frame_witness :
  FrequencyWorker.gradientParametersIndex (FrequencyWorker.this retunedWorker)
  = 1 /\
  FrequencyWorker.currentFrequency (FrequencyWorker.this retunedWorker)
  = lit (2 # 100) /\
  ta_lookup (FrequencyWorker.table retunedWorker) 1 =
    Some (mkChladniParams 1 3 (lit (18 # 1000))) /\
  ta_lookup
    (FrequencyWorker.table
       (FrequencyWorker.bakeNextGradients identityCos zeroRandom retunedWorker))
    (FrequencyWorker.gradientParametersIndex (FrequencyWorker.this retunedWorker))
  = Some (mkChladniParams 1 3
            (FrequencyWorker.currentFrequency
               (FrequencyWorker.this retunedWorker))) /\
  ta_lookup
    (FrequencyWorker.table
       (FrequencyWorker.bakeNextGradients identityCos zeroRandom retunedWorker))
    0
  = ta_lookup (FrequencyWorker.table retunedWorker) 0.
Proof.
  assert (Hres : FrequencyWorker.isResonantRound
                   (FrequencyWorker.this retunedWorker) = true)
    by (vm_compute; reflexivity).
  assert (Hi : FrequencyWorker.gradientParametersIndex
                 (FrequencyWorker.this retunedWorker) = 1)
    by (vm_compute; reflexivity).
  assert (Hf : FrequencyWorker.currentFrequency
                 (FrequencyWorker.this retunedWorker) = lit (2 # 100))
    by (vm_compute; reflexivity).
  assert (Hidx : ta_lookup (FrequencyWorker.table retunedWorker)
                   (FrequencyWorker.gradientParametersIndex
                      (FrequencyWorker.this retunedWorker)) =
                 Some (mkChladniParams 1 3 (lit (18 # 1000))))
    by (vm_compute; reflexivity).
  destruct (bake_parameter_frame identityCos zeroRandom) as [_ [_ H]].
  destruct (H retunedWorker (mkChladniParams 1 3 (lit (18 # 1000))) Hres Hidx)
    as [Hnew Hother].
  split; [exact Hi|]. split; [exact Hf|].
  split; [rewrite <- Hi at 2; exact Hidx|].
  split; [exact Hnew|].
  apply Hother. rewrite Hi. discriminate.
Defined.

(** * Further properties of the code *)

(** ** Gradient entries and buffer sizes *)

Lemma ta_store_Forall {A} (P : A -> Prop) (a : list A) i v :
  Forall P a -> P v -> Forall P (ta_store a i v).
Proof.
  intros Ha Hv. unfold ta_store. destruct (0 <=? i); [|exact Ha].
  apply Forall_insert; assumption.
Qed.

Lemma unitComponent_inject c : -1 <= c <= 1 -> unitComponent (Num (inject_Z c)).
Proof.
  intros H. assert (Hc : c = -1 \/ c = 0 \/ c = 1) by lia.
  destruct Hc as [-> | [-> | ->]]; unfold unitComponent; auto.
Qed.

Lemma scanStep_candidates vib w x y st o :
  In o neighbours ->
  (forall c, In c (candidateGradients st) -> c = (0, 0) \/ In c neighbours) ->
  forall c, In c (candidateGradients (scanStep vib w x y st o)) ->
            c = (0, 0) \/ In c neighbours.
Proof.
  intros Ho Hst c. unfold scanStep, examine.
  destruct ((fst o =? 0) && (snd o =? 0)); [apply Hst|].
  destruct (ta_read vib _) as [|nv]; [apply Hst|].
  destruct (ext_le nv (minVibrationSoFar st)); [|apply Hst].
  destruct (ext_lt nv (minVibrationSoFar st)); simpl.
  - intros [<-|[]]. right. destruct o; exact Ho.
  - intros Hc. apply in_app_or in Hc. destruct Hc as [Hc|[<-|[]]].
    + apply Hst, Hc.
    + right. destruct o; exact Ho.
Qed.

Lemma scan_candidates_subset vib w x y c :
  In c (candidateGradients (scanNeighbours vib w x y)) ->
  c = (0, 0) \/ In c neighbours.
Proof.
  rewrite scanNeighbours_fold. revert c.
  apply (fold_left_inv (scanStep vib w x y)
    (fun st => forall c, In c (candidateGradients st) ->
                         c = (0, 0) \/ In c neighbours)).
  - intros st o Ho Hst. apply scanStep_candidates; assumption.
  - simpl. intros c [<-|[]]. left. reflexivity.
Qed.

Lemma choiceOf_member cands r :
  choiceOf cands r = (0, 0) \/ In (choiceOf cands r) cands.
Proof.
  unfold choiceOf.
  destruct (Z.of_nat (length cands) =? 1).
  - destruct (ta_lookup cands 0) as [c|] eqn:E; simpl; [|left; reflexivity].
    right. eapply ta_lookup_In, E.
  - destruct (ta_lookup cands _) as [c|] eqn:E; simpl; [|left; reflexivity].
    right. eapply ta_lookup_In, E.
Qed.

Lemma cellChoice_range vib w x y r :
  -1 <= fst (cellChoice vib w x y r) <= 1 /\
  -1 <= snd (cellChoice vib w x y r) <= 1.
Proof.
  unfold cellChoice.
  destruct (num_lt _ _); [simpl; lia|].
  destruct (choiceOf_member (candidateGradients (scanNeighbours vib w x y)) r)
    as [-> | Hin]; [simpl; lia|].
  apply scan_candidates_subset in Hin. destruct Hin as [-> | Hin]; [simpl; lia|].
  apply neighbours_range, Hin.
Qed.

Lemma newFloat32Array_Forall (P : number -> Prop) n :
  P (Num 0) -> Forall P (newFloat32Array n).
Proof. intros H. unfold newFloat32Array. apply Forall_replicate. exact H. Qed.

Lemma computeGradients_components random w h vib rng :
  Forall unitComponent (fst (computeGradients random w h vib rng)).
Proof.
  rewrite computeGradients_flat.
  apply (fold_left_inv (cellStep random vib w)
           (fun st => Forall unitComponent (fst st))).
  - intros [g r] c _ Hg. unfold cellStep.
    destruct (gradientCell_eq random vib w g r (fst c) (snd c))
      as [r' [_ ->]].
    simpl in *.
    destruct (cellChoice_range vib w (fst c) (snd c) (random r)) as [H1 H2].
    apply ta_store_Forall; [apply ta_store_Forall; [exact Hg|]|];
      apply unitComponent_inject; assumption.
  - simpl. apply newFloat32Array_Forall. right. left. reflexivity.
Qed.

(** X1.  Every entry of the gradients buffer that [computeGradients]
    returns is -1, 0 or 1, whatever the vibration values, the dimensions and
    the random source. *)
Theorem gradient_components random w h vib rng :
  Forall unitComponent (fst (computeGradients random w h vib rng)).
Proof. apply computeGradients_components. Qed.

Lemma fold_left_counter {St K : Type} (step : St -> K -> St) (cnt : St -> nat)
    (l : list K) :
  (forall s k, (cnt s <= cnt (step s k) <= S (cnt s))%nat) ->
  forall s, (cnt s <= cnt (fold_left step l s) <= cnt s + length l)%nat.
Proof.
  intros Hstep. induction l as [|k l IH]; intros s; simpl; [lia|].
  specialize (IH (step s k)). specialize (Hstep s k). lia.
Qed.

Lemma zrange_length lo hi : length (zrange lo hi) = Z.to_nat (hi - lo).
Proof. unfold zrange. rewrite length_map, length_seq. reflexivity. Qed.

Lemma cellsFrom_length lo wHi hHi :
  length (cellsFrom lo wHi hHi) =
  (Z.to_nat (hHi - lo) * Z.to_nat (wHi - lo))%nat.
Proof.
  unfold cellsFrom. rewrite <- (zrange_length lo hHi).
  induction (zrange lo hHi) as [|y ys IH]; simpl; [reflexivity|].
  rewrite length_app, IH, length_map, zrange_length. reflexivity.
Qed.

Lemma computeGradients_length random w h vib rng :
  length (fst (computeGradients random w h vib rng)) = Z.to_nat (w * h * 2).
Proof.
  rewrite computeGradients_flat.
  apply (fold_left_inv (cellStep random vib w)
           (fun st => length (fst st) = Z.to_nat (w * h * 2))).
  - intros [g r] c _ Hg. unfold cellStep.
    destruct (gradientCell_eq random vib w g r (fst c) (snd c))
      as [r' [_ ->]].
    simpl in *. rewrite !ta_store_length. exact Hg.
  - simpl. apply newFloat32Array_length.
Qed.

Lemma gradientCell_counter random vib w st x y :
  (snd st <= snd (gradientCell random vib w st x y) <= S (snd st))%nat.
Proof.
  destruct st as [g r]. unfold gradientCell.
  destruct (num_lt _ _); [simpl; lia|].
  pose proof (chooseGradient_snd random
                (candidateGradients (scanNeighbours vib w x y)) r) as H.
  destruct (chooseGradient random _ r) as [c r']. simpl in *. lia.
Qed.

Lemma computeGradients_draws random w h vib rng :
  (rng <= snd (computeGradients random w h vib rng)
   <= rng + Z.to_nat (h - 2) * Z.to_nat (w - 2))%nat.
Proof.
  rewrite computeGradients_flat.
  pose proof (fold_left_counter (cellStep random vib w) snd
                (cellsFrom 1 (w - 1) (h - 1))
                (fun st c => gradientCell_counter random vib w st (fst c) (snd c))
                (newFloat32Array (w * h * 2), rng)) as H.
  rewrite cellsFrom_length in H. simpl in H.
  replace (h - 1 - 1) with (h - 2) in H by lia.
  replace (w - 1 - 1) with (w - 2) in H by lia.
  exact H.
Qed.

Lemma recalculate_sizes cos random w h p rng :
  length (bakedVibration cos random w h p rng) = Z.to_nat (w * h) /\
  length (bakedGradients cos random w h p rng) = Z.to_nat (w * h * 2) /\
  (rng + 2 <= snd (recalculateGradients cos random w h p rng)
   <= rng + 2 + Z.to_nat (h - 2) * Z.to_nat (w - 2))%nat.
Proof.
  split; [|split].
  - rewrite bakedVibration_eq. apply computeVibrationValues_length.
  - rewrite bakedGradients_eq. apply computeGradients_length.
  - rewrite recalculateGradients_eq.
    match goal with
    | |- context [snd (?a, ?b)] => change (snd (a, b)) with b
    end.
    pose proof (computeGradients_draws random w h
                  (fst (computeVibrationValues cos random w h p rng))
                  (S (S rng))) as H.
    lia.
Qed.

(** X2.  One bake ([recalculateGradients]) on a grid of [w] by [h] cells,
    neither negative, returns a vibration buffer of [w * h] entries and a
    gradients buffer of [w * h * 2] entries; it calls [Math.random()] at
    least twice, for the two translations, and at most once more per
    interior cell. *)
Theorem bake_sizes cos random w h p rng :
  0 <= w -> 0 <= h ->
  length (bakedVibration cos random w h p rng) = Z.to_nat (w * h) /\
  length (bakedGradients cos random w h p rng) = Z.to_nat (w * h * 2) /\
  (rng + 2 <= snd (recalculateGradients cos random w h p rng)
   <= rng + 2 + Z.to_nat (h - 2) * Z.to_nat (w - 2))%nat.
Proof. intros _ _. apply recalculate_sizes. Qed.


(** ** The range of the vibration values *)

Lemma product_bound (a b : Q) :
  (-1 <= a <= 1)%Q -> (-1 <= b <= 1)%Q -> (-1 <= a * b <= 1)%Q.
Proof. intros Ha Hb. split; Lqa.nra. Qed.

Lemma vibrationValue_le_1 cos p TX TY x y :
  boundedCos cos -> (vibrationValue cos p TX TY x y <= 1)%Q.
Proof.
  intros Hcos. rewrite vibrationValue_formula.
  unfold chladniDouble, fl_div, fl_sub. cbv zeta.
  match goal with
  | |- (rnd (Qabs (rnd (fl_mul (cos ?a) (cos ?b) - fl_mul (cos ?c) (cos ?d)))
             / 2) <= 1)%Q =>
      pose proof (product_bound _ _ (Hcos a) (Hcos b)) as H1;
      pose proof (product_bound _ _ (Hcos c) (Hcos d)) as H2;
      apply (rnd_between (-1) 1) in H1; [|simpl; lia|simpl; lia];
      apply (rnd_between (-1) 1) in H2; [|simpl; lia|simpl; lia];
      fold (fl_mul (cos a) (cos b)) in H1;
      fold (fl_mul (cos c) (cos d)) in H2;
      set (u := fl_mul (cos a) (cos b)) in *;
      set (v := fl_mul (cos c) (cos d)) in *
  end.
  clearbody u v.
  change (inject_Z (-1)) with (-1)%Q in *. change (inject_Z 1) with 1%Q in *.
  assert (Hraw : (inject_Z (-2) <= rnd (u - v) <= inject_Z 2)%Q).
  { apply rnd_between; [simpl; lia|simpl; lia|].
    change (inject_Z (-2)) with (-2)%Q. change (inject_Z 2) with 2%Q.
    split; Lqa.lra. }
  change (inject_Z (-2)) with (-2)%Q in Hraw.
  change (inject_Z 2) with 2%Q in Hraw.
  set (raw := rnd (u - v)) in *. clearbody raw.
  assert (Habs : (Qabs raw <= 2)%Q).
  { apply Qabs_Qle_condition. exact Hraw. }
  assert (Hd : (Qabs raw / 2 == Qabs raw * (1 # 2))%Q)
    by (unfold Qdiv; reflexivity).
  apply (rnd_between 0 1); [simpl; lia|simpl; lia|].
  change (inject_Z 0) with 0%Q. change (inject_Z 1) with 1%Q.
  pose proof (Qabs_nonneg raw). rewrite Hd. split; Lqa.lra.
Qed.

(** X3.  If the cosine takes its values in [[-1, 1]], every vibration
    value that a bake stores lies in [[0, 1]]. *)
Theorem vibration_in_unit_range cos random w h p rng :
  boundedCos cos ->
  Forall unitValue (bakedVibration cos random w h p rng).
Proof.
  intros Hcos. rewrite bakedVibration_eq, computeVibrationValues_flat.
  simpl fst.
  apply (fold_left_inv (vibStep cos random w h p rng) (Forall unitValue)).
  - intros vib c _ Hv. unfold vibStep, Float32Array_set.
    apply ta_store_Forall; [exact Hv|].
    eexists. split; [reflexivity|].
    apply (fround_between 0 1); [simpl; lia|simpl; lia|].
    split.
    + apply vibrationValue_nonneg.
    + apply vibrationValue_le_1. exact Hcos.
  - apply newFloat32Array_Forall. exists 0%Q. split; [reflexivity|].
    split; Lqa.lra.
Qed.

Lemma vibrationValue_equal_harmonics cos p TX TY x y :
  m p = n p -> vibrationValue cos p TX TY x y = 0%Q.
Proof.
  intros Hmn. rewrite vibrationValue_formula.
  unfold chladniDouble, fl_div, fl_sub. cbv zeta. rewrite Hmn.
  match goal with
  | |- rnd (Qabs (rnd ?e) / 2) = 0%Q =>
      assert (He : rnd e = 0%Q) by (apply rnd_zero; ring)
  end.
  rewrite He. apply rnd_zero. reflexivity.
Qed.

(** X4.  Parameters whose harmonics [m] and [n] are equal give a field
    that vanishes: every vibration value stored is zero and every entry of
    the gradients buffer is [0], so the field pulls no particle. *)
Theorem equal_harmonics_flat cos random w h p rng :
  m p = n p ->
  Forall zeroValue (bakedVibration cos random w h p rng) /\
  Forall (eq (Num 0)) (bakedGradients cos random w h p rng).
Proof.
  intros Hmn. split.
  - rewrite bakedVibration_eq, computeVibrationValues_flat. simpl fst.
    apply (fold_left_inv (vibStep cos random w h p rng) (Forall zeroValue)).
    + intros vib c _ Hv. unfold vibStep, Float32Array_set.
      apply ta_store_Forall; [exact Hv|].
      eexists. split; [reflexivity|].
      rewrite (vibrationValue_equal_harmonics cos p _ _ _ _ Hmn).
      reflexivity.
    + apply newFloat32Array_Forall. exists 0%Q. split; reflexivity.
  - rewrite bakedGradients_eq, computeGradients_flat.
    apply (fold_left_inv
             (cellStep random (bakedVibration cos random w h p rng) w)
             (fun st => Forall (eq (Num 0)) (fst st))).
    + intros [g r] [x y] Hin Hg. unfold cellStep.
      destruct (gradientCell_eq random (bakedVibration cos random w h p rng)
                  w g r x y) as [r' [_ Heq]].
      cbn [fst snd] in *. rewrite Heq. cbn [fst].
      assert (Hc : cellChoice (bakedVibration cos random w h p rng) w x y
                     (random r) = (0, 0)).
      { unfold cellChoice. apply cellsFrom_In in Hin.
        rewrite bakedVibration_eq, computeVibrationValues_cell by lia.
        rewrite (vibrationValue_equal_harmonics cos p _ _ x y Hmn).
        reflexivity. }
      rewrite Hc. simpl.
      apply ta_store_Forall; [apply ta_store_Forall; [exact Hg|]|]; reflexivity.
    + simpl. apply newFloat32Array_Forall. reflexivity.
Qed.

Lemma zrange_empty lo hi : hi <= lo -> zrange lo hi = [].
Proof.
  intros H. unfold zrange. replace (Z.to_nat (hi - lo)) with 0%nat by lia.
  reflexivity.
Qed.

(** X5.  On a grid at most two cells wide or at most two cells high,
    neither negative, which has no interior cell, [computeGradients]
    returns the freshly allocated buffer of zeros and draws no random
    value. *)
Theorem thin_grid_gradients random w h vib rng :
  0 <= w -> 0 <= h ->
  w <= 2 \/ h <= 2 ->
  computeGradients random w h vib rng = (newFloat32Array (w * h * 2), rng).
Proof.
  intros _ _ H. unfold computeGradients. destruct H as [H|H].
  - rewrite (zrange_empty 1 (w - 1)) by lia. simpl.
    induction (zrange 1 (h - 1)) as [|y ys IH]; simpl; [reflexivity|exact IH].
  - rewrite (zrange_empty 1 (h - 1)) by lia. reflexivity.
Qed.


(** ** The schedule of the worker of index.js *)

Lemma worker_bake_timer cos random c :
  Worker.bakingTimer (Worker.this (Worker.bakeNextGradients cos random c)) =
    Worker.bakingTimer (Worker.this c) /\
  Worker.intervals (Worker.bakeNextGradients cos random c) = Worker.intervals c.
Proof.
  unfold Worker.bakeNextGradients.
  destruct (Worker.isResonantRound (Worker.this c)).
  - destruct (recalculateGradients cos random _ _ _ _) as [[vib grad] rng1].
    simpl. auto.
  - simpl. auto.
Qed.

Lemma worker_receive_schedule cos random c message :
  armed (Worker.intervals c) = scheduleOf (Worker.bakingTimer (Worker.this c)) ->
  let c' := Worker.receiveUpdateFromMainThread cos random c message in
  exists h,
    Worker.bakingTimer (Worker.this c') = Some h /\
    armed (Worker.intervals c') = [h].
Proof.
  intros Hinv. unfold Worker.receiveUpdateFromMainThread.
  name_baked_context c1.
  destruct (worker_bake_timer cos random c1) as [_ Hi].
  unfold setInterval.
  cbn [Worker.this Worker.bakingTimer Worker.intervals armed].
  rewrite Hi.
  exists (nextHandle (Worker.intervals c1)). split; [reflexivity|].
  unfold c1. cbn [Worker.intervals].
  destruct (Worker.bakingTimer (Worker.this c)) as [h0|].
  - simpl in Hinv. unfold clearInterval. cbn [armed nextHandle].
    rewrite Hinv. rewrite filter_cons_False.
    + reflexivity.
    + rewrite Nat.eqb_refl. simpl. auto.
  - simpl in Hinv. rewrite Hinv. reflexivity.
Qed.

(** X6.  In every state that the worker of index.js reaches from its
    construction by reconfiguration messages and timer firings, the armed
    interval timers are exactly the one recorded in [bakingTimer] (none
    before the first message); and after any further message exactly one
    timer is armed: reconfigurations never stack schedules. *)
Theorem single_schedule cos random events :
  let c := workerRun cos random events in
  armed (Worker.intervals c) = scheduleOf (Worker.bakingTimer (Worker.this c)) /\
  (forall message,
     exists h,
       armed (Worker.intervals
                (Worker.receiveUpdateFromMainThread cos random c message))
       = [h]).
Proof.
  assert (Hinv : armed (Worker.intervals (workerRun cos random events)) =
                 scheduleOf (Worker.bakingTimer
                               (Worker.this (workerRun cos random events)))).
  { unfold workerRun.
    apply (fold_left_inv (workerStep cos random)
      (fun c => armed (Worker.intervals c) =
                scheduleOf (Worker.bakingTimer (Worker.this c)))).
    - intros c e _ Hc. destruct e as [message|h]; unfold workerStep.
      + destruct (worker_receive_schedule cos random c message Hc)
          as [h [Ht Ha]].
        rewrite Ht, Ha. reflexivity.
      + unfold Worker.timerFires. destruct (existsb _ _); [|exact Hc].
        destruct (worker_bake_timer cos random c) as [Ht Hi].
        rewrite Ht, Hi. exact Hc.
    - reflexivity. }
  intros c. split; [exact Hinv|].
  intros message.
  destruct (worker_receive_schedule cos random c message Hinv) as [h [_ Ha]].
  exists h. exact Ha.
Qed.

Lemma fireTimes_state cos random c h k :
  Worker.isResonantRound (Worker.this c) = false ->
  existsb (Nat.eqb h) (armed (Worker.intervals c)) = true ->
  exists ms,
    Worker.posted (fireTimes cos random c h k) = Worker.posted c ++ ms /\
    length ms = k /\
    (forall j message, ms !! j = Some message ->
       if Nat.even j then restMessage message else resonantMessage message) /\
    Worker.isResonantRound (Worker.this (fireTimes cos random c h k)) =
      Nat.odd k /\
    Worker.intervals (fireTimes cos random c h k) = Worker.intervals c.
Proof.
  intros Hres Harmed. induction k as [|k IH].
  - exists []. simpl. rewrite app_nil_r.
    split; [reflexivity|]. split; [reflexivity|]. split.
    + intros j message H. rewrite lookup_nil in H. discriminate.
    + split; [exact Hres|reflexivity].
  - destruct IH as [ms [Hp [Hlen [Hms [Hround Hint]]]]].
    simpl fireTimes. unfold Worker.timerFires. rewrite Hint, Harmed.
    set (ck := fireTimes cos random c h k) in *.
    assert (Hstep : exists message,
      (if Nat.even k then restMessage message else resonantMessage message) /\
      Worker.posted (Worker.bakeNextGradients cos random ck) =
        Worker.posted ck ++ [message] /\
      Worker.isResonantRound
        (Worker.this (Worker.bakeNextGradients cos random ck)) = Nat.odd (S k) /\
      Worker.intervals (Worker.bakeNextGradients cos random ck) =
        Worker.intervals ck).
    { rewrite Nat.odd_succ. unfold Nat.odd in Hround.
      destruct (Nat.even k) eqn:Ek; simpl in Hround.
      - destruct (bake_rest cos random ck Hround) as [msg [Hm [Hpp [Hr Hi]]]].
        exists msg. auto.
      - destruct (bake_resonant cos random ck Hround) as [msg [Hm [Hpp [Hr Hi]]]].
        exists msg. auto. }
    destruct Hstep as [msg [Hm [Hpp [Hr Hi]]]].
    exists (ms ++ [msg]). split; [|split; [|split; [|split]]].
    + rewrite Hpp, Hp, app_assoc. reflexivity.
    + rewrite length_app. simpl. lia.
    + intros j message Hj.
      destruct (Nat.lt_ge_cases j (length ms)) as [Hlt|Hge].
      * rewrite lookup_app_l in Hj by exact Hlt. apply Hms. exact Hj.
      * rewrite lookup_app_r in Hj by exact Hge.
        destruct (j - length ms)%nat as [|d] eqn:Ed; simpl in Hj;
          [|rewrite lookup_nil in Hj; discriminate].
        inversion Hj; subst message.
        assert (j = k) by lia. subst j. exact Hm.
    + exact Hr.
    + rewrite Hi. exact Hint.
Qed.

(** X7.  A reconfiguration message makes the worker post one resonant
    message and arm a timer; [k] firings of that timer then post [k] more
    messages, which are rest and resonant messages in turn, a rest message
    first. *)
Theorem alternation_forever cos random c message k :
  let c1 := Worker.receiveUpdateFromMainThread cos random c message in
  exists h first rest,
    Worker.bakingTimer (Worker.this c1) = Some h /\
    Worker.posted (fireTimes cos random c1 h k) =
      Worker.posted c ++ first :: rest /\
    resonantMessage first /\
    length rest = k /\
    (forall j later, rest !! j = Some later ->
       if Nat.even j then restMessage later else resonantMessage later).
Proof.
  intros c1.
  destruct (receive_shape cos random c message)
    as [c0 [h [Hres0 [Hp0 [Hposted [Hround [Htimer Harmed]]]]]]].
  fold c1 in Hposted, Hround, Htimer, Harmed.
  destruct (bake_resonant cos random c0 Hres0) as [m1 [Hm1 [Hp1 [Hr1 _]]]].
  rewrite Hr1 in Hround. rewrite Hp1, Hp0 in Hposted.
  destruct (fireTimes_state cos random c1 h k Hround Harmed)
    as [ms [Hp [Hlen [Hms _]]]].
  exists h, m1, ms. split; [exact Htimer|]. split.
  - rewrite Hp, Hposted, <- app_assoc. reflexivity.
  - split; [exact Hm1|]. split; [exact Hlen|exact Hms].
Qed.

Lemma worker_bake_resonant_message cos random c :
  Worker.isResonantRound (Worker.this c) = true ->
  Worker.posted (Worker.bakeNextGradients cos random c) =
    Worker.posted c ++
    [mkFieldMessage MODERATE_RANDOM_VIBRATION_INTENSITY
       (Some (bakedVibration cos random
                (dim (Worker.width (Worker.this c)))
                (dim (Worker.height (Worker.this c)))
                (Worker.currentParams (Worker.this c)) (Worker.rng c)))
       (Some (bakedGradients cos random
                (dim (Worker.width (Worker.this c)))
                (dim (Worker.height (Worker.this c)))
                (Worker.currentParams (Worker.this c)) (Worker.rng c)))] /\
  Worker.vibrationValues
    (Worker.this (Worker.bakeNextGradients cos random c)) = Some detached /\
  Worker.gradients
    (Worker.this (Worker.bakeNextGradients cos random c)) = Some detached.
Proof.
  intros Hres. unfold Worker.bakeNextGradients, bakedVibration, bakedGradients.
  rewrite Hres.
  destruct (recalculateGradients cos random _ _ _ _) as [[vib grad] rng1].
  simpl. auto.
Qed.

Lemma worker_receive_posts cos random c message :
  let c' := Worker.receiveUpdateFromMainThread cos random c message in
  let cells := dim (Worker.msg_width message) * dim (Worker.msg_height message) in
  exists vib grad,
    Worker.posted c' =
      Worker.posted c ++
      [mkFieldMessage MODERATE_RANDOM_VIBRATION_INTENSITY (Some vib) (Some grad)] /\
    length vib = Z.to_nat cells /\
    length grad = Z.to_nat (cells * 2) /\
    Forall unitComponent grad /\
    Worker.vibrationValues (Worker.this c') = Some [] /\
    Worker.gradients (Worker.this c') = Some [] /\
    (Worker.msg_width message = None \/ Worker.msg_height message = None ->
     vib = [] /\ grad = []).
Proof.
  intros c' cells. unfold c', Worker.receiveUpdateFromMainThread.
  name_baked_context c1.
  destruct (worker_bake_resonant_message cos random c1 eq_refl)
    as [Hp [Hv Hg]].
  unfold setInterval.
  cbn [Worker.this Worker.posted Worker.vibrationValues Worker.gradients].
  rewrite Hp, Hv, Hg.
  assert (Hw : Worker.width (Worker.this c1) = Worker.msg_width message)
    by reflexivity.
  assert (Hh : Worker.height (Worker.this c1) = Worker.msg_height message)
    by reflexivity.
  rewrite Hw, Hh. fold cells.
  eexists. eexists. split; [reflexivity|].
  destruct (recalculate_sizes cos random (dim (Worker.msg_width message))
              (dim (Worker.msg_height message))
              (Worker.currentParams (Worker.this c1)) (Worker.rng c1))
    as [Hlv [Hlg _]].
  fold cells in Hlv, Hlg.
  split; [exact Hlv|]. split; [exact Hlg|].
  split; [rewrite bakedGradients_eq; apply computeGradients_components|].
  split; [reflexivity|]. split; [reflexivity|].
  intros Hnone.
  assert (Hc : cells = 0).
  { unfold cells. destruct Hnone as [-> | ->]; simpl; lia. }
  rewrite Hc in Hlv, Hlg. simpl in Hlv, Hlg.
  split; apply nil_length_inv; assumption.
Qed.

(** X8.  A reconfiguration of the worker of index.js posts exactly one
    message: moderate intensity, a vibration buffer of [width * height]
    entries and a gradients buffer of twice as many, all -1, 0 or 1, for the
    dimensions of the message.  The buffers are transferred, so the worker's
    own arrays are left empty.  A message without [width] or without
    [height] makes both posted buffers empty. *)
Theorem posted_buffer_sizes cos random c message :
  let c' := Worker.receiveUpdateFromMainThread cos random c message in
  let cells := dim (Worker.msg_width message) * dim (Worker.msg_height message) in
  exists vib grad,
    Worker.posted c' =
      Worker.posted c ++
      [mkFieldMessage MODERATE_RANDOM_VIBRATION_INTENSITY (Some vib) (Some grad)] /\
    length vib = Z.to_nat cells /\
    length grad = Z.to_nat (cells * 2) /\
    Forall unitComponent grad /\
    Worker.vibrationValues (Worker.this c') = Some [] /\
    Worker.gradients (Worker.this c') = Some [] /\
    (Worker.msg_width message = None \/ Worker.msg_height message = None ->
     vib = [] /\ grad = []).
Proof. apply worker_receive_posts. Qed.


(** ** The frequency worker and the unscheduled worker *)

(** X9.  The worker with the frequency control applies exactly the
    fields that a message carries: [width], [height] and [frequency] keep
    their values when the message lacks them and take the message's values
    otherwise. *)
Theorem frequency_partial_apply cos random c message :
  let c' := FrequencyWorker.receiveUpdateFromMainThread cos random c message in
  (FrequencyWorker.msg_width message = None ->
   FrequencyWorker.width (FrequencyWorker.this c') =
   FrequencyWorker.width (FrequencyWorker.this c)) /\
  (FrequencyWorker.msg_height message = None ->
   FrequencyWorker.height (FrequencyWorker.this c') =
   FrequencyWorker.height (FrequencyWorker.this c)) /\
  (FrequencyWorker.msg_frequency message = None ->
   FrequencyWorker.currentFrequency (FrequencyWorker.this c') =
   FrequencyWorker.currentFrequency (FrequencyWorker.this c)) /\
  (forall v, FrequencyWorker.msg_width message = Some v ->
   FrequencyWorker.width (FrequencyWorker.this c') = Some v) /\
  (forall v, FrequencyWorker.msg_height message = Some v ->
   FrequencyWorker.height (FrequencyWorker.this c') = Some v) /\
  (forall f, FrequencyWorker.msg_frequency message = Some f ->
   FrequencyWorker.currentFrequency (FrequencyWorker.this c') = f).
Proof.
  intros c'.
  destruct (frequency_receive_fields cos random c message) as [Hw [Hh Hf]].
  fold c' in Hw, Hh, Hf. rewrite Hw, Hh, Hf.
  repeat split; intros; 
    match goal with H : _ = _ |- _ => rewrite H end; reflexivity.
Qed.

Lemma frequency_bake_harmonics cos random c :
  sameHarmonics (FrequencyWorker.table c) ->
  sameHarmonics
    (FrequencyWorker.table (FrequencyWorker.bakeNextGradients cos random c)).
Proof.
  intros [Hlen Hsame]. rewrite frequency_bake_table.
  destruct (FrequencyWorker.isResonantRound (FrequencyWorker.this c));
    [|split; assumption].
  destruct (ta_lookup (FrequencyWorker.table c) _) as [q|] eqn:Eq;
    [|split; assumption].
  split; [rewrite ta_store_length; exact Hlen|].
  intros j p0 Hj. destruct (Hsame j p0 Hj) as [p [Hp [Hm Hn]]].
  destruct (Z.eq_dec
              (FrequencyWorker.gradientParametersIndex (FrequencyWorker.this c)) j)
    as [Heq|Hne].
  - rewrite Heq in *. rewrite Hp in Eq. inversion Eq; subst q.
    eexists. split; [apply ta_lookup_store_eq; eapply ta_lookup_Some; exact Hp|].
    simpl. auto.
  - exists p. rewrite ta_lookup_store_ne by exact Hne. auto.
Qed.

Lemma frequency_receive_table cos random c message :
  exists c1,
    FrequencyWorker.table c1 = FrequencyWorker.table c /\
    FrequencyWorker.table
      (FrequencyWorker.receiveUpdateFromMainThread cos random c message) =
    FrequencyWorker.table (FrequencyWorker.bakeNextGradients cos random c1).
Proof.
  unfold FrequencyWorker.receiveUpdateFromMainThread.
  name_baked_context c1. exists c1. unfold setInterval. split; reflexivity.
Qed.

Lemma frequencyRun_harmonics cos random events :
  sameHarmonics (FrequencyWorker.table (frequencyRun cos random events)).
Proof.
  unfold frequencyRun.
  apply (fold_left_inv (frequencyStep cos random)
           (fun c => sameHarmonics (FrequencyWorker.table c))).
  - intros c e _ Hc. destruct e as [message|h]; unfold frequencyStep.
    + destruct (frequency_receive_table cos random c message) as [c1 [H1 ->]].
      apply frequency_bake_harmonics. rewrite H1. exact Hc.
    + unfold FrequencyWorker.timerFires. destruct (existsb _ _); [|exact Hc].
      apply frequency_bake_harmonics. exact Hc.
  - split; [reflexivity|]. intros j p0 Hj. exists p0. auto.
Qed.

(** X10.  In every reachable state of the worker with the frequency
    control the table [CHLADNI_PARAMS] still has its nine records with their
    harmonics [m] and [n]: only [l] is ever overwritten.  A resonant round
    bakes with the harmonics of the table entry at the current index and
    with the current frequency in place of the entry's [l], posts the baked
    field for the dimensions held, and moves the index to the next entry,
    back to the first after the ninth. *)
Theorem frequency_bake_parameters cos random events :
  let c := frequencyRun cos random events in
  let w := FrequencyWorker.this c in
  sameHarmonics (FrequencyWorker.table c) /\
  (FrequencyWorker.isResonantRound w = true ->
   exists p0,
     ta_lookup FrequencyWorker.CHLADNI_PARAMS
               (FrequencyWorker.gradientParametersIndex w) = Some p0 /\
     FrequencyWorker.posted (FrequencyWorker.bakeNextGradients cos random c) =
       FrequencyWorker.posted c ++
       [mkFieldMessage MODERATE_RANDOM_VIBRATION_INTENSITY
          (Some (bakedVibration cos random
                   (dim (FrequencyWorker.width w))
                   (dim (FrequencyWorker.height w))
                   (mkChladniParams (m p0) (n p0)
                      (FrequencyWorker.currentFrequency w))
                   (FrequencyWorker.rng c)))
          (Some (bakedGradients cos random
                   (dim (FrequencyWorker.width w))
                   (dim (FrequencyWorker.height w))
                   (mkChladniParams (m p0) (n p0)
                      (FrequencyWorker.currentFrequency w))
                   (FrequencyWorker.rng c)))] /\
     FrequencyWorker.gradientParametersIndex
       (FrequencyWorker.this (FrequencyWorker.bakeNextGradients cos random c)) =
     (FrequencyWorker.gradientParametersIndex w + 1) mod 9).
Proof.
  intros c w.
  pose proof (frequencyRun_harmonics cos random events) as Hsame.
  pose proof (index_in_table cos random events) as Hidx.
  fold c in Hsame, Hidx. cbv zeta in Hidx. fold c in Hidx. fold w in Hidx.
  split; [exact Hsame|]. intros Hres.
  destruct Hsame as [Hlen Hsame]. rewrite Hlen in Hidx.
  destruct (ta_lookup_inside FrequencyWorker.CHLADNI_PARAMS
              (FrequencyWorker.gradientParametersIndex w) Hidx) as [p0 Hp0].
  exists p0. split; [exact Hp0|].
  destruct (Hsame _ _ Hp0) as [p [Hp [Hm Hn]]].
  unfold FrequencyWorker.bakeNextGradients, bakedVibration, bakedGradients.
  fold w. rewrite Hres, Hp.
  unfold FrequencyWorker.set_l. rewrite Hm, Hn.
  destruct (recalculateGradients cos random _ _ _ _) as [[vib grad] rng1].
  cbn [FrequencyWorker.this FrequencyWorker.posted
       FrequencyWorker.gradientParametersIndex fst snd].
  split; [reflexivity|].
  rewrite ta_store_length, Hlen. simpl length.
  rewrite Z.rem_mod_nonneg by (simpl in Hidx; lia). reflexivity.
Qed.

Lemma simple_receive_posts cos random c message :
  exists vib grad,
    SimpleWorker.posted
      (SimpleWorker.receiveUpdateFromMainThread cos random c message) =
    SimpleWorker.posted c ++
    [mkFieldMessage MODERATE_RANDOM_VIBRATION_INTENSITY (Some vib) (Some grad)] /\
    length vib =
      Z.to_nat (dim (SimpleWorker.msg_width message) *
                dim (SimpleWorker.msg_height message)) /\
    length grad =
      Z.to_nat (dim (SimpleWorker.msg_width message) *
                dim (SimpleWorker.msg_height message) * 2).
Proof.
  unfold SimpleWorker.receiveUpdateFromMainThread.
  match goal with
  | |- context [recalculateGradients cos random ?w ?h ?p ?r] =>
      pose proof (recalculate_sizes cos random w h p r) as [Hv [Hg _]];
      unfold bakedVibration, bakedGradients in Hv, Hg;
      destruct (recalculateGradients cos random w h p r) as [[vib grad] rng1]
  end.
  exists vib, grad. simpl in *. auto.
Qed.

(** X11.  The unscheduled worker posts exactly one message for every
    message it receives, each of them resonant (moderate intensity, both
    buffers present), with [width * height] vibration values and twice as
    many gradient entries for the dimensions of the message just received. *)
Theorem simple_worker_answers cos random messages :
  let c := simpleRun cos random messages in
  length (SimpleWorker.posted c) = length messages /\
  Forall resonantMessage (SimpleWorker.posted c) /\
  (forall message,
     exists vib grad,
       SimpleWorker.posted
         (SimpleWorker.receiveUpdateFromMainThread cos random c message) =
       SimpleWorker.posted c ++
       [mkFieldMessage MODERATE_RANDOM_VIBRATION_INTENSITY
          (Some vib) (Some grad)] /\
       length vib =
         Z.to_nat (dim (SimpleWorker.msg_width message) *
                   dim (SimpleWorker.msg_height message)) /\
       length grad =
         Z.to_nat (dim (SimpleWorker.msg_width message) *
                   dim (SimpleWorker.msg_height message) * 2)).
Proof.
  intros c. split; [|split].
  - unfold c, simpleRun.
    assert (H : forall c0,
      length (SimpleWorker.posted
                (fold_left (SimpleWorker.receiveUpdateFromMainThread cos random)
                   messages c0)) =
      (length (SimpleWorker.posted c0) + length messages)%nat).
    { induction messages as [|msg rest IH]; intros c0; simpl; [lia|].
      rewrite IH.
      destruct (simple_receive_posts cos random c0 msg) as [v [g [-> _]]].
      rewrite length_app. simpl. lia. }
    rewrite H. reflexivity.
  - unfold c, simpleRun.
    apply (fold_left_inv (SimpleWorker.receiveUpdateFromMainThread cos random)
             (fun c0 => Forall resonantMessage (SimpleWorker.posted c0))).
    + intros c0 msg _ Hc0.
      destruct (simple_receive_posts cos random c0 msg) as [v [g [-> _]]].
      apply Forall_app. split; [exact Hc0|].
      constructor; [|constructor].
      repeat split; simpl; discriminate.
    + constructor.
  - intros message. apply simple_receive_posts.
Qed.


(** ** Palette, frame accounting and pause *)

Lemma onMessage_selected a message :
  App.colors a <> [] ->
  0 <= App.colorIndex a < Z.of_nat (length (App.colors a)) ->
  App.selectedColor a = ta_lookup (App.colors a) (App.colorIndex a) ->
  let a' := App.onMessageFromWorker a message in
  App.colors a' = App.colors a /\
  0 <= App.colorIndex a' < Z.of_nat (length (App.colors a)) /\
  App.selectedColor a' = ta_lookup (App.colors a) (App.colorIndex a').
Proof.
  intros Hne Hidx Hsel a'. unfold a', App.onMessageFromWorker.
  destruct (msg_gradients message); simpl.
  - split; [reflexivity|]. split; [|reflexivity].
    rewrite Z.rem_mod_nonneg by lia. apply Z.mod_pos_bound. lia.
  - auto.
Qed.

(** X12.  If the palette is not empty and [selectedColor] is the palette
    entry at [colorIndex], the same holds after any sequence of worker
    messages, and the selected colour is a colour of the palette; the
    palette itself never changes. *)
Theorem selected_color_tracks (a : App.ChladniApp) (messages : list FieldMessage) :
  App.colors a <> [] ->
  0 <= App.colorIndex a < Z.of_nat (length (App.colors a)) ->
  App.selectedColor a = ta_lookup (App.colors a) (App.colorIndex a) ->
  let a' := deliverAll a messages in
  App.colors a' = App.colors a /\
  App.selectedColor a' = ta_lookup (App.colors a') (App.colorIndex a') /\
  exists c, App.selectedColor a' = Some c /\ In c (App.colors a).
Proof.
  intros Hne Hidx Hsel a'.
  assert (H : App.colors a' = App.colors a /\
              0 <= App.colorIndex a' < Z.of_nat (length (App.colors a)) /\
              App.selectedColor a' = ta_lookup (App.colors a) (App.colorIndex a')).
  { unfold a', deliverAll.
    apply (fold_left_inv App.onMessageFromWorker
      (fun b => App.colors b = App.colors a /\
                0 <= App.colorIndex b < Z.of_nat (length (App.colors a)) /\
                App.selectedColor b = ta_lookup (App.colors a) (App.colorIndex b))).
    - intros b message _ [Hc [Hi Hs]].
      destruct (onMessage_selected b message) as [Hc' [Hi' Hs']].
      + rewrite Hc. exact Hne.
      + rewrite Hc. exact Hi.
      + rewrite Hc. exact Hs.
      + rewrite Hc in Hc', Hi', Hs'. auto.
    - auto. }
  destruct H as [Hc [Hi Hs]].
  split; [exact Hc|]. split; [rewrite Hc; exact Hs|].
  destruct (ta_lookup_inside (App.colors a) (App.colorIndex a') Hi) as [c Hcol].
  exists c. split; [rewrite Hs; exact Hcol|]. eapply ta_lookup_In, Hcol.
Qed.

Lemma update_paused random rgbToVal a rng :
  App.isRunning a = false ->
  App.update random rgbToVal a rng = (withFpsCount a (App.fpsCount a + 1), rng).
Proof.
  intros H. unfold App.update, withFpsCount.
  destruct (App.isRunning a); [discriminate|reflexivity].
Qed.

Lemma update_settings random rgbToVal a rng :
  sameSettings a (fst (App.update random rgbToVal a rng)) /\
  App.fpsCount (fst (App.update random rgbToVal a rng)) = App.fpsCount a + 1.
Proof.
  unfold App.update, sameSettings. destruct (App.isRunning a); simpl.
  - destruct (fold_left _ _ _) as [[ps buf] r]. simpl. repeat split.
  - repeat split.
Qed.

Lemma update_rng random rgbToVal a rng :
  App.isRunning a = true ->
  snd (App.update random rgbToVal a rng) =
  snd (fold_left (App.particleStep random a (frameColor a))
         (App.particleIndices (Z.of_nat (length (App.particles a))))
         (App.particles a, App.fillBuffer rgbToVal a, rng)).
Proof.
  intros running. unfold App.update. rewrite running. simpl negb. cbv iota.
  fold (frameColor a).
  destruct (fold_left _ _ _) as [[ps buf] r]. reflexivity.
Qed.

Lemma particleIndices_length len :
  length (App.particleIndices len) = Z.to_nat ((len + 1) / 2).
Proof.
  unfold App.particleIndices. rewrite length_map, zrange_length.
  f_equal. lia.
Qed.

(** X13.  A call of [update] changes nothing but the particles, the
    buffer and the frame counter.  The counter grows by one and both arrays
    keep their lengths; a running application draws two random values per
    pair of particle entries; a paused one draws none and leaves particles
    and buffer alone. *)
Theorem update_accounting random rgbToVal a rng :
  let a' := fst (App.update random rgbToVal a rng) in
  let rng' := snd (App.update random rgbToVal a rng) in
  let len := Z.of_nat (length (App.particles a)) in
  sameSettings a a' /\
  App.fpsCount a' = App.fpsCount a + 1 /\
  length (App.particles a') = length (App.particles a) /\
  length (App.buffer a') = length (App.buffer a) /\
  rng' = (if App.isRunning a
          then (rng + 2 * Z.to_nat ((len + 1) / 2))%nat
          else rng) /\
  (App.isRunning a = false ->
   App.particles a' = App.particles a /\ App.buffer a' = App.buffer a).
Proof.
  intros a' rng' len.
  destruct (update_settings random rgbToVal a rng) as [Hs Hf].
  split; [exact Hs|]. split; [exact Hf|].
  destruct (App.isRunning a) eqn:Erun.
  - destruct (update_running random rgbToVal a rng Erun) as [Hp Hb].
    pose proof (update_trace random rgbToVal a rng) as [Hr Hpl Hbl _ _ _].
    unfold a', rng'. rewrite Hp, Hb, (update_rng random rgbToVal a rng Erun).
    rewrite Hpl, Hbl, Hr, fillBuffer_length, particleIndices_length.
    split; [reflexivity|]. split; [reflexivity|]. split; [reflexivity|].
    intros Hfalse. discriminate.
  - unfold a', rng'. rewrite (update_paused random rgbToVal a rng Erun).
    simpl. repeat split.
Qed.

Lemma frames_paused random rgbToVal a rng k :
  App.isRunning a = false ->
  frames random rgbToVal k (a, rng) =
  (withFpsCount a (App.fpsCount a + Z.of_nat k), rng).
Proof.
  intros Hp. induction k as [|k IH].
  - simpl. unfold withFpsCount. rewrite Z.add_0_r. destruct a; reflexivity.
  - simpl frames. rewrite IH.
    rewrite update_paused by exact Hp.
    unfold withFpsCount. simpl. do 2 f_equal. lia.
Qed.

(** X14.  Pausing a running application with the space key, letting any
    number [k] of frames pass and pressing the space key again gives back
    the application as it was, with the frame counter grown by [k]; no
    random value is drawn meanwhile. *)
Theorem pause_and_resume random rgbToVal a rng k :
  App.isRunning a = true ->
  let paused := Controls.keypress a " " in
  let later := frames random rgbToVal k (paused, rng) in
  Controls.keypress (fst later) " " =
    withFpsCount a (App.fpsCount a + Z.of_nat k) /\
  snd later = rng.
Proof.
  intros Hrun paused later. unfold later.
  assert (Hp : App.isRunning paused = false).
  { unfold paused, Controls.keypress. simpl. rewrite Hrun. reflexivity. }
  rewrite (frames_paused random rgbToVal paused rng k Hp).
  cbn [fst snd]. split; [|reflexivity].
  unfold paused, Controls.keypress, withFpsCount. simpl.
  rewrite Hrun. destruct a; reflexivity.
Qed.


(** ** The fill of a frame and the sweep *)

Lemma ta_lookup_ext {A} (a b : list A) :
  (forall j, ta_lookup a j = ta_lookup b j) -> a = b.
Proof.
  intros H. apply list_eq. intros i.
  specialize (H (Z.of_nat i)). rewrite !ta_lookup_nat in H. exact H.
Qed.

(** X15.  The fill that starts a frame keeps the length of the buffer.
    With the debug view on and vibration values present, a cell [i] below
    the number of vibration values holds the grey level of value [i], and
    the cells beyond keep what they held (they are not cleared); in every
    other case all cells hold the background colour. *)
Theorem frame_fill rgbToVal a :
  let filled := App.fillBuffer rgbToVal a in
  length filled = length (App.buffer a) /\
  (forall vib, App.debugVibration a = true ->
     App.vibrationValues a = Some vib ->
     forall i, 0 <= i < Z.of_nat (length (App.buffer a)) ->
       (i < Z.of_nat (length vib) ->
        ta_lookup filled i = Some (debugPixel rgbToVal (ta_read vib i))) /\
       (Z.of_nat (length vib) <= i ->
        ta_lookup filled i = ta_lookup (App.buffer a) i)) /\
  (App.debugVibration a = false \/ App.vibrationValues a = None ->
   filled =
   replicate (length (App.buffer a))
             (App.ToUint32 (Some (App.backgroundColor a)))).
Proof.
  intros filled. split; [apply fillBuffer_length|]. split.
  - intros vib Hd Hv i Hi. unfold filled, App.fillBuffer. rewrite Hd, Hv.
    cbv zeta. split.
    + intros Hlt.
      apply (fold_left_at
               (fun (buffer : list Z) j =>
                  ta_store buffer j
                    (App.ToUint32
                       (Some (rgbToVal (num_mul (ta_read vib j) (Num 64))
                                (num_mul (ta_read vib j) (Num 64))
                                (num_mul (ta_read vib j) (Num 64))))))
               (fun buffer => length buffer = length (App.buffer a))
               (fun buffer => ta_lookup buffer i =
                              Some (debugPixel rgbToVal (ta_read vib i)))
               i).
      * apply zrange_NoDup.
      * apply zrange_In. lia.
      * intros b j _ Hb. rewrite ta_store_length. exact Hb.
      * intros b Hb. apply ta_lookup_store_eq. lia.
      * intros b j _ Hne _ Hb. rewrite ta_lookup_store_ne by exact Hne. exact Hb.
      * reflexivity.
    + intros Hge.
      apply (fold_left_inv
               (fun (buffer : list Z) j =>
                  ta_store buffer j
                    (App.ToUint32
                       (Some (rgbToVal (num_mul (ta_read vib j) (Num 64))
                                (num_mul (ta_read vib j) (Num 64))
                                (num_mul (ta_read vib j) (Num 64))))))
               (fun buffer => ta_lookup buffer i = ta_lookup (App.buffer a) i)).
      * intros b j Hj Hb. apply zrange_In in Hj.
        rewrite ta_lookup_store_ne by lia. exact Hb.
      * reflexivity.
  - intros H. unfold filled, App.fillBuffer.
    destruct H as [-> | ->]; [reflexivity|].
    destruct (App.debugVibration a); reflexivity.
Qed.

Section Sweep.
Variable random : nat -> Q.
Variable a : App.ChladniApp.

Lemma sweepStep_length st i :
  length (fst (Controls.sweepStep random a st i)) = length (fst st).
Proof.
  destruct st as [ps r]. unfold Controls.sweepStep, Float32Array_set.
  destruct (Controls.didFall a _ _); simpl; [|reflexivity].
  rewrite !ta_store_length. reflexivity.
Qed.

Lemma sweepStep_other st k k' :
  k' <> k ->
  ta_read (fst (Controls.sweepStep random a st (2 * k'))) (2 * k) =
    ta_read (fst st) (2 * k) /\
  ta_read (fst (Controls.sweepStep random a st (2 * k'))) (2 * k + 1) =
    ta_read (fst st) (2 * k + 1).
Proof.
  intros Hne. destruct st as [ps r]. unfold Controls.sweepStep, Float32Array_set.
  destruct (Controls.didFall a _ _); simpl; [|auto].
  rewrite !ta_read_store_ne by lia. auto.
Qed.

Lemma sweepStep_self ps r k :
  0 <= k -> 2 * k + 1 < Z.of_nat (length ps) ->
  let x := ta_read ps (2 * k) in
  let y := ta_read ps (2 * k + 1) in
  let ps' := fst (Controls.sweepStep random a (ps, r) (2 * k)) in
  if Controls.didFall a x y
  then ta_read ps' (2 * k) = Num (freshCoordinate (random r) (App.width a)) /\
       ta_read ps' (2 * k + 1) =
         Num (freshCoordinate (random (S r)) (App.height a))
  else ta_read ps' (2 * k) = x /\ ta_read ps' (2 * k + 1) = y.
Proof.
  intros Hk Hlen x y ps'.
  unfold ps', Controls.sweepStep, Float32Array_set, freshCoordinate. fold x y.
  destruct (Controls.didFall a x y); simpl; [|auto].
  split.
  - rewrite ta_read_store_ne by lia. apply ta_read_store_eq. lia.
  - apply ta_read_store_eq. rewrite ta_store_length. lia.
Qed.

Lemma sweep_particle rng k :
  0 <= k -> 2 * k + 1 < Z.of_nat (length (App.particles a)) ->
  let x := ta_read (App.particles a) (2 * k) in
  let y := ta_read (App.particles a) (2 * k + 1) in
  let ps' := App.particles (fst (Controls.checkForFallenParticles random a rng)) in
  length ps' = length (App.particles a) /\
  if Controls.didFall a x y
  then exists d : nat,
         ta_read ps' (2 * k) = Num (freshCoordinate (random d) (App.width a)) /\
         ta_read ps' (2 * k + 1) =
           Num (freshCoordinate (random (S d)) (App.height a))
  else ta_read ps' (2 * k) = x /\ ta_read ps' (2 * k + 1) = y.
Proof.
  intros Hk Hlen x y ps'.
  assert (Hps : ps' =
    fst (fold_left (Controls.sweepStep random a)
           (App.particleIndices (Z.of_nat (length (App.particles a))))
           (App.particles a, rng))).
  { unfold ps', Controls.checkForFallenParticles.
    destruct (fold_left _ _ _) as [p1 r1]. reflexivity. }
  rewrite Hps. clear Hps ps'.
  apply (fold_left_from (Controls.sweepStep random a)
    (fun st => length (fst st) = length (App.particles a) /\
               ta_read (fst st) (2 * k) = x /\ ta_read (fst st) (2 * k + 1) = y)
    (fun st => length (fst st) = length (App.particles a) /\
       if Controls.didFall a x y
       then exists d : nat,
          ta_read (fst st) (2 * k) =
            Num (freshCoordinate (random d) (App.width a)) /\
          ta_read (fst st) (2 * k + 1) =
            Num (freshCoordinate (random (S d)) (App.height a))
       else ta_read (fst st) (2 * k) = x /\ ta_read (fst st) (2 * k + 1) = y)
    (2 * k)).
  - apply particleIndices_NoDup.
  - apply particleIndices_In. exists k. split; [reflexivity|lia].
  - intros st i Hi Hne [Hl [Hx Hy]].
    apply particleIndices_In in Hi. destruct Hi as [k' [-> _]].
    destruct (sweepStep_other st k k') as [Ha Hb]; [intros ->; apply Hne; reflexivity|].
    rewrite sweepStep_length, Ha, Hb. auto.
  - intros [ps r] [Hl [Hx Hy]]. simpl in Hl, Hx, Hy.
    split; [rewrite sweepStep_length; exact Hl|].
    pose proof (sweepStep_self ps r k Hk ltac:(lia)) as Hself.
    cbv zeta in Hself. rewrite Hx, Hy in Hself.
    destruct (Controls.didFall a x y); [exists r|]; exact Hself.
  - intros st i Hi Hne [Hl Hres].
    apply particleIndices_In in Hi. destruct Hi as [k' [-> _]].
    destruct (sweepStep_other st k k') as [Ha Hb]; [intros ->; apply Hne; reflexivity|].
    rewrite sweepStep_length, Ha, Hb. auto.
  - simpl. auto.
Qed.

End Sweep.

(** A fresh coordinate lies on the side, both ends included: the product
    is below the side, and its single-precision rounding can reach it. *)
Lemma freshCoordinate_range (r : Q) (side : Z) :
  randomValue r -> 0 < side <= 2 ^ 24 ->
  (0 <= freshCoordinate r side <= inject_Z side)%Q.
Proof.
  intros Hr Hside. unfold freshCoordinate.
  assert (H53 : 2 ^ 24 <= 2 ^ 53) by (apply Z.pow_le_mono_r; lia).
  destruct (fl_mul_random r side Hr ltac:(lia)) as [H0 H1].
  apply (fround_between 0 side); [simpl; lia|lia|].
  change (inject_Z 0) with 0%Q. split; [exact H0|].
  apply Qlt_le_weak. exact H1.
Qed.

Lemma didFall_inside a (qx qy : Q) :
  (0 <= qx <= inject_Z (App.width a))%Q ->
  (0 <= qy <= inject_Z (App.height a))%Q ->
  Controls.didFall a (Num qx) (Num qy) = false.
Proof.
  intros Hx Hy. unfold Controls.didFall, Controls.SLACK. simpl.
  assert (H1 : Qlt_bool qx (- (100)) = false) by (apply Qlt_bool_false; Lqa.lra).
  assert (H2 : Qle_bool (inject_Z (App.width a) + 100) qx = false).
  { destruct (Qle_bool _ qx) eqn:E; [|reflexivity].
    apply Qle_bool_iff in E. exfalso. Lqa.lra. }
  assert (H3 : Qlt_bool qy (- (100)) = false) by (apply Qlt_bool_false; Lqa.lra).
  assert (H4 : Qle_bool (inject_Z (App.height a) + 100) qy = false).
  { destruct (Qle_bool _ qy) eqn:E; [|reflexivity].
    apply Qle_bool_iff in E. exfalso. Lqa.lra. }
  rewrite H1, H2, H3, H4. reflexivity.
Qed.

(** X16.  The sweep [checkForFallenParticles], for [Math.random()] with
    values in the doubles of [[0, 1)] and a canvas with positive sides of
    at most [2^24] pixels.  The particles array keeps its length;
    afterwards the particle does not count as fallen; a particle that had
    not fallen is untouched; a fallen one gets, on each axis, the product
    of a random value and the side stored in single precision, which lies
    on the canvas or on its far edge ([0 <= x <= width]: the stored
    product can round up to the side); a particle whose coordinates are
    both [NaN] does not count as fallen and stays where it is. *)
Theorem sweep_postcondition random a rng k :
  (forall j, randomValue (random j)) ->
  0 < App.width a <= 2 ^ 24 -> 0 < App.height a <= 2 ^ 24 ->
  0 <= k -> 2 * k + 1 < Z.of_nat (length (App.particles a)) ->
  let x := ta_read (App.particles a) (2 * k) in
  let y := ta_read (App.particles a) (2 * k + 1) in
  let a' := fst (Controls.checkForFallenParticles random a rng) in
  let x' := ta_read (App.particles a') (2 * k) in
  let y' := ta_read (App.particles a') (2 * k + 1) in
  length (App.particles a') = length (App.particles a) /\
  Controls.didFall a' x' y' = false /\
  (Controls.didFall a x y = false -> x' = x /\ y' = y) /\
  (Controls.didFall a x y = true ->
   exists d : nat,
     x' = Num (freshCoordinate (random d) (App.width a)) /\
     y' = Num (freshCoordinate (random (S d)) (App.height a)) /\
     (0 <= freshCoordinate (random d) (App.width a)
      <= inject_Z (App.width a))%Q /\
     (0 <= freshCoordinate (random (S d)) (App.height a)
      <= inject_Z (App.height a))%Q) /\
  (x = NaN -> y = NaN -> x' = NaN /\ y' = NaN).
Proof.
  intros Hrandom Hw Hh Hk Hlen x y a' x' y'.
  destruct (sweep_particle random a rng k Hk Hlen) as [Hl Hres].
  cbv zeta in Hres. fold x y a' in Hres, Hl. fold x' y' in Hres.
  assert (Hdims : forall u v, Controls.didFall a' u v = Controls.didFall a u v).
  { intros u v. unfold a', Controls.checkForFallenParticles.
    destruct (fold_left _ _ _) as [p1 r1]. reflexivity. }
  split; [exact Hl|].
  destruct (Controls.didFall a x y) eqn:Efall.
  - destruct Hres as [d [Hx Hy]].
    pose proof (freshCoordinate_range (random d) (App.width a) (Hrandom d) Hw)
      as Hqx.
    pose proof (freshCoordinate_range (random (S d)) (App.height a)
                  (Hrandom (S d)) Hh) as Hqy.
    split; [rewrite Hdims, Hx, Hy; apply didFall_inside; assumption|].
    split; [intros Hf; discriminate|]. split.
    + intros _. exists d. split; [exact Hx|]. split; [exact Hy|].
      split; assumption.
    + intros Hnx Hny. rewrite Hnx, Hny in Efall. discriminate.
  - destruct Hres as [Hx Hy].
    split; [rewrite Hdims, Hx, Hy; exact Efall|].
    split; [intros _; split; assumption|].
    split; [intros Hf; discriminate|].
    intros Hnx Hny. rewrite Hx, Hy. split; assumption.
Qed.


(** ** Lost particles and the pull of the field *)

Lemma advance_NaN random a ps rng i :
  ta_read ps i = NaN -> ta_read ps (i + 1) = NaN ->
  fst (fst (App.advance random a ps rng i)) = NaN /\
  snd (fst (App.advance random a ps rng i)) = NaN.
Proof.
  intros Hx Hy. unfold App.advance. rewrite Hx, Hy.
  destruct (App.gradients a) as [g|]; simpl; auto.
Qed.

(** X17.  A particle whose coordinates are both [NaN] keeps them through
    a frame update and through a sweep: nothing in the application gives it
    a position again. *)
Theorem nan_is_absorbing random rgbToVal a rng k :
  0 <= k -> 2 * k + 1 < Z.of_nat (length (App.particles a)) ->
  ta_read (App.particles a) (2 * k) = NaN ->
  ta_read (App.particles a) (2 * k + 1) = NaN ->
  let framed := fst (App.update random rgbToVal a rng) in
  let swept := fst (Controls.checkForFallenParticles random a rng) in
  (ta_read (App.particles framed) (2 * k) = NaN /\
   ta_read (App.particles framed) (2 * k + 1) = NaN) /\
  (ta_read (App.particles swept) (2 * k) = NaN /\
   ta_read (App.particles swept) (2 * k + 1) = NaN).
Proof.
  intros Hk Hlen Hx Hy framed swept. split.
  - destruct (App.isRunning a) eqn:Erun.
    + destruct (update_particle random rgbToVal a rng Erun k Hk ltac:(lia))
        as [d [Hx' [Hy' _]]].
      fold framed in Hx', Hy'. rewrite Hx', Hy'.
      destruct (advance_NaN random a (App.particles a) d (2 * k) Hx Hy)
        as [E1 E2].
      unfold movedX, movedY. rewrite E1, E2. auto.
    + unfold framed. rewrite (update_paused random rgbToVal a rng Erun).
      simpl. auto.
  - destruct (sweep_particle random a rng k Hk Hlen) as [_ Hres].
    cbv zeta in Hres. fold swept in Hres. rewrite Hx, Hy in Hres.
    assert (Hstay : Controls.didFall a NaN NaN = false) by reflexivity.
    rewrite Hstay in Hres. exact Hres.
Qed.

Lemma obtainGradientAt_empty width x y :
  App.obtainGradientAt [] width x y = (NaN, NaN).
Proof.
  unfold App.obtainGradientAt.
  destruct (Math_round x) as [rx|]; [|reflexivity].
  destruct (Math_round y) as [ry|]; [|reflexivity].
  unfold ta_read, ta_lookup.
  destruct (0 <=? _); destruct (0 <=? _); reflexivity.
Qed.

Lemma advance_empty_field random a ps rng i :
  App.gradients a = Some [] ->
  fst (fst (App.advance random a ps rng i)) = NaN /\
  snd (fst (App.advance random a ps rng i)) = NaN.
Proof.
  intros Hg. unfold App.advance. rewrite Hg, obtainGradientAt_empty.
  simpl. rewrite !num_add_NaN_r. auto.
Qed.

(** X18.  A running application that holds an empty gradients buffer
    (what a worker without dimensions posts) turns both coordinates of every
    particle into [NaN] in one frame, and draws none of them: the buffer is
    the fill alone. *)
Theorem empty_field_erases_particles random rgbToVal a rng :
  App.isRunning a = true ->
  App.gradients a = Some [] ->
  let a' := fst (App.update random rgbToVal a rng) in
  (forall k, 0 <= k -> 2 * k < Z.of_nat (length (App.particles a)) ->
     ta_read (App.particles a') (2 * k) = NaN /\
     ta_read (App.particles a') (2 * k + 1) = NaN) /\
  App.buffer a' = App.fillBuffer rgbToVal a.
Proof.
  intros Hrun Hg a'.
  assert (Hparts : forall k, 0 <= k ->
    2 * k < Z.of_nat (length (App.particles a)) ->
    ta_read (App.particles a') (2 * k) = NaN /\
    ta_read (App.particles a') (2 * k + 1) = NaN).
  { intros k Hk Hlen.
    destruct (update_particle random rgbToVal a rng Hrun k Hk Hlen)
      as [d [Hx [Hy _]]].
    fold a' in Hx, Hy. rewrite Hx, Hy.
    destruct (advance_empty_field random a (App.particles a) d (2 * k) Hg)
      as [E1 E2].
    unfold movedX, movedY. rewrite E1, E2. auto. }
  split; [exact Hparts|].
  destruct (update_running random rgbToVal a rng Hrun) as [Hp Hb].
  pose proof (update_trace random rgbToVal a rng) as [_ _ _ _ _ Hcells].
  fold a' in Hp, Hb. rewrite <- Hb in Hcells.
  apply ta_lookup_ext. intros j.
  destruct (Hcells j) as [Hfill|[_ [i [d [Hi [_ Hidx]]]]]]; [exact Hfill|].
  destruct (advance_empty_field random a (App.particles a) d i Hg)
    as [E1 E2].
  unfold drawnCell, movedX, movedY in Hidx. rewrite E1, E2 in Hidx.
  discriminate.
Qed.

Lemma unitComponent_bound v :
  unitComponent v -> exists q, v = Num q /\ (-1 <= q <= 1)%Q.
Proof.
  intros [-> | [-> | ->]]; eexists; (split; [reflexivity|]); split; Lqa.lra.
Qed.

Lemma advance_pulled random a ps rng i g px py gx gy :
  App.gradients a = Some g ->
  ta_read ps i = Num px -> ta_read ps (i + 1) = Num py ->
  gradientAt g (App.width a) (Qfloor (px + (1 # 2))) (Qfloor (py + (1 # 2)))
    = (Num gx, Num gy) ->
  fst (App.advance random a ps rng i) =
    (Num (fl_add (fl_add px (fl_mul App.MAX_GRADIENT_INTENSITY gx))
            (App.jitter a (random rng))),
     Num (fl_add (fl_add py (fl_mul App.MAX_GRADIENT_INTENSITY gy))
            (App.jitter a (random (S rng))))).
Proof.
  intros Hg Hpx Hpy Hgrad. unfold App.advance, App.obtainGradientAt.
  rewrite Hg, Hpx, Hpy. unfold Math_round.
  unfold gradientAt in Hgrad. cbv zeta.
  apply pair_equal_spec in Hgrad. destruct Hgrad as [-> ->]. reflexivity.
Qed.

(** The pull along one axis is at most [MAX_GRADIENT_INTENSITY]. *)
Lemma pull_range (gx : Q) :
  (-1 <= gx <= 1)%Q ->
  (- App.MAX_GRADIENT_INTENSITY <= fl_mul App.MAX_GRADIENT_INTENSITY gx
   <= App.MAX_GRADIENT_INTENSITY)%Q.
Proof.
  intros [H1 H2]. unfold fl_mul.
  assert (Hfix : (rnd App.MAX_GRADIENT_INTENSITY == App.MAX_GRADIENT_INTENSITY)%Q).
  { unfold App.MAX_GRADIENT_INTENSITY, lit. rewrite rnd_idempotent. reflexivity. }
  assert (Hpos : (0 <= App.MAX_GRADIENT_INTENSITY)%Q)
    by (vm_compute; discriminate).
  set (M := App.MAX_GRADIENT_INTENSITY) in *. clearbody M.
  split.
  - apply rnd_fixed_ge; [Lqa.nra|]. rewrite rnd_opp, Hfix. reflexivity.
  - apply rnd_fixed_le; [Lqa.nra|exact Hfix].
Qed.

(** A position below [2^18] moved by a pull of at most [c <= 1] and a
    jitter of at most [h <= 2^17] is stored at most [c + h + 1/8] away. *)
Lemma pulled_step (p t j c h : Q) :
  (Qabs p <= inject_Z (2 ^ 18))%Q ->
  (- c <= t <= c)%Q -> (c <= 1)%Q ->
  (- h <= j <= h)%Q -> (h <= inject_Z (2 ^ 17))%Q ->
  (Qabs (Math_fround (fl_add (fl_add p t) j) - p) <= c + h + (1 # 8))%Q.
Proof.
  intros Hp [Ht1 Ht2] Hc [Hj1 Hj2] Hh.
  apply Qabs_Qle_condition in Hp. destruct Hp as [Hp1 Hp2].
  change (inject_Z (2 ^ 18)) with 262144%Q in *.
  change (inject_Z (2 ^ 17)) with 131072%Q in *.
  unfold fl_add.
  destruct (rnd_near (p + t)) as [Hu1 Hu2].
  { change (inject_Z (2 ^ 19)) with 524288%Q.
    apply Qabs_Qle_condition. split; Lqa.lra. }
  set (u := rnd (p + t)) in *. clearbody u.
  destruct (stored_near (u + j)) as [Hs1 Hs2].
  { change (inject_Z (2 ^ 19)) with 524288%Q.
    apply Qabs_Qle_condition. split; Lqa.lra. }
  set (s := Math_fround (rnd (u + j))) in *. clearbody s.
  apply Qabs_Qle_condition. split; Lqa.lra.
Qed.

(** X19.  When the gradients buffer holds only -1, 0 and 1 and a particle
    rounds to a cell inside it, one frame of a running application moves
    the particle, on each axis, by [MAX_GRADIENT_INTENSITY] times the
    gradient component of that cell and then by the jitter, both sums in
    double arithmetic, and stores the result in single precision; for an
    intensity of at most [2^18] and a position below [2^18] in absolute
    value, the stored position is at most
    [MAX_GRADIENT_INTENSITY + intensity / 2 + 1/8] away from the old one.
    [Math.random()] returns doubles of [[0,1)] and the two intensity fields
    hold doubles. *)
Theorem pull_bound random rgbToVal a rng k g px py :
  (forall j, randomValue (random j)) ->
  App.isRunning a = true ->
  App.gradients a = Some g ->
  Forall unitComponent g ->
  (0 <= App.vibrationIntensity a)%Q ->
  (App.vibrationIntensity a <= inject_Z (2 ^ 18))%Q ->
  isDouble (App.vibrationIntensity a) ->
  isDouble (App.halfVibrationIntensity a) ->
  (App.halfVibrationIntensity a == App.vibrationIntensity a / 2)%Q ->
  0 <= k -> 2 * k + 1 < Z.of_nat (length (App.particles a)) ->
  ta_read (App.particles a) (2 * k) = Num px ->
  ta_read (App.particles a) (2 * k + 1) = Num py ->
  (Qabs px <= inject_Z (2 ^ 18))%Q ->
  (Qabs py <= inject_Z (2 ^ 18))%Q ->
  let rx := Qfloor (px + (1 # 2)) in
  let ry := Qfloor (py + (1 # 2)) in
  0 <= (ry * App.width a + rx) * 2 ->
  (ry * App.width a + rx) * 2 + 1 < Z.of_nat (length g) ->
  let a' := fst (App.update random rgbToVal a rng) in
  let reach :=
    (App.MAX_GRADIENT_INTENSITY + App.vibrationIntensity a / 2 + (1 # 8))%Q in
  exists (d : nat) (px' py' gx gy : Q),
    gradientAt g (App.width a) rx ry = (Num gx, Num gy) /\
    ta_read (App.particles a') (2 * k) = Num px' /\
    ta_read (App.particles a') (2 * k + 1) = Num py' /\
    px' = Math_fround
            (fl_add (fl_add px (fl_mul App.MAX_GRADIENT_INTENSITY gx))
               (App.jitter a (random d))) /\
    py' = Math_fround
            (fl_add (fl_add py (fl_mul App.MAX_GRADIENT_INTENSITY gy))
               (App.jitter a (random (S d)))) /\
    (Qabs (px' - px) <= reach)%Q /\ (Qabs (py' - py) <= reach)%Q.
Proof.
  intros Hrandom Hrun Hg Hunit Hpos Hhigh HI HH Hhalf Hk Hlen Hpx Hpy Bx By
         rx ry Hlo Hhi a' reach.
  destruct (update_particle random rgbToVal a rng Hrun k Hk ltac:(lia))
    as [d [Hx [Hy _]]].
  fold a' in Hx, Hy.
  destruct (unitComponent_bound _
              (ta_read_Forall unitComponent g ((ry * App.width a + rx) * 2)
                 Hunit ltac:(lia))) as [gx [Hgx Hbx]].
  destruct (unitComponent_bound _
              (ta_read_Forall unitComponent g ((ry * App.width a + rx) * 2 + 1)
                 Hunit ltac:(lia))) as [gy [Hgy Hby]].
  assert (Hgrad : gradientAt g (App.width a) rx ry = (Num gx, Num gy))
    by (unfold gradientAt; rewrite Hgx, Hgy; reflexivity).
  unfold movedX, movedY in Hx, Hy.
  rewrite (advance_pulled random a _ d _ g px py gx gy Hg Hpx Hpy Hgrad)
    in Hx, Hy.
  cbn [fst snd toFloat32] in Hx, Hy.
  pose proof (jitter_range a (random d) (Hrandom d) Hpos HI HH Hhalf) as Hrx.
  pose proof (jitter_range a (random (S d)) (Hrandom (S d)) Hpos HI HH Hhalf)
    as Hry.
  assert (Hd : (App.vibrationIntensity a / 2 ==
                App.vibrationIntensity a * (1 # 2))%Q)
    by (unfold Qdiv; reflexivity).
  assert (H17 : (App.vibrationIntensity a / 2 <= inject_Z (2 ^ 17))%Q).
  { change (inject_Z (2 ^ 18)) with 262144%Q in Hhigh.
    change (inject_Z (2 ^ 17)) with 131072%Q. rewrite Hd. Lqa.lra. }
  assert (Hmax : (App.MAX_GRADIENT_INTENSITY <= 1)%Q)
    by (vm_compute; discriminate).
  eexists d, _, _, gx, gy.
  split; [exact Hgrad|].
  split; [exact Hx|]. split; [exact Hy|].
  split; [reflexivity|]. split; [reflexivity|].
  unfold reach.
  split; apply pulled_step; try assumption; apply pull_range; assumption.
Qed.


(** ** Scattering the particles *)

Section Scatter.
Variable random : nat -> Q.
Variables width height : Z.

Lemma scatterStep_length st i :
  length (fst (Controls.scatterStep random width height st i)) = length (fst st).
Proof.
  destruct st as [ps r]. unfold Controls.scatterStep, Float32Array_set. simpl.
  rewrite !ta_store_length. reflexivity.
Qed.

Lemma scatterStep_counter st i :
  snd (Controls.scatterStep random width height st i) = S (S (snd st)).
Proof. destruct st as [ps r]. reflexivity. Qed.

Lemma scatterStep_other st k k' :
  k' <> k ->
  ta_read (fst (Controls.scatterStep random width height st (2 * k'))) (2 * k) =
    ta_read (fst st) (2 * k) /\
  ta_read (fst (Controls.scatterStep random width height st (2 * k')))
          (2 * k + 1) =
    ta_read (fst st) (2 * k + 1).
Proof.
  intros Hne. destruct st as [ps r].
  unfold Controls.scatterStep, Float32Array_set. simpl.
  rewrite !ta_read_store_ne by lia. auto.
Qed.

Lemma scatterStep_self ps r k :
  0 <= k -> 2 * k + 1 < Z.of_nat (length ps) ->
  let ps' := fst (Controls.scatterStep random width height (ps, r) (2 * k)) in
  ta_read ps' (2 * k) = Num (freshCoordinate (random r) width) /\
  ta_read ps' (2 * k + 1) = Num (freshCoordinate (random (S r)) height).
Proof.
  intros Hk Hlen ps'.
  unfold ps', Controls.scatterStep, Float32Array_set, freshCoordinate. simpl.
  split.
  - rewrite ta_read_store_ne by lia. apply ta_read_store_eq. lia.
  - apply ta_read_store_eq. rewrite ta_store_length. lia.
Qed.

Lemma scatter_length ps rng :
  length (fst (Controls.scatter random width height ps rng)) = length ps.
Proof.
  unfold Controls.scatter.
  apply (fold_left_inv (Controls.scatterStep random width height)
           (fun st => length (fst st) = length ps)).
  - intros st i _ Hl. rewrite scatterStep_length. exact Hl.
  - reflexivity.
Qed.

Lemma scatter_counter ps rng :
  snd (Controls.scatter random width height ps rng) =
  (rng + 2 * Z.to_nat ((Z.of_nat (length ps) + 1) / 2))%nat.
Proof.
  unfold Controls.scatter. rewrite <- particleIndices_length.
  generalize (App.particleIndices (Z.of_nat (length ps))).
  intros idx. change rng with (snd (ps, rng)) at 2.
  generalize (ps, rng). induction idx as [|i idx IH]; intros st; simpl.
  - lia.
  - rewrite IH, scatterStep_counter. lia.
Qed.

Lemma scatter_particle ps rng k :
  0 <= k -> 2 * k + 1 < Z.of_nat (length ps) ->
  let ps' := fst (Controls.scatter random width height ps rng) in
  exists d : nat,
    ta_read ps' (2 * k) = Num (freshCoordinate (random d) width) /\
    ta_read ps' (2 * k + 1) = Num (freshCoordinate (random (S d)) height).
Proof.
  intros Hk Hlen ps'. unfold ps', Controls.scatter.
  apply (fold_left_from (Controls.scatterStep random width height)
    (fun st => length (fst st) = length ps)
    (fun st => exists d : nat,
       ta_read (fst st) (2 * k) = Num (freshCoordinate (random d) width) /\
       ta_read (fst st) (2 * k + 1) =
         Num (freshCoordinate (random (S d)) height))
    (2 * k)).
  - apply particleIndices_NoDup.
  - apply particleIndices_In. exists k. split; [reflexivity|lia].
  - intros st i _ _ Hl. rewrite scatterStep_length. exact Hl.
  - intros [ps0 r] Hl. simpl in Hl. exists r.
    apply scatterStep_self; [exact Hk|lia].
  - intros st i Hi Hne [d [Hx Hy]].
    apply particleIndices_In in Hi. destruct Hi as [k' [-> _]].
    destruct (scatterStep_other st k k') as [Ha Hb];
      [intros ->; apply Hne; reflexivity|].
    exists d. rewrite Ha, Hb. auto.
  - reflexivity.
Qed.

End Scatter.

(** The scaled size of a window side: the least integer that covers it. *)
Lemma scaled_side (inner : nat) :
  let side := Math_ceil (inject_Z (Z.of_nat inner) / CANVAS_SCALE) in
  (CANVAS_SCALE * (inject_Z side - 1) < inject_Z (Z.of_nat inner)
   <= CANVAS_SCALE * inject_Z side)%Q /\
  ((0 < inner)%nat -> 0 < side) /\
  (inner = 0%nat -> side = 0).
Proof.
  intros side.
  assert (Hzero : inner = 0%nat -> side = 0) by (intros ->; reflexivity).
  revert Hzero. unfold side, Math_ceil, CANVAS_SCALE.
  set (q := (inject_Z (Z.of_nat inner) / (15 # 10))%Q).
  assert (Hq : (inject_Z (Z.of_nat inner) == (15 # 10) * q)%Q)
    by (unfold q; field).
  clearbody q. intros Hzero.
  pose proof (Qle_ceiling q) as Hle.
  pose proof (Qceiling_lt q) as Hlt.
  unfold Z.sub in Hlt. rewrite inject_Z_plus in Hlt.
  change (inject_Z (- (1))) with (- (1))%Q in Hlt.
  split; [split; rewrite Hq; Lqa.lra|].
  split.
  - intros Hpos.
    assert (Hin : (0 < inject_Z (Z.of_nat inner))%Q).
    { change 0%Q with (inject_Z 0). rewrite <- Zlt_Qlt. lia. }
    assert (H0 : (0 < inject_Z (Qceiling q))%Q) by (rewrite Hq in Hin; Lqa.lra).
    change 0%Q with (inject_Z 0) in H0. rewrite <- Zlt_Qlt in H0. exact H0.
  - exact Hzero.
Qed.

Lemma rebuild_returns random a width height rng :
  0 < width -> 0 < height ->
  exists a' rng',
    Controls.rebuild random a width height rng = Returned (a', rng') /\
    App.width a' = width /\ App.height a' = height /\
    App.buffer a' = replicate (Z.to_nat (width * height)) 0 /\
    App.particles a' =
      fst (Controls.scatter random width height (App.particles a) rng) /\
    rng' = snd (Controls.scatter random width height (App.particles a) rng) /\
    App.vibrationValues a' = App.vibrationValues a /\
    App.gradients a' = App.gradients a /\
    App.isRunning a' = App.isRunning a /\
    App.colors a' = App.colors a /\
    App.colorIndex a' = App.colorIndex a /\
    App.vibrationIntensity a' = App.vibrationIntensity a /\
    App.halfVibrationIntensity a' = App.halfVibrationIntensity a /\
    App.fpsCount a' = App.fpsCount a /\
    App.debugVibration a' = App.debugVibration a /\
    App.backgroundColor a' = App.backgroundColor a /\
    App.nonResonantColor a' = App.nonResonantColor a.
Proof.
  intros Hw Hh. unfold Controls.rebuild.
  destruct (width =? 0) eqn:Ew; [apply Z.eqb_eq in Ew; lia|].
  destruct (height =? 0) eqn:Eh; [apply Z.eqb_eq in Eh; lia|].
  cbn [orb].
  destruct (Controls.scatter random width height (App.particles a) rng)
    as [ps r].
  eexists. eexists. split; [reflexivity|].
  cbn. repeat (split; try reflexivity).
Qed.


(** ** Resize, construction and the slider of index.js *)

Lemma rebuild_inside random a width height rng a' rng' k :
  (forall j, randomValue (random j)) ->
  0 < width <= 2 ^ 24 -> 0 < height <= 2 ^ 24 ->
  Controls.rebuild random a width height rng = Returned (a', rng') ->
  0 <= k -> 2 * k + 1 < Z.of_nat (length (App.particles a)) ->
  onCanvas a' (ta_read (App.particles a') (2 * k))
              (ta_read (App.particles a') (2 * k + 1)).
Proof.
  intros Hrandom Hw Hh Hre Hk Hlen.
  destruct (rebuild_returns random a width height rng ltac:(lia) ltac:(lia))
    as [a1 [r1 [Hre1 [Hw1 [Hh1 [_ [Hps _]]]]]]].
  rewrite Hre in Hre1. injection Hre1 as <- <-.
  destruct (scatter_particle random width height (App.particles a) rng k
              Hk Hlen) as [d [Hx Hy]].
  rewrite Hps. unfold onCanvas. rewrite Hw1, Hh1.
  eexists. eexists. split; [exact Hx|]. split; [exact Hy|].
  split; apply freshCoordinate_range; auto.
Qed.

(** The scaled side of a window is at most the window side. *)
Lemma side_bound (inner : nat) (side : Z) :
  coversSide inner side -> side <= Z.max 1 (Z.of_nat inner).
Proof.
  intros [Hlt _]. unfold CANVAS_SCALE in Hlt.
  destruct (Z_le_gt_dec side (Z.max 1 (Z.of_nat inner))) as [H|H];
    [exact H|exfalso].
  assert (H1 : (inject_Z (Z.of_nat inner) + 1 <= inject_Z side)%Q).
  { change 1%Q with (inject_Z 1). rewrite <- inject_Z_plus, <- Zle_Qle. lia. }
  assert (H2 : (2 <= inject_Z side)%Q).
  { change 2%Q with (inject_Z 2). rewrite <- Zle_Qle. lia. }
  assert (H0 : (0 <= inject_Z (Z.of_nat inner))%Q).
  { change 0%Q with (inject_Z 0). rewrite <- Zle_Qle. lia. }
  qlra.
Qed.

(** Rounding the quotient of a window side below [2^50] by [CANVAS_SCALE]
    to a double does not change its ceiling: the quotient is an integer or
    at least a third away from the integers. *)
Lemma ceil_quotient (inner : nat) :
  Z.of_nat inner <= 2 ^ 50 ->
  Math_ceil (fl_div (inject_Z (Z.of_nat inner)) CANVAS_SCALE) =
  Math_ceil (inject_Z (Z.of_nat inner) / CANVAS_SCALE).
Proof.
  intros Hmax. unfold Math_ceil, fl_div, CANVAS_SCALE.
  set (i := Z.of_nat inner) in *.
  assert (Hi : 0 <= i) by (unfold i; lia).
  set (q := (inject_Z i / (15 # 10))%Q).
  assert (Hq : (inject_Z i == (15 # 10) * q)%Q) by (unfold q; field).
  set (k := Qceiling q).
  pose proof (Qle_ceiling q) as Hle. fold k in Hle.
  pose proof (Qceiling_lt q) as Hlt. fold k in Hlt.
  assert (Hk0 : 0 <= k).
  { assert (H0 : (inject_Z 0 <= q)%Q).
    { change (inject_Z 0) with 0%Q.
      assert (0 <= inject_Z i)%Q
        by (change 0%Q with (inject_Z 0); rewrite <- Zle_Qle; exact Hi).
      clearbody q. qlra. }
    apply Qceiling_resp_le in H0. rewrite Qceiling_Z in H0. exact H0. }
  assert (Hki : k <= Z.max 1 i).
  { apply (side_bound inner). unfold coversSide, CANVAS_SCALE. fold i.
    unfold Z.sub in Hlt. rewrite inject_Z_plus in Hlt.
    change (inject_Z (- (1))) with (- (1))%Q in Hlt.
    split; rewrite Hq; clearbody q k; qlra. }
  assert (Hbig : 2 ^ 50 < 2 ^ 51) by (apply Z.pow_lt_mono_r; lia).
  assert (Hbig' : 2 ^ 51 < 2 ^ 53) by (apply Z.pow_lt_mono_r; lia).
  assert (Hup : (rnd q <= inject_Z k)%Q).
  { apply rnd_fixed_le; [exact Hle|apply rnd_Z; lia]. }
  assert (Hthird : (inject_Z (4 * k - 3) * (1 # 4) <= q)%Q).
  { assert (Hz : 3 * (k - 1) < 2 * i).
    { rewrite Zlt_Qlt. rewrite !inject_Z_mult.
      change (inject_Z 3) with 3%Q. change (inject_Z 2) with 2%Q.
      rewrite Hq. clearbody q k. qlra. }
    assert (Hz' : (inject_Z (3 * (k - 1) + 1) <= inject_Z (2 * i))%Q)
      by (rewrite <- Zle_Qle; lia).
    rewrite inject_Z_mult in Hz'. change (inject_Z 2) with 2%Q in Hz'.
    rewrite Hq in Hz'.
    replace (4 * k - 3) with (4 * (k - 1) + 1) by lia.
    rewrite inject_Z_plus, inject_Z_mult.
    rewrite inject_Z_plus, inject_Z_mult in Hz'.
    change (inject_Z 4) with 4%Q. change (inject_Z 3) with 3%Q in Hz'.
    change (inject_Z 1) with 1%Q in *.
    clearbody q k. qlra. }
  assert (Hdown : (inject_Z (4 * k - 3) * (1 # 4) <= rnd q)%Q).
  { apply rnd_fixed_ge; [exact Hthird|].
    assert (Ep : (pow2 (-2) == 1 # 4)%Q) by reflexivity.
    rewrite <- Ep. apply rnd_grid; lia. }
  assert (Hstrict : (inject_Z (k - 1) < rnd q)%Q).
  { eapply Qlt_le_trans; [|exact Hdown].
    replace (4 * k - 3) with (4 * (k - 1) + 1) by lia.
    rewrite inject_Z_plus, inject_Z_mult.
    change (inject_Z 4) with 4%Q. change (inject_Z 1) with 1%Q.
    qlra. }
  pose proof (Qle_ceiling (rnd q)) as Cle.
  pose proof (Qceiling_lt (rnd q)) as Clt.
  assert (Qceiling (rnd q) - 1 < k).
  { rewrite Zlt_Qlt. eapply Qlt_le_trans; [exact Clt|exact Hup]. }
  assert (k - 1 < Qceiling (rnd q)).
  { rewrite Zlt_Qlt. eapply Qlt_le_trans; [exact Hstrict|exact Cle]. }
  lia.
Qed.

(** X20.  [resize] of the application with the frequency control, on a
    window with positive sides of at most [2^24] pixels and for
    [Math.random()] with values in the doubles of [[0, 1)].  It returns;
    width and height are the least integers whose [CANVAS_SCALE]-fold
    covers the window sides; the buffer has [width * height] cells, all
    zero; one message with these dimensions and the current frequency is
    sent; frequency and gradients are kept; the particles array keeps its
    length and every particle lies on the canvas, its far edges included
    (a coordinate stored in single precision can round up to the side), at
    the cost of two random values per pair of entries. *)
Theorem resize_postcondition random innerWidth innerHeight p rng :
  (forall j, randomValue (random j)) ->
  (0 < innerWidth)%nat -> (0 < innerHeight)%nat ->
  Z.of_nat innerWidth <= 2 ^ 24 -> Z.of_nat innerHeight <= 2 ^ 24 ->
  exists p' rng',
    FrequencyPage.resize random innerWidth innerHeight p rng
      = Returned (p', rng') /\
    let a := FrequencyPage.app p in
    let a' := FrequencyPage.app p' in
    coversSide innerWidth (App.width a') /\
    coversSide innerHeight (App.height a') /\
    App.buffer a' =
      replicate (Z.to_nat (App.width a' * App.height a')) 0 /\
    FrequencyPage.sent p' =
      FrequencyPage.sent p ++
      [FrequencyWorker.mkConfigMessage
         (Some (App.width a')) (Some (App.height a'))
         (Some (FrequencyPage.currentFrequency p))] /\
    FrequencyPage.currentFrequency p' = FrequencyPage.currentFrequency p /\
    App.gradients a' = App.gradients a /\
    length (App.particles a') = length (App.particles a) /\
    rng' = (rng + 2 * Z.to_nat ((Z.of_nat (length (App.particles a)) + 1) / 2))%nat /\
    forall k, 0 <= k -> 2 * k + 1 < Z.of_nat (length (App.particles a)) ->
      onCanvas a' (ta_read (App.particles a') (2 * k))
                  (ta_read (App.particles a') (2 * k + 1)).
Proof.
  intros Hrandom Hiw Hih Hmw Hmh.
  destruct (scaled_side innerWidth) as [Hcw [Hpw _]].
  destruct (scaled_side innerHeight) as [Hch [Hph _]].
  specialize (Hpw Hiw). specialize (Hph Hih). cbv zeta in *.
  pose proof (side_bound innerWidth _ Hcw) as Hbw.
  pose proof (side_bound innerHeight _ Hch) as Hbh.
  unfold FrequencyPage.resize.
  set (width := Math_ceil (inject_Z (Z.of_nat innerWidth) / CANVAS_SCALE)) in *.
  set (height := Math_ceil (inject_Z (Z.of_nat innerHeight) / CANVAS_SCALE)) in *.
  destruct (rebuild_returns random (FrequencyPage.app p) width height rng
              Hpw Hph)
    as [a1 [r1 [Hre [Hw1 [Hh1 [Hbuf [Hps [Hr1 [_ [Hg _]]]]]]]]]].
  pose proof (rebuild_inside random (FrequencyPage.app p) width height rng
                a1 r1) as Hin.
  rewrite Hre. eexists. eexists. split; [reflexivity|].
  cbn [FrequencyPage.app FrequencyPage.sent FrequencyPage.currentFrequency].
  rewrite Hw1, Hh1.
  split; [exact Hcw|]. split; [exact Hch|]. split; [exact Hbuf|].
  split; [reflexivity|]. split; [reflexivity|]. split; [exact Hg|].
  split; [rewrite Hps; apply scatter_length|].
  split; [rewrite Hr1; apply scatter_counter|].
  intros k Hk Hlen. apply Hin; auto; lia.
Qed.

(** X21.  On a window one of whose sides is zero, [resize] sends its
    message to the worker, carrying a zero dimension, and then fails in
    [getImageData]: buffer and particles are left as they were and no random
    value is drawn. *)
Theorem resize_empty_window random innerWidth innerHeight p rng :
  innerWidth = 0%nat \/ innerHeight = 0%nat ->
  exists p',
    FrequencyPage.resize random innerWidth innerHeight p rng
      = Thrown (p', rng) /\
    let a := FrequencyPage.app p in
    let a' := FrequencyPage.app p' in
    App.width a' * App.height a' = 0 /\
    FrequencyPage.sent p' =
      FrequencyPage.sent p ++
      [FrequencyWorker.mkConfigMessage
         (Some (App.width a')) (Some (App.height a'))
         (Some (FrequencyPage.currentFrequency p))] /\
    App.buffer a' = App.buffer a /\
    App.particles a' = App.particles a.
Proof.
  intros Hzero.
  destruct (scaled_side innerWidth) as [_ [_ Hzw]].
  destruct (scaled_side innerHeight) as [_ [_ Hzh]].
  cbv zeta in *. unfold FrequencyPage.resize, Controls.rebuild.
  set (width := Math_ceil (inject_Z (Z.of_nat innerWidth) / CANVAS_SCALE)) in *.
  set (height := Math_ceil (inject_Z (Z.of_nat innerHeight) / CANVAS_SCALE)) in *.
  assert (Hor : (width =? 0) || (height =? 0) = true).
  { destruct Hzero as [H|H]; [rewrite (Hzw H)|rewrite (Hzh H)];
      [reflexivity|apply orb_true_r]. }
  rewrite Hor. eexists. split; [reflexivity|].
  cbn [FrequencyPage.app FrequencyPage.sent App.width App.height App.buffer
       App.particles].
  split; [|auto].
  apply orb_true_iff in Hor. destruct Hor as [H|H]; apply Z.eqb_eq in H; lia.
Qed.

(** X22.  The constructor of the application of index.js never
    completes, whatever the window and the colours: it calls [resize] before
    it assigns [freqSlider], and [resize] raises when it reads
    [this.freqSlider.value].  At that point no message has been sent to the
    worker, no frame has been drawn and no buffer exists; every later call
    of [resize], whose window listener is already installed, raises in the
    same way without sending anything. *)
Theorem constructor_never_completes random rgbToVal innerWidth innerHeight
    nonResonantColor colors backgroundColor rng :
  exists p',
    ParamsPage.constructor random rgbToVal innerWidth innerHeight
      nonResonantColor colors backgroundColor rng = Thrown (p', rng) /\
    ParamsPage.sent p' = [] /\
    ParamsPage.freqSlider p' = None /\
    App.fpsCount (ParamsPage.app p') = 0 /\
    App.buffer (ParamsPage.app p') = [] /\
    (forall innerWidth' innerHeight' rng',
       ParamsPage.resize random innerWidth' innerHeight' p' rng' =
       Thrown (ParamsPage.mkChladniPage
                 (ParamsPage.withDimensions (ParamsPage.app p')
                    (Math_ceil (inject_Z (Z.of_nat innerWidth') / CANVAS_SCALE))
                    (Math_ceil (inject_Z (Z.of_nat innerHeight') / CANVAS_SCALE)))
                 None [],
               rng')).
Proof.
  eexists. split; [reflexivity|].
  cbn [ParamsPage.sent ParamsPage.freqSlider ParamsPage.app App.fpsCount
       App.buffer ParamsPage.withDimensions].
  split; [reflexivity|]. split; [reflexivity|]. split; [reflexivity|].
  split; [reflexivity|]. intros iw ih r. reflexivity.
Qed.

Lemma gradient_reads (g : Float32Array) (w h x y : Z) :
  length g = Z.to_nat (w * h * 2) ->
  Forall unitComponent g ->
  0 <= x < w -> 0 <= y < h ->
  unitComponent (fst (gradientAt g w x y)) /\
  unitComponent (snd (gradientAt g w x y)).
Proof.
  intros Hlen Hunit Hx Hy.
  pose proof (cell_index_range w h x y Hx Hy) as Hc.
  unfold gradientAt. cbn [fst snd].
  split; apply ta_read_Forall; try exact Hunit; rewrite Hlen; lia.
Qed.

(** X23.  For a slider position between 0 and 8, [sendParamsToWorker]
    returns and sends the dimensions of the application together with the
    parameters of that table entry; the worker of index.js then holds
    exactly these dimensions and parameters and posts one field; once
    [onMessageFromWorker] has taken it, the application holds
    [width * height] vibration values and twice as many gradient entries at
    the moderate intensity, and the gradient read for every cell of the
    canvas is made of -1, 0 and 1. *)
Theorem slider_round_trip cos random p index c :
  0 <= index < 9 ->
  exists p' params field vib g,
    ta_lookup ParamsPage.CHLADNI_PARAMS index = Some params /\
    ParamsPage.sendParamsToWorker p index = Returned p' /\
    ParamsPage.app p' = ParamsPage.app p /\
    let a := ParamsPage.app p in
    let message :=
      Worker.mkConfigMessage (Some (App.width a)) (Some (App.height a))
                             (Some params) in
    ParamsPage.sent p' = ParamsPage.sent p ++ [message] /\
    let c' := Worker.receiveUpdateFromMainThread cos random c message in
    Worker.width (Worker.this c') = Some (App.width a) /\
    Worker.height (Worker.this c') = Some (App.height a) /\
    Worker.currentParams (Worker.this c') = params /\
    Worker.posted c' = Worker.posted c ++ [field] /\
    let a' := App.onMessageFromWorker a field in
    App.vibrationValues a' = Some vib /\
    App.gradients a' = Some g /\
    App.vibrationIntensity a' = MODERATE_RANDOM_VIBRATION_INTENSITY /\
    length vib = Z.to_nat (App.width a' * App.height a') /\
    length g = Z.to_nat (App.width a' * App.height a' * 2) /\
    forall x y, 0 <= x < App.width a' -> 0 <= y < App.height a' ->
      unitComponent (fst (gradientAt g (App.width a') x y)) /\
      unitComponent (snd (gradientAt g (App.width a') x y)).
Proof.
  intros Hindex.
  destruct (ta_lookup_inside ParamsPage.CHLADNI_PARAMS index) as [params Hp];
    [simpl; lia|].
  set (a := ParamsPage.app p).
  set (message := Worker.mkConfigMessage (Some (App.width a))
                    (Some (App.height a)) (Some params)).
  destruct (worker_receive_posts cos random c message)
    as [vib [g [Hposted [Hlv [Hlg [Hunit _]]]]]].
  destruct (worker_receive_fields cos random c message) as [Hw [Hh Hcp]].
  cbv zeta in *.
  eexists. exists params. eexists. exists vib, g.
  split; [exact Hp|].
  unfold ParamsPage.sendParamsToWorker. rewrite Hp.
  split; [reflexivity|]. split; [reflexivity|].
  fold a.
  assert (Heta : mkChladniParams (m params) (n params) (l params) = params)
    by (destruct params; reflexivity).
  rewrite Heta. fold message.
  split; [reflexivity|]. split; [exact Hw|]. split; [exact Hh|].
  split; [rewrite Hcp; exact Heta|].
  split; [exact Hposted|].
  unfold App.onMessageFromWorker. cbn.
  split; [reflexivity|]. split; [reflexivity|]. split; [reflexivity|].
  split; [exact Hlv|]. split; [exact Hlg|].
  intros x y Hx Hy. eapply gradient_reads; eauto.
Qed.


(** ** A resize answered by the frequency worker *)

Lemma frequency_bake_posts cos random c :
  FrequencyWorker.isResonantRound (FrequencyWorker.this c) = true ->
  0 <= FrequencyWorker.gradientParametersIndex (FrequencyWorker.this c)
    < Z.of_nat (length (FrequencyWorker.table c)) ->
  exists vib grad,
    FrequencyWorker.posted (FrequencyWorker.bakeNextGradients cos random c) =
      FrequencyWorker.posted c ++
      [mkFieldMessage MODERATE_RANDOM_VIBRATION_INTENSITY
         (Some vib) (Some grad)] /\
    length vib =
      Z.to_nat (dim (FrequencyWorker.width (FrequencyWorker.this c)) *
                dim (FrequencyWorker.height (FrequencyWorker.this c))) /\
    length grad =
      Z.to_nat (dim (FrequencyWorker.width (FrequencyWorker.this c)) *
                dim (FrequencyWorker.height (FrequencyWorker.this c)) * 2) /\
    Forall unitComponent grad.
Proof.
  intros Hres Hidx.
  destruct (ta_lookup_inside _ _ Hidx) as [p0 Hp0].
  unfold FrequencyWorker.bakeNextGradients. rewrite Hres, Hp0.
  match goal with
  | |- context [recalculateGradients cos random ?w ?h ?p ?r] =>
      pose proof (recalculate_sizes cos random w h p r) as [Hv [Hg _]];
      pose proof (computeGradients_components random w h
                    (bakedVibration cos random w h p r) (S (S r))) as Hu;
      rewrite <- bakedGradients_eq in Hu;
      unfold bakedVibration, bakedGradients in Hv, Hg, Hu;
      destruct (recalculateGradients cos random w h p r) as [[vib grad] rng1]
  end.
  exists vib, grad. cbn [FrequencyWorker.posted FrequencyWorker.this fst snd] in *.
  auto.
Qed.

Lemma frequency_receive_posts cos random c message :
  0 <= FrequencyWorker.gradientParametersIndex (FrequencyWorker.this c)
    < Z.of_nat (length (FrequencyWorker.table c)) ->
  let c' := FrequencyWorker.receiveUpdateFromMainThread cos random c message in
  exists vib grad,
    FrequencyWorker.posted c' =
      FrequencyWorker.posted c ++
      [mkFieldMessage MODERATE_RANDOM_VIBRATION_INTENSITY
         (Some vib) (Some grad)] /\
    length vib =
      Z.to_nat (dim (FrequencyWorker.width (FrequencyWorker.this c')) *
                dim (FrequencyWorker.height (FrequencyWorker.this c'))) /\
    length grad =
      Z.to_nat (dim (FrequencyWorker.width (FrequencyWorker.this c')) *
                dim (FrequencyWorker.height (FrequencyWorker.this c')) * 2) /\
    Forall unitComponent grad.
Proof.
  intros Hidx c'.
  assert (Hdims :
    FrequencyWorker.width (FrequencyWorker.this c') =
      match FrequencyWorker.msg_width message with
      | Some v => Some v
      | None => FrequencyWorker.width (FrequencyWorker.this c)
      end /\
    FrequencyWorker.height (FrequencyWorker.this c') =
      match FrequencyWorker.msg_height message with
      | Some v => Some v
      | None => FrequencyWorker.height (FrequencyWorker.this c)
      end).
  { destruct (frequency_receive_fields cos random c message) as [Hw [Hh _]].
    split; assumption. }
  destruct Hdims as [Hw Hh]. rewrite Hw, Hh.
  unfold c', FrequencyWorker.receiveUpdateFromMainThread.
  name_baked_context c1.
  destruct (frequency_bake_posts cos random c1 eq_refl Hidx)
    as [vib [grad [Hp [Hlv [Hlg Hu]]]]].
  unfold setInterval. cbn [FrequencyWorker.posted].
  exists vib, grad. rewrite Hp. split; [reflexivity|].
  split; [exact Hlv|]. split; [exact Hlg|exact Hu].
Qed.

(** X24.  Application and worker with the frequency control together.
    After a [resize] on a window with positive sides of at most [2^24]
    pixels, the worker, in any state it can have reached, takes over the
    frequency of the application and answers the message of the resize
    with one field; once [onMessageFromWorker] has taken it, there is one
    vibration value per buffer cell and two gradient entries per buffer
    cell, the gradient read for every cell of the canvas is made of -1, 0
    and 1, and every particle lies on the canvas, its far edges
    included. *)
Theorem resize_field_fits_canvas cos random innerWidth innerHeight p rng events :
  (forall j, randomValue (random j)) ->
  (0 < innerWidth)%nat -> (0 < innerHeight)%nat ->
  Z.of_nat innerWidth <= 2 ^ 24 -> Z.of_nat innerHeight <= 2 ^ 24 ->
  let c := frequencyRun cos random events in
  exists p' rng' message field vib g,
    FrequencyPage.resize random innerWidth innerHeight p rng
      = Returned (p', rng') /\
    FrequencyPage.sent p' = FrequencyPage.sent p ++ [message] /\
    let c' := FrequencyWorker.receiveUpdateFromMainThread cos random c message in
    FrequencyWorker.currentFrequency (FrequencyWorker.this c') =
      FrequencyPage.currentFrequency p /\
    FrequencyWorker.posted c' = FrequencyWorker.posted c ++ [field] /\
    let a' := App.onMessageFromWorker (FrequencyPage.app p') field in
    App.vibrationValues a' = Some vib /\
    App.gradients a' = Some g /\
    length vib = length (App.buffer a') /\
    length g = (2 * length (App.buffer a'))%nat /\
    (forall x y, 0 <= x < App.width a' -> 0 <= y < App.height a' ->
       unitComponent (fst (gradientAt g (App.width a') x y)) /\
       unitComponent (snd (gradientAt g (App.width a') x y))) /\
    (forall k, 0 <= k -> 2 * k + 1 < Z.of_nat (length (App.particles a')) ->
       onCanvas a' (ta_read (App.particles a') (2 * k))
                   (ta_read (App.particles a') (2 * k + 1))).
Proof.
  intros Hrandom Hiw Hih Hmw Hmh c.
  destruct (scaled_side innerWidth) as [Hcw [Hpw _]].
  destruct (scaled_side innerHeight) as [Hch [Hph _]].
  specialize (Hpw Hiw). specialize (Hph Hih). cbv zeta in *.
  pose proof (side_bound innerWidth _ Hcw) as Hbw.
  pose proof (side_bound innerHeight _ Hch) as Hbh.
  unfold FrequencyPage.resize.
  set (width := Math_ceil (inject_Z (Z.of_nat innerWidth) / CANVAS_SCALE)) in *.
  set (height := Math_ceil (inject_Z (Z.of_nat innerHeight) / CANVAS_SCALE)) in *.
  destruct (rebuild_returns random (FrequencyPage.app p) width height rng
              Hpw Hph)
    as [a1 [r1 [Hre [Hw1 [Hh1 [Hbuf [Hps _]]]]]]].
  pose proof (rebuild_inside random (FrequencyPage.app p) width height rng
                a1 r1 ) as Hin.
  rewrite Hre.
  set (message := FrequencyWorker.mkConfigMessage (Some width) (Some height)
                    (Some (FrequencyPage.currentFrequency p))).
  destruct (frequency_receive_posts cos random c message
              (index_in_table cos random events))
    as [vib [g [Hposted [Hlv [Hlg Hu]]]]].
  destruct (frequency_receive_fields cos random c message) as [Hw [Hh Hf]].
  rewrite Hw, Hh in Hlv, Hlg. cbn [FrequencyWorker.msg_width
    FrequencyWorker.msg_height FrequencyWorker.msg_frequency message dim
    default] in Hlv, Hlg, Hf.
  unfold Datatypes.id in Hlv, Hlg.
  eexists. eexists. exists message. eexists. exists vib, g.
  split; [reflexivity|].
  cbn [FrequencyPage.app FrequencyPage.sent].
  split; [reflexivity|]. split; [exact Hf|]. split; [exact Hposted|].
  unfold App.onMessageFromWorker.
  cbn [msg_gradients msg_vibrationValues App.vibrationValues App.gradients
       App.buffer App.width App.height App.particles].
  rewrite Hbuf, Hw1, Hh1, length_replicate.
  split; [reflexivity|]. split; [reflexivity|].
  split; [exact Hlv|]. split; [rewrite Hlg; lia|].
  split.
  - intros x y Hx Hy. eapply gradient_reads; eauto.
  - intros k Hk Hlen.
    assert (Hlen' : 2 * k + 1 <
                    Z.of_nat (length (App.particles (FrequencyPage.app p)))).
    { rewrite Hps, scatter_length in Hlen. exact Hlen. }
    specialize (Hin k Hrandom ltac:(lia) ltac:(lia) Hre Hk Hlen').
    unfold onCanvas in *. cbn [App.width App.height].
    rewrite Hw1, Hh1 in Hin. exact Hin.
Qed.


(** ** Keyboard and first frame *)

Lemma keypress_twice a key :
  Controls.keypress (Controls.keypress a key) key = a.
Proof.
  unfold Controls.keypress.
  destruct (String.eqb key "d") eqn:Ed.
  - destruct a. cbn. rewrite negb_involutive. reflexivity.
  - destruct (String.eqb key " ") eqn:Es.
    + destruct a. cbn. rewrite negb_involutive. reflexivity.
    + reflexivity.
Qed.

(** X25.  [keypress] only toggles: the same key pressed twice gives the
    application back; particles, buffer, gradients and frame counter are
    never touched; [debugVibration] changes exactly for the key [d] and
    [isRunning] exactly for the space key. *)
Theorem keypress_toggles a key :
  let a' := Controls.keypress a key in
  Controls.keypress a' key = a /\
  App.particles a' = App.particles a /\
  App.buffer a' = App.buffer a /\
  App.gradients a' = App.gradients a /\
  App.fpsCount a' = App.fpsCount a /\
  (App.debugVibration a' <> App.debugVibration a <-> key = "d"%string) /\
  (App.isRunning a' <> App.isRunning a <-> key = " "%string).
Proof.
  intros a'. split; [apply keypress_twice|].
  unfold a', Controls.keypress.
  destruct (String.eqb_spec key "d") as [->|Hd].
  - cbn.
    split; [reflexivity|]. split; [reflexivity|]. split; [reflexivity|].
    split; [reflexivity|]. split; split.
    + intros _. reflexivity.
    + intros _. destruct (App.debugVibration a); discriminate.
    + intros H. exfalso. apply H. reflexivity.
    + intros H. discriminate.
  - destruct (String.eqb_spec key " ") as [->|Hs].
    + cbn.
      split; [reflexivity|]. split; [reflexivity|]. split; [reflexivity|].
      split; [reflexivity|]. split; split.
      * intros H. exfalso. apply H. reflexivity.
      * intros H. discriminate.
      * intros _. reflexivity.
      * intros _. destruct (App.isRunning a); discriminate.
    + split; [reflexivity|]. split; [reflexivity|]. split; [reflexivity|].
      split; [reflexivity|]. split; split.
      * intros H. exfalso. apply H. reflexivity.
      * intros H. exfalso. apply Hd. exact H.
      * intros H. exfalso. apply H. reflexivity.
      * intros H. exfalso. apply Hs. exact H.
Qed.

Lemma advance_free random a ps rng i px py :
  App.gradients a = None ->
  ta_read ps i = Num px -> ta_read ps (i + 1) = Num py ->
  fst (App.advance random a ps rng i) =
    (Num (fl_add px (App.jitter a (random rng))),
     Num (fl_add py (App.jitter a (random (S rng))))).
Proof.
  intros Hg Hpx Hpy. unfold App.advance. rewrite Hg, Hpx, Hpy. reflexivity.
Qed.

(** A coordinate between two integers of single precision stays between
    them when a double is added and the sum is stored. *)
Lemma stored_between (lo hi : Z) (p j : Q) :
  Z.abs lo <= 2 ^ 24 -> Z.abs hi <= 2 ^ 24 ->
  (inject_Z lo <= p + j <= inject_Z hi)%Q ->
  (inject_Z lo <= Math_fround (fl_add p j) <= inject_Z hi)%Q.
Proof.
  intros Hlo Hhi H. unfold fl_add.
  assert (H53 : 2 ^ 24 <= 2 ^ 53) by (apply Z.pow_le_mono_r; lia).
  apply fround_between; [exact Hlo|exact Hhi|].
  apply rnd_between; [lia|lia|exact H].
Qed.

(** X26.  The constructor of the application with the frequency control,
    on a window with positive sides below [2^24] pixels and for
    [Math.random()] with values in the doubles of [[0, 1)].  It returns;
    exactly one message has been sent, with the rounded dimensions and the
    default frequency [0.04]; one frame has been drawn without gradients;
    every buffer cell holds the background colour or the non-resonant
    colour; [4 * NUM_PARTICLES] random values have been drawn; and each of
    the [NUM_PARTICLES] particles lies within one pixel of the canvas, the
    ends included. *)
Theorem first_frame random rgbToVal innerWidth innerHeight
    nonResonantColor colors backgroundColor rng :
  (forall j, randomValue (random j)) ->
  (0 < innerWidth)%nat -> (0 < innerHeight)%nat ->
  Z.of_nat innerWidth < 2 ^ 24 -> Z.of_nat innerHeight < 2 ^ 24 ->
  exists p rng',
    FrequencyPage.constructor random rgbToVal innerWidth innerHeight
      nonResonantColor colors backgroundColor rng = Returned (p, rng') /\
    let a := FrequencyPage.app p in
    coversSide innerWidth (App.width a) /\
    coversSide innerHeight (App.height a) /\
    FrequencyPage.sent p =
      [FrequencyWorker.mkConfigMessage
         (Some (App.width a)) (Some (App.height a))
         (Some (lit (4 # 100)))] /\
    App.fpsCount a = 1 /\
    App.gradients a = None /\
    App.isRunning a = true /\
    length (App.buffer a) = Z.to_nat (App.width a * App.height a) /\
    length (App.particles a) = Z.to_nat (2 * App.NUM_PARTICLES) /\
    rng' = (rng + Z.to_nat (4 * App.NUM_PARTICLES))%nat /\
    (forall j v, ta_lookup (App.buffer a) j = Some v ->
       v = App.ToUint32 (Some backgroundColor) \/
       v = App.ToUint32 (Some nonResonantColor)) /\
    (forall k, 0 <= k < App.NUM_PARTICLES ->
       exists qx qy,
         ta_read (App.particles a) (2 * k) = Num qx /\
         ta_read (App.particles a) (2 * k + 1) = Num qy /\
         (- (1) <= qx <= inject_Z (App.width a) + 1)%Q /\
         (- (1) <= qy <= inject_Z (App.height a) + 1)%Q).
Proof.
  intros Hrandom Hiw Hih Hmw Hmh.
  destruct (scaled_side innerWidth) as [Hcw [Hpw _]].
  destruct (scaled_side innerHeight) as [Hch [Hph _]].
  specialize (Hpw Hiw). specialize (Hph Hih). cbv zeta in *.
  pose proof (side_bound innerWidth _ Hcw) as Hbw.
  pose proof (side_bound innerHeight _ Hch) as Hbh.
  unfold FrequencyPage.constructor, FrequencyPage.resize.
  set (width := Math_ceil (inject_Z (Z.of_nat innerWidth) / CANVAS_SCALE)) in *.
  set (height := Math_ceil (inject_Z (Z.of_nat innerHeight) / CANVAS_SCALE)) in *.
  cbn [FrequencyPage.app FrequencyPage.sent FrequencyPage.currentFrequency].
  set (a0 := App.mkChladniApp _ _ _ _ _ _ _ _ _ _ _ _ _ _ _ _).
  assert (Hlen0 : Z.of_nat (length (App.particles a0)) = 2 * App.NUM_PARTICLES).
  { unfold a0. cbn [App.particles]. rewrite newFloat32Array_length.
    unfold App.NUM_PARTICLES. lia. }
  destruct (rebuild_returns random a0 width height rng Hpw Hph)
    as (a1 & r1 & Hre & Hw1 & Hh1 & Hbuf & Hps & Hr1 & Hvib & Hg & Hrun & _ & _
        & Hint & Hhalf & Hfps & Hdbg & Hbg & Hnr).
  pose proof (rebuild_inside random a0 width height rng a1 r1 ) as Hin.
  rewrite Hre. cbv beta iota.
  cbn [FrequencyPage.app FrequencyPage.sent FrequencyPage.currentFrequency].
  destruct (App.update random rgbToVal a1 r1) as [a2 r2] eqn:Eup.
  assert (Ea2 : a2 = fst (App.update random rgbToVal a1 r1))
    by (rewrite Eup; reflexivity).
  assert (Er2 : r2 = snd (App.update random rgbToVal a1 r1))
    by (rewrite Eup; reflexivity).
  eexists. eexists. split; [reflexivity|].
  cbn [FrequencyPage.app FrequencyPage.sent app].
  assert (Hrun1 : App.isRunning a1 = true) by (rewrite Hrun; reflexivity).
  assert (Hg1 : App.gradients a1 = None) by (rewrite Hg; reflexivity).
  assert (Hlen1 : length (App.particles a1) = length (App.particles a0))
    by (rewrite Hps; apply scatter_length).
  destruct (update_settings random rgbToVal a1 r1) as [Hs Hf].
  rewrite <- Ea2 in Hs, Hf.
  destruct Hs as (_ & Hg2 & _ & _ & _ & Hrun2 & Hw2 & Hh2 & Hnr2 & _ & _ & _ & Hbg2).
  destruct (update_running random rgbToVal a1 r1 Hrun1) as [Hp2 Hb2].
  pose proof (update_trace random rgbToVal a1 r1) as [Htr Hpl Hbl _ _ Hcells].
  rewrite <- Hp2 in Hpl. rewrite <- Hb2 in Hbl, Hcells.
  rewrite <- Ea2 in Hpl, Hbl, Hcells.
  rewrite Hw2, Hh2, Hw1, Hh1.
  split; [exact Hcw|]. split; [exact Hch|]. split; [reflexivity|].
  split; [rewrite Hf, Hfps; reflexivity|].
  split; [rewrite Hg2; exact Hg1|].
  split; [rewrite Hrun2; exact Hrun1|].
  split.
  { rewrite Hbl, fillBuffer_length, Hbuf, length_replicate. reflexivity. }
  split.
  { rewrite Hpl, Hlen1. lia. }
  split.
  { rewrite Er2, (update_rng random rgbToVal a1 r1 Hrun1), Htr.
    rewrite particleIndices_length, Hr1, scatter_counter, Hlen1.
    rewrite Hlen0. unfold App.NUM_PARTICLES.
    change ((2 * 30000 + 1) / 2) with 30000. lia. }
  split.
  { intros j v Hj. destruct (Hcells j) as [Hfill|[Hdrawn _]].
    - left. rewrite Hfill in Hj. unfold App.fillBuffer in Hj.
      rewrite Hdbg in Hj. cbn [a0 App.debugVibration] in Hj.
      unfold App.DEBUG_VIBRATION_LEVELS in Hj.
      apply ta_lookup_In in Hj. apply list_elem_of_In in Hj.
      apply elem_of_replicate in Hj. destruct Hj as [-> _].
      rewrite Hbg. reflexivity.
    - right. rewrite Hdrawn in Hj. injection Hj as <-.
      unfold frameColor. rewrite Hg1, Hnr. reflexivity. }
  intros k Hk.
  assert (Hk0 : 2 * k + 1 < Z.of_nat (length (App.particles a0))) by lia.
  destruct (Hin k Hrandom ltac:(lia) ltac:(lia) Hre ltac:(lia) Hk0)
    as [qx [qy [Hqx [Hqy [Hbx Hby]]]]].
  rewrite Hw1 in Hbx. rewrite Hh1 in Hby.
  destruct (update_particle random rgbToVal a1 r1 Hrun1 k ltac:(lia)
              ltac:(rewrite Hlen1; lia)) as [d [Hx [Hy _]]].
  rewrite <- Ea2 in Hx, Hy. unfold movedX, movedY in Hx, Hy.
  rewrite (advance_free random a1 _ d _ qx qy Hg1 Hqx Hqy) in Hx, Hy.
  cbn [fst snd toFloat32] in Hx, Hy.
  assert (Hpos : (0 <= App.vibrationIntensity a1)%Q)
    by (rewrite Hint; vm_compute; discriminate).
  assert (HI : isDouble (App.vibrationIntensity a1))
    by (rewrite Hint; vm_compute; reflexivity).
  assert (HH : isDouble (App.halfVibrationIntensity a1))
    by (rewrite Hhalf; vm_compute; reflexivity).
  assert (Hhalf1 : (App.halfVibrationIntensity a1 ==
                    App.vibrationIntensity a1 / 2)%Q)
    by (rewrite Hint, Hhalf; reflexivity).
  pose proof (jitter_range a1 (random d) (Hrandom d) Hpos HI HH Hhalf1) as Hjx.
  pose proof (jitter_range a1 (random (S d)) (Hrandom (S d)) Hpos HI HH Hhalf1)
    as Hjy.
  assert (Hone : (App.vibrationIntensity a1 / 2 == 1)%Q)
    by (rewrite Hint; reflexivity).
  rewrite Hone in Hjx, Hjy.
  eexists. eexists. split; [exact Hx|]. split; [exact Hy|].
  assert (E1 : forall z, (inject_Z (z + 1) == inject_Z z + 1)%Q).
  { intros z. rewrite inject_Z_plus. reflexivity. }
  split.
  - rewrite <- E1. change (- (1))%Q with (inject_Z (-1)).
    apply stored_between; [simpl; lia|lia|].
    rewrite E1. change (inject_Z (-1)) with (- (1))%Q.
    set (jx := App.jitter a1 (random d)) in *. clearbody jx. qlra.
  - rewrite <- E1. change (- (1))%Q with (inject_Z (-1)).
    apply stored_between; [simpl; lia|lia|].
    rewrite E1. change (inject_Z (-1)) with (- (1))%Q.
    set (jy := App.jitter a1 (random (S d))) in *. clearbody jy. qlra.
Qed.


(** ** The frequency slider *)

(** X27.  A move of the frequency slider to [value] sends the
    dimensions of the application with the new frequency; the worker, in any
    state it can have reached, then holds these dimensions and this
    frequency and posts one field of [width * height] vibration values and
    twice as many gradient entries, all -1, 0 or 1. *)
Theorem frequency_input_round_trip cos random p value events :
  let c := frequencyRun cos random events in
  let a := FrequencyPage.app p in
  let p' := FrequencyPage.onFrequencyInput p value in
  exists message field vib g,
    FrequencyPage.sent p' = FrequencyPage.sent p ++ [message] /\
    FrequencyPage.app p' = a /\
    FrequencyPage.currentFrequency p' = value /\
    let c' := FrequencyWorker.receiveUpdateFromMainThread cos random c message in
    FrequencyWorker.width (FrequencyWorker.this c') = Some (App.width a) /\
    FrequencyWorker.height (FrequencyWorker.this c') = Some (App.height a) /\
    FrequencyWorker.currentFrequency (FrequencyWorker.this c') = value /\
    FrequencyWorker.posted c' = FrequencyWorker.posted c ++ [field] /\
    field = mkFieldMessage MODERATE_RANDOM_VIBRATION_INTENSITY
              (Some vib) (Some g) /\
    length vib = Z.to_nat (App.width a * App.height a) /\
    length g = Z.to_nat (App.width a * App.height a * 2) /\
    Forall unitComponent g.
Proof.
  intros c a p'.
  set (message := FrequencyWorker.mkConfigMessage (Some (App.width a))
                    (Some (App.height a)) (Some value)).
  destruct (frequency_receive_posts cos random c message
              (index_in_table cos random events))
    as [vib [g [Hposted [Hlv [Hlg Hu]]]]].
  destruct (frequency_receive_fields cos random c message) as [Hw [Hh Hf]].
  rewrite Hw, Hh in Hlv, Hlg.
  cbn [FrequencyWorker.msg_width FrequencyWorker.msg_height
       FrequencyWorker.msg_frequency message dim default] in Hlv, Hlg, Hf, Hw, Hh.
  unfold Datatypes.id in Hlv, Hlg.
  exists message. eexists. exists vib, g.
  split; [reflexivity|]. split; [reflexivity|]. split; [reflexivity|].
  split; [exact Hw|]. split; [exact Hh|]. split; [exact Hf|].
  split; [exact Hposted|]. split; [reflexivity|].
  split; [exact Hlv|]. split; [exact Hlg|exact Hu].
Qed.


(** ** Witnesses of the further properties *)

Lemma squareCos_bounded : boundedCos squareCos.
Proof.
  intros q. unfold squareCos. destruct (Qle_bool 0 q); split; Lqa.lra.
Qed.

Lemma vibration_in_unit_range_witness :
  Forall unitValue (bakedVibration squareCos centredRandom 3 3 firstParams 0).
Proof.
  apply (vibration_in_unit_range squareCos centredRandom 3 3 firstParams 0).
  exact squareCos_bounded.
Defined.

Lemma equal_harmonics_flat_witness :
  Forall zeroValue (bakedVibration identityCos centredRandom 3 3 flatParams 0) /\
  Forall (eq (Num 0)) (bakedGradients identityCos centredRandom 3 3 flatParams 0).
Proof.
  apply (equal_harmonics_flat identityCos centredRandom 3 3 flatParams 0).
  reflexivity.
Defined.

Lemma thin_grid_gradients_witness :
  computeGradients centredRandom 2 5 [] 0 = (newFloat32Array (2 * 5 * 2), 0%nat).
Proof.
  apply (thin_grid_gradients centredRandom 2 5 [] 0); [lia|lia|left; lia].
Defined.

Lemma bake_sizes_witness :
  length (bakedVibration sampleCos zeroRandom 4 3 firstParams 0) = Z.to_nat (4 * 3) /\
  length (bakedGradients sampleCos zeroRandom 4 3 firstParams 0)
  = Z.to_nat (4 * 3 * 2) /\
  (0 + 2 <= snd (recalculateGradients sampleCos zeroRandom 4 3 firstParams 0)
   <= 0 + 2 + Z.to_nat (3 - 2) * Z.to_nat (4 - 2))%nat.
Proof.
  apply (bake_sizes sampleCos zeroRandom 4 3 firstParams 0); lia.
Defined.

Lemma selected_color_tracks_witness :
  exists c,
    App.selectedColor
      (deliverAll wrapApp [mkFieldMessage 3 (Some []) (Some [])]) = Some c /\
    In c (App.colors wrapApp).
Proof.
  assert (H1 : App.colors wrapApp <> []) by (simpl; discriminate).
  assert (H2 : 0 <= App.colorIndex wrapApp
               < Z.of_nat (length (App.colors wrapApp))) by (simpl; lia).
  destruct (selected_color_tracks wrapApp
              [mkFieldMessage 3 (Some []) (Some [])] H1 H2 eq_refl)
    as [_ [_ H]].
  exact H.
Defined.

Lemma pause_and_resume_witness :
  Controls.keypress
    (fst (frames centredRandom noDebugColor 3
            (Controls.keypress wrapApp " ", 0%nat))) " " =
  withFpsCount wrapApp (App.fpsCount wrapApp + Z.of_nat 3).
Proof.
  exact (proj1 (pause_and_resume centredRandom noDebugColor wrapApp 0 3 eq_refl)).
Defined.

Lemma sweep_postcondition_witness :
  exists d : nat,
    ta_read (App.particles
               (fst (Controls.checkForFallenParticles topRandom strayApp 0)))
            (2 * 0)
    = Num (freshCoordinate (topRandom d) (App.width strayApp)) /\
    ta_read (App.particles
               (fst (Controls.checkForFallenParticles topRandom strayApp 0)))
            (2 * 0 + 1)
    = Num (freshCoordinate (topRandom (S d)) (App.height strayApp)) /\
    (0 <= freshCoordinate (topRandom d) (App.width strayApp)
     <= inject_Z (App.width strayApp))%Q /\
    (0 <= freshCoordinate (topRandom (S d)) (App.height strayApp)
     <= inject_Z (App.height strayApp))%Q.
Proof.
  assert (Hw : 0 < App.width strayApp <= 2 ^ 24) by (simpl; lia).
  assert (Hh : 0 < App.height strayApp <= 2 ^ 24) by (simpl; lia).
  assert (Hlen : 2 * 0 + 1 < Z.of_nat (length (App.particles strayApp)))
    by (simpl; lia).
  destruct (sweep_postcondition topRandom strayApp 0 0
              topRandom_value Hw Hh ltac:(lia) Hlen)
    as [_ [_ [_ [Hfallen _]]]].
  exact (Hfallen eq_refl).
Defined.

Lemma nan_is_absorbing_witness :
  ta_read (App.particles (fst (App.update centredRandom noDebugColor lostApp 0)))
          (2 * 0) = NaN /\
  ta_read (App.particles (fst (App.update centredRandom noDebugColor lostApp 0)))
          (2 * 0 + 1) = NaN.
Proof.
  assert (Hlen : 2 * 0 + 1 < Z.of_nat (length (App.particles lostApp)))
    by (simpl; lia).
  exact (proj1 (nan_is_absorbing centredRandom noDebugColor lostApp 0 0
                  ltac:(lia) Hlen eq_refl eq_refl)).
Defined.

Lemma empty_field_erases_particles_witness :
  App.buffer (fst (App.update centredRandom noDebugColor emptyFieldApp 0)) =
  App.fillBuffer noDebugColor emptyFieldApp.
Proof.
  exact (proj2 (empty_field_erases_particles centredRandom noDebugColor
                  emptyFieldApp 0 eq_refl eq_refl)).
Defined.

Lemma pull_bound_witness :
  exists (px' gx : Q),
    fst (gradientAt wrapGradients 4 2 1) = Num gx /\
    ta_read (App.particles
               (fst (App.update centredRandom noDebugColor pulledApp 0)))
            (2 * 0) = Num px' /\
    (Qabs (px' - 2) <=
     App.MAX_GRADIENT_INTENSITY + App.vibrationIntensity pulledApp / 2
     + (1 # 8))%Q.
Proof.
  assert (Hunit : Forall unitComponent wrapGradients)
    by (unfold wrapGradients; apply computeGradients_components).
  assert (Hpos : (0 <= App.vibrationIntensity pulledApp)%Q)
    by (vm_compute; discriminate).
  assert (Hhigh : (App.vibrationIntensity pulledApp <= inject_Z (2 ^ 18))%Q)
    by (vm_compute; discriminate).
  assert (HI : isDouble (App.vibrationIntensity pulledApp))
    by (vm_compute; reflexivity).
  assert (HH : isDouble (App.halfVibrationIntensity pulledApp))
    by (vm_compute; reflexivity).
  assert (Hhalf : (App.halfVibrationIntensity pulledApp ==
                   App.vibrationIntensity pulledApp / 2)%Q)
    by (vm_compute; reflexivity).
  assert (Hlen : 2 * 0 + 1 < Z.of_nat (length (App.particles pulledApp)))
    by (simpl; lia).
  assert (Bx : (Qabs 2 <= inject_Z (2 ^ 18))%Q) by (vm_compute; discriminate).
  assert (By : (Qabs 1 <= inject_Z (2 ^ 18))%Q) by (vm_compute; discriminate).
  assert (Hlo : 0 <= (Qfloor (1 + (1 # 2)) * App.width pulledApp
                      + Qfloor (2 + (1 # 2))) * 2)
    by (vm_compute; discriminate).
  assert (Hhi : (Qfloor (1 + (1 # 2)) * App.width pulledApp
                 + Qfloor (2 + (1 # 2))) * 2 + 1
                < Z.of_nat (length wrapGradients))
    by (vm_compute; reflexivity).
  destruct (pull_bound centredRandom noDebugColor pulledApp 0 0 wrapGradients
              2 1 centredRandom_value eq_refl eq_refl Hunit Hpos Hhigh HI HH
              Hhalf ltac:(lia) Hlen eq_refl eq_refl Bx By Hlo Hhi)
    as (d & px' & py' & gx & gy & Hgrad & Hx & _ & _ & _ & Hbx & _).
  exists px', gx. split; [|split; [exact Hx|exact Hbx]].
  change (Qfloor (2 + (1 # 2))) with 2 in Hgrad.
  change (Qfloor (1 + (1 # 2))) with 1 in Hgrad.
  change (App.width pulledApp) with 4 in Hgrad.
  rewrite Hgrad. reflexivity.
Defined.

Lemma resize_postcondition_witness :
  exists p' rng',
    FrequencyPage.resize topRandom 6 3 wrapPage 0 = Returned (p', rng') /\
    coversSide 6 (App.width (FrequencyPage.app p')) /\
    coversSide 3 (App.height (FrequencyPage.app p')) /\
    onCanvas (FrequencyPage.app p')
      (ta_read (App.particles (FrequencyPage.app p')) (2 * 0))
      (ta_read (App.particles (FrequencyPage.app p')) (2 * 0 + 1)).
Proof.
  destruct (resize_postcondition topRandom 6 3 wrapPage 0
              topRandom_value ltac:(lia) ltac:(lia) ltac:(simpl; lia)
              ltac:(simpl; lia))
    as (p' & rng' & Hre & Hw & Hh & _ & _ & _ & _ & _ & _ & Hin).
  exists p', rng'. split; [exact Hre|]. split; [exact Hw|].
  split; [exact Hh|]. apply Hin; simpl; lia.
Defined.

Lemma resize_empty_window_witness :
  exists p',
    FrequencyPage.resize centredRandom 0 3 wrapPage 0 = Thrown (p', 0%nat) /\
    App.width (FrequencyPage.app p') * App.height (FrequencyPage.app p') = 0.
Proof.
  destruct (resize_empty_window centredRandom 0 3 wrapPage 0
              (or_introl eq_refl))
    as (p' & Hre & Hzero & _).
  exists p'. split; [exact Hre|exact Hzero].
Defined.

Lemma slider_round_trip_witness :
  exists p' params,
    ta_lookup ParamsPage.CHLADNI_PARAMS 3 = Some params /\
    ParamsPage.sendParamsToWorker sliderPage 3 = Returned p'.
Proof.
  destruct (slider_round_trip squareCos centredRandom sliderPage 3
              Worker.constructor ltac:(lia))
    as (p' & params & field & vib & g & Hp & Hsend & _).
  exists p', params. split; [exact Hp|exact Hsend].
Defined.

Lemma resize_field_fits_canvas_witness :
  exists p' rng' message field,
    FrequencyPage.resize topRandom 6 3 wrapPage 0 = Returned (p', rng') /\
    FrequencyPage.sent p' = FrequencyPage.sent wrapPage ++ [message] /\
    onCanvas (App.onMessageFromWorker (FrequencyPage.app p') field)
      (ta_read (App.particles
                  (App.onMessageFromWorker (FrequencyPage.app p') field)) (2 * 0))
      (ta_read (App.particles
                  (App.onMessageFromWorker (FrequencyPage.app p') field))
               (2 * 0 + 1)).
Proof.
  destruct (resize_field_fits_canvas squareCos topRandom 6 3 wrapPage 0 []
              topRandom_value ltac:(lia) ltac:(lia) ltac:(simpl; lia)
              ltac:(simpl; lia))
    as (p' & rng' & message & field & vib & g & Hre & Hsent & _ & _ & _ & _ & _
        & _ & _ & Hin).
  exists p', rng', message, field. split; [exact Hre|]. split; [exact Hsent|].
  apply Hin; [lia|].
  assert (Hl : length (App.particles (FrequencyPage.app p')) = 2%nat).
  { assert (Haux : FrequencyPage.resize topRandom 6 3 wrapPage 0 =
                   Returned (p', rng')) by exact Hre.
    vm_compute in Haux. injection Haux as Ep _. rewrite <- Ep. reflexivity. }
  rewrite onMessage_particles, Hl. simpl. lia.
Defined.

Lemma first_frame_witness :
  exists p rng' qx,
    FrequencyPage.constructor topRandom noDebugColor 6 3 9 [7] 0 0 =
      Returned (p, rng') /\
    App.fpsCount (FrequencyPage.app p) = 1 /\
    ta_read (App.particles (FrequencyPage.app p)) (2 * 0) = Num qx /\
    (- (1) <= qx <= inject_Z (App.width (FrequencyPage.app p)) + 1)%Q.
Proof.
  destruct (first_frame topRandom noDebugColor 6 3 9 [7] 0 0
              topRandom_value ltac:(lia) ltac:(lia) ltac:(simpl; lia)
              ltac:(simpl; lia))
    as (p & rng' & Hre & _ & _ & _ & Hfps & _ & _ & _ & _ & _ & _ & Hin).
  destruct (Hin 0 ltac:(unfold App.NUM_PARTICLES; lia))
    as (qx & qy & Hqx & _ & Hbx & _).
  exists p, rng', qx. split; [exact Hre|]. split; [exact Hfps|].
  split; [exact Hqx|exact Hbx].
Defined.
